(** * The countable hash tree of the quad store and its overlay engine

    A shallow embedding of the generic quad tree (class [GenericQuadTree]
    and the namespace of the same name): the JavaScript objects the tree is
    made of live in an explicit heap, so that prototype delegation
    ([Object.create]), in-place marking and aliasing are modelled as the
    program has them.

    Modelling scope.
    - Property keys are either strings (the concise-term "c1" keys of a
      tree level) or one of the four module symbols.  No c1 string is the
      name of a member of [Object.prototype], and none is an array index;
      so the end of every prototype chain contributes nothing to a lookup,
      and own string keys enumerate in creation order.
    - All properties are plain writable, enumerable data properties.
    - Counters are JavaScript numbers holding integers; they are only read
      and copied by the code embedded here, so they are modelled in [Z]. *)

From Stdlib Require Import ZArith Lia.
From stdpp Require Import base tactics option numbers strings list.

(** ** Association lists: the own-property table of an object *)

Fixpoint al_get {K V} `{EqDecision K} (k : K) (l : list (K * V)) : option V :=
  match l with
  | [] => None
  | (k', v) :: l' => if decide (k = k') then Some v else al_get k l'
  end.

(** Assignment: overwrite in place, or append a new entry. *)
Fixpoint al_set {K V} `{EqDecision K} (k : K) (v : V) (l : list (K * V))
    : list (K * V) :=
  match l with
  | [] => [(k, v)]
  | (k', v') :: l' =>
      if decide (k = k') then (k, v) :: l' else (k', v') :: al_set k v l'
  end.

Fixpoint al_del {K V} `{EqDecision K} (k : K) (l : list (K * V))
    : list (K * V) :=
  match l with
  | [] => []
  | (k', v') :: l' =>
      if decide (k = k') then l' else (k', v') :: al_del k l'
  end.

(** ** Values, property keys, objects and the heap *)

Abbreviation loc := nat.

Inductive value :=
  | VUndef                 (* undefined *)
  | VNum (n : Z)           (* a number holding an integer *)
  | VRef (l : loc).        (* a reference to an object or a Set *)

Global Instance value_eq_dec : EqDecision value.
Proof. solve_decision. Defined.

(** The four module-level symbols. *)
Inductive symbol :=
  | KEYS       (* $_KEYS    = Symbol('key-count')      *)
  | QUADS      (* $_QUADS   = Symbol('quad-count')     *)
  | OVERLAY    (* $_OVERLAY = Symbol('overlay-status') *)
  | BURIED.    (* $_BURIED  = Symbol('buried-status')  *)

Global Instance symbol_eq_dec : EqDecision symbol.
Proof. solve_decision. Defined.

Inductive pkey :=
  | PStr (s : string)
  | PSym (y : symbol).

Global Instance pkey_eq_dec : EqDecision pkey.
Proof. solve_decision. Defined.

(** An ordinary object: its own properties in creation order and its
    prototype ([None] is [Object.prototype], the end of the chain). *)
Record object := Obj {
  props : list (pkey * value);
  proto : option loc;
}.

(** A heap cell is an ordinary object or a [Set] of c1 strings (its
    elements in insertion order, without repetition). *)
Inductive cell :=
  | CObj (o : object)
  | CSet (elems : list string).

Abbreviation heap := (list cell).

Definition alloc (c : cell) (h : heap) : heap * loc := (h ++ [c], length h).

(** [{}] *)
Definition empty_object : object := {| props := []; proto := None |}.

(** The object stored at a location; a [Set] has no own properties that
    the tree code can see. *)
Definition obj_at (h : heap) (l : loc) : option object :=
  match h !! l with
  | Some (CObj o) => Some o
  | _ => None
  end.

Definition is_node (h : heap) (l : loc) : Prop := is_Some (obj_at h l).

Global Instance is_node_dec (h : heap) l : Decision (is_node h l).
Proof. unfold is_node. apply _. Defined.

Definition str_key (kv : pkey * value) : option string :=
  match kv.1 with PStr s => Some s | PSym _ => None end.

(** [Object.keys(o)] on an object: its own string keys. *)
Definition own_keys (o : object) : list string := omap str_key (props o).

(** Own-property lookup ([hasOwnProperty] together with the value). *)
Definition own_get (h : heap) (l : loc) (k : pkey) : option value :=
  o ← obj_at h l; al_get k (props o).

(** Lookup along the prototype chain.  Prototypes are allocated before the
    objects that delegate to them, so [S l] steps suffice from [l]. *)
Fixpoint lookup_fuel (n : nat) (h : heap) (l : loc) (k : pkey) : option value :=
  match n with
  | O => None
  | S n' =>
      match obj_at h l with
      | Some o =>
          match al_get k (props o) with
          | Some v => Some v
          | None =>
              match proto o with
              | Some p => lookup_fuel n' h p k
              | None => None
              end
          end
      | None => None
      end
  end.

Definition lookup_chain (h : heap) (l : loc) (k : pkey) : option value :=
  lookup_fuel (S l) h l k.

(** [o[k]] *)
Definition get (h : heap) (l : loc) (k : pkey) : value :=
  default VUndef (lookup_chain h l k).

(** [for (const k in o)]: the own string keys, then the keys of the
    prototype chain that are not shadowed. *)
Fixpoint forin_fuel (n : nat) (h : heap) (l : loc) : list string :=
  match n with
  | O => []
  | S n' =>
      match obj_at h l with
      | Some o =>
          own_keys o ++
          match proto o with
          | Some p => filter (λ k, k ∉ own_keys o) (forin_fuel n' h p)
          | None => []
          end
      | None => []
      end
  end.

Definition forin_keys (h : heap) (l : loc) : list string :=
  forin_fuel (S l) h l.

(** [o[k] = v] on an ordinary object: defines or overwrites the own
    property of the receiver. *)
Definition put (h : heap) (l : loc) (k : pkey) (v : value) : heap :=
  match obj_at h l with
  | Some o => <[l := CObj {| props := al_set k v (props o); proto := proto o |}]> h
  | None => h
  end.

(** [delete o[k]]: removes the own property, if there is one. *)
Definition remove (h : heap) (l : loc) (k : pkey) : heap :=
  match obj_at h l with
  | Some o => <[l := CObj {| props := al_del k (props o); proto := proto o |}]> h
  | None => h
  end.

(** [Object.create(p)] *)
Definition object_create (p : loc) (h : heap) : heap * loc :=
  alloc (CObj {| props := []; proto := Some p |}) h.

(** ** Well-formed heaps

    Every object has pairwise distinct own keys, and its prototype was
    allocated before it (as [Object.create] guarantees). *)

Definition obj_wf (l : loc) (o : object) : Prop :=
  NoDup (props o).*1 ∧ ∀ p, proto o = Some p → p < l.

Definition heap_wf (h : heap) : Prop :=
  ∀ l o, obj_at h l = Some o → obj_wf l o.

(** The same, as a check that runs. *)
Definition cell_wfb (l : loc) (c : cell) : bool :=
  match c with
  | CObj o =>
      bool_decide (NoDup (props o).*1) &&
      from_option (λ p, bool_decide (p < l)) true (proto o)
  | CSet _ => true
  end.

Fixpoint heap_wfb_from (b : nat) (h : heap) : bool :=
  match h with
  | [] => true
  | c :: h' => cell_wfb b c && heap_wfb_from (S b) h'
  end.

Definition heap_wfb (h : heap) : bool := heap_wfb_from 0 h.

(** Two heaps present the same object for key [k] at [x]. *)
Definition agree_on (k : pkey) (h h' : heap) (x : loc) : Prop :=
  match obj_at h x, obj_at h' x with
  | Some o, Some o' => proto o = proto o' ∧ al_get k (props o) = al_get k (props o')
  | None, None => True
  | _, _ => False
  end.

(** Two heaps present the same own string keys at [x]. *)
Definition agree_keys (h h' : heap) (x : loc) : Prop :=
  match obj_at h x, obj_at h' x with
  | Some o, Some o' => proto o = proto o' ∧ own_keys o = own_keys o'
  | None, None => True
  | _, _ => False
  end.

(** Every cell of [h] is still there, unchanged, in [h']. *)
Definition preserved (h h' : heap) : Prop :=
  ∀ l c, h !! l = Some c → h' !! l = Some c.

(** ** The overlay engine (namespace [GenericQuadTree]) *)

(** A default parameter value applies when the argument is [undefined]. *)
Definition default_arg (v d : value) : value :=
  match v with VUndef => d | _ => v end.

(** [overlayTree = (n_keys=0, n_quads=0) =>
      ({[$_KEYS]: n_keys, [$_QUADS]: n_quads})] *)
Definition overlayTree (n_keys n_quads : value) (h : heap) : heap * loc :=
  alloc (CObj {| props := [(PSym KEYS, default_arg n_keys (VNum 0));
                           (PSym QUADS, default_arg n_quads (VNum 0))];
                 proto := None |}) h.

(** [overlay]: create the delegating tree, bury the source, mark the new
    tree as an overlay. *)
Definition overlay (hcw_src : loc) (h : heap) : heap * loc :=
  let '(h, hcw_dst) := object_create hcw_src h in
  let h := put h hcw_src (PSym BURIED) (VNum 1) in
  let h := put h hcw_dst (PSym OVERLAY) (VNum 1) in
  (h, hcw_dst).

(** One turn of the loop of [trace]:
    [hcw_dst[sv1_key] = hcw_overlay[sv1_key]]. *)
Definition trace_copy (hcw_overlay hcw_dst : loc) (h : heap) (sv1_key : string) : heap :=
  put h hcw_dst (PStr sv1_key) (get h hcw_overlay (PStr sv1_key)).

(** [trace]: copy every enumerated key into a new object, then the key count
    and the quad count. *)
Definition trace (hcw_overlay : loc) (h : heap) : heap * loc :=
  let '(h, hcw_dst) := alloc (CObj empty_object) h in
  let h := foldl (trace_copy hcw_overlay hcw_dst) h (forin_keys h hcw_overlay) in
  let h := put h hcw_dst (PSym KEYS) (get h hcw_overlay (PSym KEYS)) in
  let h := put h hcw_dst (PSym QUADS) (get h hcw_overlay (PSym QUADS)) in
  (h, hcw_dst).

(** The object [overlay] allocates, and the one [trace] builds. *)
Definition overlay_cell (hcw_src : loc) : cell :=
  CObj {| props := [(PSym OVERLAY, VNum 1)]; proto := Some hcw_src |}.

Definition traced_props (h : heap) (l : loc) : list (pkey * value) :=
  ((λ k, (PStr k, get h l (PStr k))) <$> forin_keys h l) ++
  [(PSym KEYS, get h l (PSym KEYS)); (PSym QUADS, get h l (PSym QUADS))].

Definition traced_cell (h : heap) (l : loc) : cell :=
  CObj {| props := traced_props h l; proto := None |}.

(** Later mutations of the own properties of a node, string keys and
    counters alike: [d[k] = v] and [delete d[k]]. *)
Inductive own_op :=
  | OpSet (k : pkey) (v : value)
  | OpDelete (k : pkey).

Definition apply_op (d : loc) (h : heap) (op : own_op) : heap :=
  match op with
  | OpSet k v => put h d k v
  | OpDelete k => remove h d k
  end.

Definition apply_ops (d : loc) (h : heap) (ops : list own_op) : heap :=
  foldl (apply_op d) h ops.

(** ** Sets of c1 strings *)

Definition add_elem (es : list string) (k : string) : list string :=
  if decide (k ∈ es) then es else es ++ [k].

(** [new Set()] *)
Definition new_set (h : heap) : heap * loc := alloc (CSet []) h.

(** [new Set(iterable)] *)
Definition new_set_from (ks : list string) (h : heap) : heap * loc :=
  alloc (CSet (foldl add_elem [] ks)) h.

(** The elements of a set, in iteration order ([...s], [for (x of s)]). *)
Definition set_elems (h : heap) (s : loc) : list string :=
  match h !! s with
  | Some (CSet es) => es
  | _ => []
  end.

(** [s.add(k)] *)
Definition set_add (s : loc) (h : heap) (k : string) : heap :=
  match h !! s with
  | Some (CSet es) => <[s := CSet (add_elem es k)]> h
  | _ => h
  end.

(** [s.size] *)
Definition set_size (h : heap) (s : loc) : value :=
  VNum (Z.of_nat (length (set_elems h s))).

(** [for (const k in v)] over a value: nothing to enumerate on [undefined]
    or on a number. *)
Definition forin_value (h : heap) (v : value) : list string :=
  match v with
  | VRef l => forin_keys h l
  | _ => []
  end.

(** [v[k]]: a [TypeError] ([None]) on [undefined]. *)
Definition get_value (h : heap) (v : value) (k : pkey) : option value :=
  match v with
  | VUndef => None
  | VNum _ => Some VUndef
  | VRef l => Some (get h l k)
  end.

(** [Object.keys(v)]: own string keys only; a [TypeError] ([None]) on
    [undefined]. *)
Definition object_keys (h : heap) (v : value) : option (list string) :=
  match v with
  | VUndef => None
  | VNum _ => Some []
  | VRef l => Some (from_option own_keys [] (obj_at h l))
  end.

(** ** The generic dataset (class [GenericQuadTree]) *)

Section GenericQuadTree.
Context {PrefixMap GraphTerm SubjectTerm : Type}.
(** The codec, consumed from [DataFactory]. *)
Variable graphFromC1 : string → PrefixMap → GraphTerm.
Variable subjectFromC1 : string → PrefixMap → SubjectTerm.

Record GenericQuadTree := {
  _h_prefixes : PrefixMap;
  _hc4_quads : loc;
  _hc3_trips : value;
  _b_prefixed : bool;
}.

Definition constructor (hc4_quads : loc) (h_prefixes : PrefixMap)
    (b_prefixed : option bool) (h : heap) : GenericQuadTree :=
  {| _hc4_quads := hc4_quads;
     _hc3_trips := get h hc4_quads (PStr "*");
     _h_prefixes := h_prefixes;
     _b_prefixed := default false b_prefixed |}.

Definition size (this : GenericQuadTree) (h : heap) : value :=
  get h (_hc4_quads this) (PSym QUADS).

Definition isPrefixed (this : GenericQuadTree) : bool := _b_prefixed this.

Definition isExpanded (this : GenericQuadTree) : bool := negb (_b_prefixed this).

Definition _total_distinct_graphs (this : GenericQuadTree) (h : heap) : heap * loc :=
  let '(h, as_graphs) := new_set h in
  let h := foldl (set_add as_graphs) h (forin_keys h (_hc4_quads this)) in
  (h, as_graphs).

(** The body of the outer loop of [_total_distinct_subjects]. *)
Definition add_subjects_of (hc4_quads as_subjects : loc) (h : heap)
    (sc1_graph : string) : heap :=
  let hc3_trips := get h hc4_quads (PStr sc1_graph) in
  foldl (set_add as_subjects) h (forin_value h hc3_trips).

Definition _total_distinct_subjects (this : GenericQuadTree) (h : heap) : heap * loc :=
  let hc4_quads := _hc4_quads this in
  let '(h, as_subjects) := new_set h in
  let h := foldl (add_subjects_of hc4_quads as_subjects) h (forin_keys h hc4_quads) in
  (h, as_subjects).

Definition distinctGraphCount (this : GenericQuadTree) (h : heap) : value :=
  get h (_hc4_quads this) (PSym KEYS).

(** [None] is a [TypeError]. *)
Definition distinctSubjectCount (this : GenericQuadTree) (h : heap)
    : option (heap * value) :=
  if decide (VNum 1 = get h (_hc4_quads this) (PSym KEYS)) then
    n ← get_value h (_hc3_trips this) (PSym KEYS); Some (h, n)
  else
    '(h, as_subjects) ←
      foldl (λ st sc1_graph,
               '(h, as_subjects) ← st;
               ks ← object_keys h (get h (_hc4_quads this) (PStr sc1_graph));
               Some (new_set_from (set_elems h as_subjects ++ ks) h))
            (Some (new_set h)) (forin_keys h (_hc4_quads this));
    Some (h, set_size h as_subjects).

Definition distinctC1Graphs (this : GenericQuadTree) (h : heap) : heap * loc :=
  _total_distinct_graphs this h.

Definition distinctC1Subjects (this : GenericQuadTree) (h : heap) : heap * loc :=
  _total_distinct_subjects this h.

(** A generator run to completion: the heap it leaves and the terms it
    yields, in order. *)
Definition distinctGraphs (this : GenericQuadTree) (h : heap)
    : heap * list GraphTerm :=
  let h_prefixes := _h_prefixes this in
  let '(h, as_graphs) := distinctC1Graphs this h in
  (h, (λ sc1_graph, graphFromC1 sc1_graph h_prefixes) <$> set_elems h as_graphs).

Definition distinctSubjects (this : GenericQuadTree) (h : heap)
    : heap * list SubjectTerm :=
  let h_prefixes := _h_prefixes this in
  let '(h, as_subjects) := distinctC1Subjects this h in
  (h, (λ sc1_subject, subjectFromC1 sc1_subject h_prefixes) <$> set_elems h as_subjects).

End GenericQuadTree.

Arguments GenericQuadTree : clear implicits.

(** ** Reading the result of an enumeration *)

(** The elements of the set an enumeration returns, in the heap it leaves. *)
Definition run_set (r : heap * loc) : list string := set_elems r.1 r.2.

(** What the outer loop of [_total_distinct_subjects] accumulates for one
    graph key. *)
Definition collect_subjects (h : heap) (hc4_quads : loc) (es : list string)
    (sc1_graph : string) : list string :=
  foldl add_elem es (forin_value h (get h hc4_quads (PStr sc1_graph))).

(** The key counter of the root agrees with enumeration of the root. *)
Definition keys_counted (h : heap) (l : loc) : Prop :=
  get h l (PSym KEYS) = VNum (Z.of_nat (length (forin_keys h l))).

(** The distinct-graph count equals the number of graph terms yielded. *)
Definition graph_count_agrees {PrefixMap GraphTerm : Type}
    (graphFromC1 : string → PrefixMap → GraphTerm)
    (this : GenericQuadTree PrefixMap) (h : heap) : Prop :=
  distinctGraphCount this h =
  VNum (Z.of_nat (length (distinctGraphs graphFromC1 this h).2)).

(** The default graph is a visible key of the root and the shortcut of the
    dataset is the child stored under it. *)
Definition default_graph_cached {PrefixMap : Type}
    (this : GenericQuadTree PrefixMap) (h : heap) : Prop :=
  "*" ∈ forin_keys h (_hc4_quads this) ∧
  lookup_chain h (_hc4_quads this) (PStr "*") = Some (_hc3_trips this).

(** The distinct-subject count equals the size of the set of distinct
    subjects. *)
Definition subject_count_agrees {PrefixMap : Type}
    (this : GenericQuadTree PrefixMap) (h : heap) : Prop :=
  (snd <$> distinctSubjectCount this h) =
  Some (VNum (Z.of_nat (length (run_set (distinctC1Subjects this h))))).

(** ** Sample heaps

    The two-quad dataset of the specification's scenario: the quads
    (s1, p1, o1) and (s1, p1, o2) in the default graph. *)
Definition sample_heap : heap :=
  [ CSet ["o1"; "o2"];
    CObj {| props := [(PSym KEYS, VNum 1); (PSym QUADS, VNum 2); (PStr "p1", VRef 0)];
            proto := None |};
    CObj {| props := [(PSym KEYS, VNum 1); (PSym QUADS, VNum 2); (PStr "s1", VRef 1)];
            proto := None |};
    CObj {| props := [(PSym KEYS, VNum 1); (PSym QUADS, VNum 2); (PStr "*", VRef 2)];
            proto := None |} ].

Definition sample_root : loc := 3.

(** An overlay of the sample root that has gained a graph of its own:
    the root at 3 is buried, the overlay is at 4, the triples tree of the
    new graph at 5. *)
Definition sample_overlaid : heap :=
  let '(h, d) := overlay sample_root sample_heap in
  let '(h, t) := overlayTree VUndef VUndef h in
  put (put h d (PStr "g") (VRef t)) d (PSym KEYS) (VNum 2).

Definition sample_overlay : loc := 4.

(** The sample dataset. *)
Definition sample_dataset : GenericQuadTree unit :=
  constructor sample_root tt None sample_heap.

(** A dataset with two graphs, where the triples tree of graph [g] is an
    overlay of a tree holding the quad (s, p, o):
    0 the object set, 1 the predicates of [s], 2 the source triples tree
    (buried), 3 its overlay, 4 the triples tree of the default graph,
    5 the root. *)
Definition shared_heap : heap :=
  let h :=
    [ CSet ["o"];
      CObj {| props := [(PSym KEYS, VNum 1); (PSym QUADS, VNum 1); (PStr "p", VRef 0)];
              proto := None |};
      CObj {| props := [(PSym KEYS, VNum 1); (PSym QUADS, VNum 1); (PStr "s", VRef 1)];
              proto := None |} ] in
  let '(h, hc3_g) := overlay 2 h in
  let '(h, hc3_default) := overlayTree VUndef VUndef h in
  let '(h, hc4_quads) := overlayTree (VNum 2) (VNum 1) h in
  put (put h hc4_quads (PStr "*") (VRef hc3_default)) hc4_quads (PStr "g") (VRef hc3_g).

Definition shared_dataset : GenericQuadTree unit :=
  constructor 5 tt None shared_heap.

(** ** The basic quad tree: insertion and deletion *)

Module BasicQuadTree.

(** Modelled from the spec: the Countable Node of section 3, a mapping from
    compact keys to children annotated with the two running counters.  The
    tree classes that build and mutate these nodes are not among the source
    files; sealing is left out, since no derivation is taken in a sequence
    of insertions and deletions from the empty dataset. *)
Record node (A : Type) := Node {
  entries : list (string * A);
  keyCount : Z;
  quadCount : Z;
}.
Arguments Node {A} _ _ _.
Arguments entries {A} _.
Arguments keyCount {A} _.
Arguments quadCount {A} _.

(** Modelled from the spec: the four levels of section 3,
    [Graphs[gKey] → Triples[sKey] → Predicates[pKey] → Objects], the leaves
    being sets of object keys. *)
Abbreviation Objects := (list string).
Abbreviation Predicates := (node Objects).
Abbreviation Triples := (node Predicates).
Abbreviation Graphs := (node Triples).

(** A quad, written along its path in the tree:
    (graph, (subject, (predicate, object))). *)
Abbreviation quad := (string * (string * (string * string)))%type.

Definition empty_node {A} : node A :=
  {| entries := []; keyCount := 0; quadCount := 0 |}.

(** The reserved key of the default graph. *)
Definition default_graph : string := "*".

(** Modelled from the spec: the empty dataset, in which "the default graph is
    always present under a reserved key" (section 3). *)
Definition empty : Graphs :=
  {| entries := [(default_graph, empty_node)]; keyCount := 1; quadCount := 0 |}.

(** Modelled from the spec: "insert [object] into the key-set if absent"
    (section 4.3); the flag tells whether the set grew. *)
Definition add_object (o : string) (os : Objects) : Objects * bool :=
  if decide (o ∈ os) then (os, false) else (os ++ [o], true).

(** Modelled from the spec: one level of [add] (section 4.3): resolve or
    create the child under [k], insert below it, and when a quad was
    inserted increment [quadCount], and [keyCount] if [k] is a new key; a
    quad already present leaves the node as it is. *)
Definition add_at {A} (empty_child : A) (add_child : A → A * bool)
    (k : string) (n : node A) : node A * bool :=
  let '(child, is_new) :=
    match al_get k (entries n) with
    | Some c => (c, false)
    | None => (empty_child, true)
    end in
  let '(child', added) := add_child child in
  if added then
    ({| entries := al_set k child' (entries n);
        keyCount := keyCount n + (if is_new then 1 else 0);
        quadCount := quadCount n + 1 |}, true)
  else (n, false).

(** Modelled from the spec: [add] below a subject, "resolve/create the
    predicate-set" and insert the object (section 4.3). *)
Definition add_predicates (p o : string) : Predicates → Predicates * bool :=
  add_at [] (add_object o) p.

(** Modelled from the spec: [add] below a graph, "resolve/create the
    subject-tree" and descend (section 4.3). *)
Definition add_triples (s p o : string) : Triples → Triples * bool :=
  add_at empty_node (add_predicates p o) s.

(** Modelled from the spec: [add(graph, subject, predicate, object)] of the
    Basic variant (section 4.3). *)
Definition add (q : quad) : Graphs → Graphs * bool :=
  let '(g, (s, (p, o))) := q in
  add_at empty_node (add_triples s p o) g.

(** Modelled from the spec: "remove [object]" (section 4.3); the flag tells
    whether it was there. *)
Definition delete_object (o : string) (os : Objects) : Objects * bool :=
  if decide (o ∈ os) then (filter (λ x, x ≠ o) os, true) else (os, false).

(** Modelled from the spec: one level of [delete] (section 4.3): follow [k];
    an absent path is a no-op returning false; when a quad was removed
    below, decrement [quadCount], and if the child became empty remove the
    key and decrement [keyCount] (the default graph, flagged [keep], is
    always present and stays). *)
Definition delete_at {A} (is_empty : A → bool) (delete_child : A → A * bool)
    (keep : bool) (k : string) (n : node A) : node A * bool :=
  match al_get k (entries n) with
  | None => (n, false)
  | Some c =>
      let '(c', removed) := delete_child c in
      if removed then
        if is_empty c' && negb keep then
          ({| entries := al_del k (entries n);
              keyCount := keyCount n - 1;
              quadCount := quadCount n - 1 |}, true)
        else
          ({| entries := al_set k c' (entries n);
              keyCount := keyCount n;
              quadCount := quadCount n - 1 |}, true)
      else (n, false)
  end.

(** Modelled from the spec: "becomes empty", for an object set and for a
    node (sections 4.1 and 4.3). *)
Definition no_objects (os : Objects) : bool := bool_decide (os = []).

Definition no_keys {A} (n : node A) : bool :=
  match entries n with [] => true | _ => false end.

(** Modelled from the spec: [delete] below a subject and below a graph,
    the "mirror traversal" of [add] (section 4.3). *)
Definition delete_predicates (p o : string) : Predicates → Predicates * bool :=
  delete_at no_objects (delete_object o) false p.

Definition delete_triples (s p o : string) : Triples → Triples * bool :=
  delete_at no_keys (delete_predicates p o) false s.

(** Modelled from the spec: [delete(graph, subject, predicate, object)] of
    the Basic variant (section 4.3). *)
Definition delete (q : quad) : Graphs → Graphs * bool :=
  let '(g, (s, (p, o))) := q in
  delete_at no_keys (delete_triples s p o) (bool_decide (g = default_graph)) g.

(** A mutation of the dataset. *)
Inductive op :=
  | Add (q : quad)
  | Delete (q : quad).

Definition apply (t : Graphs) (x : op) : Graphs :=
  match x with
  | Add q => (add q t).1
  | Delete q => (delete q t).1
  end.

(** The dataset a sequence of mutations produces from the empty one. *)
Definition run (ops : list op) : Graphs := foldl apply empty ops.

(** The quads a sequence of mutations leaves stored: the set semantics. *)
Definition stored_step (S : quad → Prop) (x : op) : quad → Prop :=
  match x with
  | Add q => λ y, y = q ∨ S y
  | Delete q => λ y, y ≠ q ∧ S y
  end.

Definition stored (ops : list op) : quad → Prop :=
  foldl stored_step (λ _, False) ops.

(** *** The independent recount: a full traversal *)

(** Everything stored below a node, each item tagged with the key it was
    reached by. *)
Definition node_items {A B} (items : A → list B) (n : node A) : list (string * B) :=
  kc ← entries n; (λ b, (kc.1, b)) <$> items kc.2.

Definition predicates_items : Predicates → list (string * string) :=
  node_items (λ os : Objects, os).

Definition triples_items : Triples → list (string * (string * string)) :=
  node_items predicates_items.

(** All quads of the tree, by traversal of its four levels. *)
Definition quads : Graphs → list quad := node_items triples_items.

(** The sum of a count over the children of a node. *)
Definition sum_children {A} (cnt : A → Z) (n : node A) : Z :=
  foldr (λ kc acc, cnt kc.2 + acc)%Z 0%Z (entries n).

(** The counters of one node are right: [keyCount] is the number of keys,
    [quadCount] the sum of the counts of the children. *)
Definition counted {A} (cnt : A → Z) (n : node A) : Prop :=
  keyCount n = Z.of_nat (length (entries n)) ∧
  quadCount n = sum_children cnt n.

(** Keys are pairwise distinct, the counters are right, and every child is
    in order. *)
Definition node_ok {A} (ok : A → Prop) (cnt : A → Z) (n : node A) : Prop :=
  NoDup (entries n).*1 ∧ counted cnt n ∧ Forall ok (entries n).*2.

Definition objects_ok (os : Objects) : Prop := NoDup os.

Definition objects_count (os : Objects) : Z := Z.of_nat (length os).

Definition predicates_ok : Predicates → Prop := node_ok objects_ok objects_count.

Definition triples_ok : Triples → Prop := node_ok predicates_ok quadCount.

(** At every node of the tree the counters agree with a recount. *)
Definition graphs_ok : Graphs → Prop := node_ok triples_ok quadCount.

(** What one level of insertion has to do, seen from its parent: [f]
    inserts the item [new], keeps the child in order, counts one more
    exactly when the item is new, and otherwise changes nothing. *)
Definition adds {A B} (ok : A → Prop) (cnt : A → Z) (items : A → list B)
    (f : A → A * bool) (new : B) : Prop :=
  ∀ c, ok c →
    ok (f c).1 ∧
    cnt (f c).1 = (cnt c + (if (f c).2 then 1 else 0))%Z ∧
    (∀ x, x ∈ items (f c).1 ↔ x = new ∨ x ∈ items c) ∧
    ((f c).2 = true → (new ∉ items c)) ∧
    ((f c).2 = false → new ∈ items c ∧ (f c).1 = c).

(** The same for deletion of the item [old]. *)
Definition deletes {A B} (ok : A → Prop) (cnt : A → Z) (items : A → list B)
    (f : A → A * bool) (old : B) : Prop :=
  ∀ c, ok c →
    ok (f c).1 ∧
    cnt (f c).1 = (cnt c - (if (f c).2 then 1 else 0))%Z ∧
    (∀ x, x ∈ items (f c).1 ↔ x ≠ old ∧ x ∈ items c) ∧
    ((f c).2 = true → old ∈ items c) ∧
    ((f c).2 = false → (old ∉ items c) ∧ (f c).1 = c).

(** *** The tree as the transfer structure of a dataset *)

(** The objects of a leaf, as a [Set] in the heap. *)
Definition store_objects (os : Objects) (h : heap) : heap * loc :=
  alloc (CSet os) h.

(** One turn of [store_node]: store a child, and note the entry that will
    refer to it. *)
Definition store_entry {A} (store_child : A → heap → heap * loc)
    (acc : heap * list (pkey * value)) (kc : string * A)
    : heap * list (pkey * value) :=
  let '(h, l) := store_child kc.2 acc.1 in
  (h, acc.2 ++ [(PStr kc.1, VRef l)]).

(** A node as a heap object: its two counters under the symbols, then its
    entries, each child stored before the node that refers to it. *)
Definition store_node {A} (store_child : A → heap → heap * loc)
    (n : node A) (h : heap) : heap * loc :=
  let '(h, ps) := foldl (store_entry store_child) (h, []) (entries n) in
  alloc (CObj {| props := [(PSym KEYS, VNum (keyCount n));
                           (PSym QUADS, VNum (quadCount n))] ++ ps;
                 proto := None |}) h.

Definition store : Graphs → heap → heap * loc :=
  store_node (store_node (store_node store_objects)).

End BasicQuadTree.

(** ** Side conditions and closed forms for the dataset methods *)

Definition is_set (c : cell) : bool :=
  match c with CSet _ => true | CObj _ => false end.

(** A value refers to an ordinary object that has no prototype to inherit
    from. *)
Definition plain_value (h : heap) (v : value) : bool :=
  match v with
  | VRef t =>
      match obj_at h t with
      | Some o => bool_decide (proto o = None)
      | None => false
      end
  | _ => false
  end.

(** Every child enumerated at a node is such an object. *)
Definition plain_children (h : heap) (l : loc) : bool :=
  forallb (λ g, plain_value h (get h l (PStr g))) (forin_keys h l).

(** Every reference stored under an enumerated key of a node points into
    the heap. *)
Definition allocated_value (h : heap) (v : value) : bool :=
  match v with
  | VRef t => bool_decide (t < length h)
  | _ => true
  end.

Definition children_allocated (h : heap) (l : loc) : bool :=
  forallb (λ g, allocated_value h (get h l (PStr g))) (forin_keys h l).

(** One turn of the loop in the multi-graph branch of
    [distinctSubjectCount], on the elements of the set only:
    [new Set([...as_subjects, ...Object.keys(hc4_quads[sc1_graph])])]. *)
Definition own_subjects_step (h : heap) (hc4_quads : loc)
    (st : option (list string)) (sc1_graph : string) : option (list string) :=
  es ← st;
  ks ← object_keys h (get h hc4_quads (PStr sc1_graph));
  Some (foldl add_elem [] (es ++ ks)).

(** The subjects that branch ends with ([None]: a [TypeError] on the way). *)
Definition own_subjects (h : heap) (hc4_quads : loc) : option (list string) :=
  foldl (own_subjects_step h hc4_quads) (Some []) (forin_keys h hc4_quads).

(** The loop body of that branch, as it is in [distinctSubjectCount]. *)
Definition count_step (hc4_quads : loc) (st : option (heap * loc))
    (sc1_graph : string) : option (heap * loc) :=
  '(h, as_subjects) ← st;
  ks ← object_keys h (get h hc4_quads (PStr sc1_graph));
  Some (new_set_from (set_elems h as_subjects ++ ks) h).

(** *** More sample heaps *)

(** Two graphs, no overlay: the default graph holds (s, p, o), the graph
    [g] holds (s, p, o) and (s2, p, o2).
    0-2 the default graph, 3-6 the graph [g], 7 the root. *)
Definition two_graph_heap : heap :=
  [ CSet ["o"];
    CObj {| props := [(PSym KEYS, VNum 1); (PSym QUADS, VNum 1); (PStr "p", VRef 0)];
            proto := None |};
    CObj {| props := [(PSym KEYS, VNum 1); (PSym QUADS, VNum 1); (PStr "s", VRef 1)];
            proto := None |};
    CSet ["o2"];
    CObj {| props := [(PSym KEYS, VNum 1); (PSym QUADS, VNum 1); (PStr "p", VRef 3)];
            proto := None |};
    CObj {| props := [(PSym KEYS, VNum 1); (PSym QUADS, VNum 1); (PStr "p", VRef 0)];
            proto := None |};
    CObj {| props := [(PSym KEYS, VNum 2); (PSym QUADS, VNum 2);
                      (PStr "s", VRef 5); (PStr "s2", VRef 4)];
            proto := None |};
    CObj {| props := [(PSym KEYS, VNum 2); (PSym QUADS, VNum 3);
                      (PStr "*", VRef 2); (PStr "g", VRef 6)];
            proto := None |} ].

Definition two_graph_dataset : GenericQuadTree unit :=
  constructor 7 tt None two_graph_heap.

(** One key counted at the root, and it is not the default graph. *)
Definition named_only_heap : heap :=
  [ CObj {| props := [(PSym KEYS, VNum 0); (PSym QUADS, VNum 0)]; proto := None |};
    CObj {| props := [(PSym KEYS, VNum 1); (PSym QUADS, VNum 0); (PStr "g", VRef 0)];
            proto := None |} ].

(** Two keys at the root, one of them holding [undefined]. *)
Definition hollow_heap : heap :=
  [ CObj {| props := [(PSym KEYS, VNum 0); (PSym QUADS, VNum 0)]; proto := None |};
    CObj {| props := [(PSym KEYS, VNum 2); (PSym QUADS, VNum 0);
                      (PStr "*", VRef 0); (PStr "g", VUndef)];
            proto := None |} ].

(** ** The datasets the engine produces

    Modelled from the spec: the roots a dataset is constructed over.  The
    classes that build the tree are not among the source files, so the
    first case takes the tree from the insertions and deletions of
    [BasicQuadTree]: the transfer structure of a tree built from the empty
    dataset.  The other cases are the source's own [overlay] and [trace]:
    an overlay taken from a root, a materialized copy of one; and a root
    stays one when another root of the same heap is overlaid or traced. *)
Inductive dataset_root : heap → loc → Prop :=
  | root_stored (ops : list BasicQuadTree.op) (h0 : heap) :
      heap_wf h0 →
      dataset_root (BasicQuadTree.store (BasicQuadTree.run ops) h0).1
                   (BasicQuadTree.store (BasicQuadTree.run ops) h0).2
  | root_derived (h : heap) (r : loc) :
      dataset_root h r → dataset_root (overlay r h).1 (overlay r h).2
  | root_materialized (h : heap) (r : loc) :
      dataset_root h r → dataset_root (trace r h).1 (trace r h).2
  | root_after_overlay (h : heap) (r r' : loc) :
      dataset_root h r → dataset_root h r' → dataset_root (overlay r' h).1 r
  | root_after_trace (h : heap) (r r' : loc) :
      dataset_root h r → dataset_root h r' → dataset_root (trace r' h).1 r.

(** What holds of every such root: the heap is well formed, the root is a
    node whose key counter agrees with its enumeration, and the default
    graph is enumerated and refers to a node. *)
Definition root_inv (h : heap) (r : loc) : Prop :=
  heap_wf h ∧ is_node h r ∧ keys_counted h r ∧
  "*" ∈ forin_keys h r ∧
  ∃ t, lookup_chain h r (PStr "*") = Some (VRef t) ∧ is_node h t.

(** A dataset built by insertion: two quads in the default graph, one in
    the graph [g]. *)
Definition three_quad_ops : list BasicQuadTree.op :=
  [ BasicQuadTree.Add ("*", ("s1", ("p1", "o1")));
    BasicQuadTree.Add ("*", ("s1", ("p1", "o2")));
    BasicQuadTree.Add ("g", ("s2", ("p1", "o1"))) ].

Definition built_heap : heap :=
  (BasicQuadTree.store (BasicQuadTree.run three_quad_ops) []).1.

Definition built_root : loc :=
  (BasicQuadTree.store (BasicQuadTree.run three_quad_ops) []).2.

Definition built_dataset : GenericQuadTree unit :=
  constructor built_root tt None built_heap.

(** A dataset derived from it: constructed over an overlay of its root. *)
Definition derived_heap : heap := (overlay built_root built_heap).1.

Definition derived_root : loc := (overlay built_root built_heap).2.

Definition derived_dataset : GenericQuadTree unit :=
  constructor derived_root tt None derived_heap.

(** * Facts about the embedding *)

(** ** Association lists *)

Section alist_facts.
Context {K V : Type} `{EqDecision K}.

Lemma al_get_set_eq (k : K) (v : V) (l : list (K * V)) : al_get k (al_set k v l) = Some v.
Proof.
  induction l as [|[k' v'] l IH]; simpl.
  - by rewrite decide_True.
  - destruct (decide (k = k')); simpl.
    + by rewrite decide_True.
    + by rewrite decide_False.
Qed.

Lemma al_get_set_ne (k k' : K) (v : V) (l : list (K * V)) : k ≠ k' → al_get k' (al_set k v l) = al_get k' l.
Proof.
  intros Hne. induction l as [|[k0 v0] l IH]; simpl.
  - by rewrite decide_False.
  - destruct (decide (k = k0)) as [->|]; simpl.
    + by rewrite !decide_False.
    + by rewrite IH.
Qed.

Lemma al_get_Some_fst (k : K) (v : V) (l : list (K * V)) : al_get k l = Some v → k ∈ l.*1.
Proof.
  induction l as [|[k' v'] l IH]; simpl; [done|].
  destruct (decide (k = k')) as [->|]; intros H.
  - apply list_elem_of_here.
  - apply list_elem_of_further; auto.
Qed.

Lemma al_get_None_fst (k : K) (l : list (K * V)) : al_get k l = None ↔ k ∉ l.*1.
Proof.
  induction l as [|[k' v'] l IH]; simpl.
  - split; [intros _; apply not_elem_of_nil | done].
  - rewrite not_elem_of_cons. destruct (decide (k = k')) as [->|].
    + split; [done | intros [? _]; done].
    + rewrite IH. tauto.
Qed.

Lemma al_set_fst_in (k : K) (v : V) (l : list (K * V)) : k ∈ l.*1 → (al_set k v l).*1 = l.*1.
Proof.
  induction l as [|[k' v'] l IH]; simpl.
  - intros H. by apply elem_of_nil in H.
  - intros H. destruct (decide (k = k')) as [->|]; csimpl; [done|].
    apply elem_of_cons in H as [?|H]; [done|]. by rewrite IH.
Qed.

Lemma al_set_fst_notin (k : K) (v : V) (l : list (K * V)) : k ∉ l.*1 → (al_set k v l).*1 = l.*1 ++ [k].
Proof.
  induction l as [|[k' v'] l IH]; simpl; [done|].
  rewrite not_elem_of_cons. intros [Hne H].
  rewrite decide_False by done. csimpl. by rewrite IH.
Qed.

Lemma al_set_NoDup (k : K) (v : V) (l : list (K * V)) : NoDup l.*1 → NoDup (al_set k v l).*1.
Proof.
  intros Hnd. destruct (decide (k ∈ l.*1)).
  - by rewrite al_set_fst_in.
  - rewrite al_set_fst_notin by done.
    apply NoDup_app. split_and!; [done| |apply NoDup_singleton].
    intros x Hx Hx'. apply list_elem_of_singleton in Hx'. by subst.
Qed.

Lemma al_del_fst_sub (k x : K) (l : list (K * V)) : x ∈ (al_del k l).*1 → x ∈ l.*1.
Proof.
  induction l as [|[k' v'] l IH]; csimpl; [done|].
  destruct (decide (k = k')); csimpl.
  - apply list_elem_of_further.
  - rewrite !elem_of_cons. intros [?|?]; auto.
Qed.

Lemma al_del_NoDup (k : K) (l : list (K * V)) : NoDup l.*1 → NoDup (al_del k l).*1.
Proof.
  induction l as [|[k' v'] l IH]; csimpl; [done|].
  rewrite NoDup_cons. intros [Hk Hnd].
  destruct (decide (k = k')); csimpl; [done|].
  apply NoDup_cons. split; [|auto].
  intros H. by apply al_del_fst_sub in H.
Qed.

Lemma al_get_del_eq (k : K) (l : list (K * V)) : NoDup l.*1 → al_get k (al_del k l) = None.
Proof.
  induction l as [|[k' v'] l IH]; csimpl; [done|].
  rewrite NoDup_cons. intros [Hk Hnd].
  destruct (decide (k = k')) as [->|]; csimpl.
  - by apply al_get_None_fst.
  - rewrite decide_False by done. auto.
Qed.

Lemma al_get_del_ne (k k' : K) (l : list (K * V)) : k ≠ k' → al_get k' (al_del k l) = al_get k' l.
Proof.
  intros Hne. induction l as [|[k0 v0] l IH]; simpl; [done|].
  destruct (decide (k = k0)) as [->|]; simpl.
  - by rewrite decide_False.
  - by rewrite IH.
Qed.

Lemma al_set_notin (k : K) (v : V) (l : list (K * V)) :
  k ∉ l.*1 → al_set k v l = l ++ [(k, v)].
Proof.
  induction l as [|[k' v'] l IH]; csimpl; [done|].
  rewrite not_elem_of_cons. intros [Hne H].
  rewrite decide_False by done. by rewrite IH.
Qed.

Lemma al_get_app (k : K) (l1 l2 : list (K * V)) :
  al_get k (l1 ++ l2) =
  match al_get k l1 with Some v => Some v | None => al_get k l2 end.
Proof.
  induction l1 as [|[k' v'] l1 IH]; simpl; [done|].
  by destruct (decide (k = k')).
Qed.

End alist_facts.

(** ** Objects at a location *)

Global Instance PStr_inj : Inj (=) (=) PStr.
Proof. by intros ?? [= ->]. Qed.

Lemma obj_at_lt h l o : obj_at h l = Some o → l < length h.
Proof.
  unfold obj_at. destruct (h !! l) eqn:E; [|done].
  intros _. by eapply lookup_lt_Some.
Qed.

Lemma obj_at_app_l h h' l : l < length h → obj_at (h ++ h') l = obj_at h l.
Proof. intros Hl. unfold obj_at. by rewrite lookup_app_l. Qed.

Lemma obj_at_snoc h c : obj_at (h ++ [c]) (length h) =
  match c with CObj o => Some o | CSet _ => None end.
Proof.
  unfold obj_at. rewrite lookup_app_r by lia.
  replace (length h - length h) with 0 by lia. by destruct c.
Qed.

Lemma obj_at_insert_ne h l l' c : l ≠ l' → obj_at (<[l:=c]> h) l' = obj_at h l'.
Proof. intros Hne. unfold obj_at. by rewrite list_lookup_insert_ne. Qed.

Lemma obj_at_insert_eq h l o :
  l < length h → obj_at (<[l:=CObj o]> h) l = Some o.
Proof. intros Hl. unfold obj_at. by rewrite list_lookup_insert_eq. Qed.

(** ** Well-formedness: the empty heap has it, allocation and assignment
    keep it *)

Lemma heap_wf_nil : heap_wf [].
Proof. intros l o. unfold obj_at. by rewrite lookup_nil. Qed.

Lemma heap_wf_snoc h c :
  heap_wf h →
  (∀ o, c = CObj o → obj_wf (length h) o) →
  heap_wf (h ++ [c]).
Proof.
  intros Hwf Hc l o Hl.
  destruct (decide (l < length h)) as [Hlt|Hge].
  - rewrite obj_at_app_l in Hl by done. by apply Hwf.
  - pose proof (obj_at_lt _ _ _ Hl) as Hlen.
    rewrite length_app in Hlen. simpl in Hlen.
    assert (l = length h) as -> by lia.
    rewrite obj_at_snoc in Hl. destruct c; [|done].
    injection Hl as ->. by apply Hc.
Qed.

Lemma heap_wf_insert h l o :
  heap_wf h → obj_wf l o → heap_wf (<[l:=CObj o]> h).
Proof.
  intros Hwf Ho l' o' Hl'.
  destruct (decide (l = l')) as [<-|Hne].
  - destruct (decide (l < length h)).
    + rewrite obj_at_insert_eq in Hl' by done. by injection Hl' as <-.
    + rewrite list_insert_ge in Hl' by lia. by apply Hwf.
  - rewrite obj_at_insert_ne in Hl' by done. by apply Hwf.
Qed.

Lemma heap_wf_put h l k v : heap_wf h → heap_wf (put h l k v).
Proof.
  intros Hwf. unfold put. destruct (obj_at h l) as [o|] eqn:E; [|done].
  apply heap_wf_insert; [done|].
  destruct (Hwf _ _ E) as [Hnd Hp]. split; [|done].
  by apply al_set_NoDup.
Qed.

Lemma heap_wf_remove h l k : heap_wf h → heap_wf (remove h l k).
Proof.
  intros Hwf. unfold remove. destruct (obj_at h l) as [o|] eqn:E; [|done].
  apply heap_wf_insert; [done|].
  destruct (Hwf _ _ E) as [Hnd Hp]. split; [|done].
  by apply al_del_NoDup.
Qed.

(** ** Assignment touches one cell *)

Lemma put_length h l k v : length (put h l k v) = length h.
Proof. unfold put. destruct (obj_at h l); [|done]. by rewrite length_insert. Qed.

Lemma remove_length h l k : length (remove h l k) = length h.
Proof. unfold remove. destruct (obj_at h l); [|done]. by rewrite length_insert. Qed.

Lemma put_lookup_ne h l l' k v : l ≠ l' → put h l k v !! l' = h !! l'.
Proof.
  intros Hne. unfold put. destruct (obj_at h l); [|done].
  by rewrite list_lookup_insert_ne.
Qed.

Lemma remove_lookup_ne h l l' k : l ≠ l' → remove h l k !! l' = h !! l'.
Proof.
  intros Hne. unfold remove. destruct (obj_at h l); [|done].
  by rewrite list_lookup_insert_ne.
Qed.

Lemma obj_at_put_eq h l k v o :
  obj_at h l = Some o →
  obj_at (put h l k v) l = Some {| props := al_set k v (props o); proto := proto o |}.
Proof.
  intros E. unfold put. rewrite E.
  apply obj_at_insert_eq. by eapply obj_at_lt.
Qed.

Lemma obj_at_put_ne h l l' k v : l ≠ l' → obj_at (put h l k v) l' = obj_at h l'.
Proof. intros Hne. unfold obj_at. by rewrite put_lookup_ne. Qed.

Lemma put_snoc h o k v :
  put (h ++ [CObj o]) (length h) k v =
  h ++ [CObj {| props := al_set k v (props o); proto := proto o |}].
Proof.
  unfold put. rewrite obj_at_snoc.
  replace (length h) with (length h + 0) at 1 by lia.
  by rewrite insert_app_r.
Qed.

Lemma put_app_l h h' l k v :
  l < length h → put (h ++ h') l k v = put h l k v ++ h'.
Proof.
  intros Hl. unfold put. rewrite obj_at_app_l by done.
  destruct (obj_at h l); [|done]. by rewrite insert_app_l.
Qed.

(** ** Lookups only see the chain below the receiver *)

Lemma agree_on_same k h h' x : obj_at h x = obj_at h' x → agree_on k h h' x.
Proof. unfold agree_on. intros ->. by destruct (obj_at h' x). Qed.

Lemma agree_keys_same h h' x : obj_at h x = obj_at h' x → agree_keys h h' x.
Proof. unfold agree_keys. intros ->. by destruct (obj_at h' x). Qed.

Lemma lookup_fuel_agree k h h' :
  heap_wf h → ∀ (n : nat) (l : loc),
  (∀ x, x ≤ l → agree_on k h h' x) →
  lookup_fuel n h l k = lookup_fuel n h' l k.
Proof.
  intros Hwf n. induction n as [|n IH]; intros l Hag; [done|].
  simpl. specialize (Hag l (Nat.le_refl l)) as Hl. unfold agree_on in Hl.
  destruct (obj_at h l) as [o|] eqn:E, (obj_at h' l) as [o'|] eqn:E'; try done.
  destruct Hl as [Hp Hk]. rewrite <- Hk, <- Hp.
  destruct (al_get k (props o)); [done|].
  destruct (proto o) as [p|] eqn:Ep; [|done].
  apply IH. intros x Hx. apply Hag.
  destruct (Hwf _ _ E) as [_ Hlt]. specialize (Hlt _ Ep). lia.
Qed.

Lemma forin_fuel_agree h h' :
  heap_wf h → ∀ (n : nat) (l : loc),
  (∀ x, x ≤ l → agree_keys h h' x) →
  forin_fuel n h l = forin_fuel n h' l.
Proof.
  intros Hwf n. induction n as [|n IH]; intros l Hag; [done|].
  simpl. specialize (Hag l (Nat.le_refl l)) as Hl. unfold agree_keys in Hl.
  destruct (obj_at h l) as [o|] eqn:E, (obj_at h' l) as [o'|] eqn:E'; try done.
  destruct Hl as [Hp Hk]. rewrite <- Hk, <- Hp.
  destruct (proto o) as [p|] eqn:Ep; [|done].
  f_equal. f_equal. apply IH. intros x Hx. apply Hag.
  destruct (Hwf _ _ E) as [_ Hlt]. specialize (Hlt _ Ep). lia.
Qed.

(** More fuel than [S l] changes nothing: [lookup_chain] and [forin_keys]
    never run out. *)
Lemma lookup_fuel_enough k h :
  heap_wf h → ∀ (n m : nat) (l : loc), l < n → l < m →
  lookup_fuel n h l k = lookup_fuel m h l k.
Proof.
  intros Hwf n. induction n as [|n IH]; intros m l Hn Hm; [lia|].
  destruct m as [|m]; [lia|]. simpl.
  destruct (obj_at h l) as [o|] eqn:E; [|done].
  destruct (al_get k (props o)); [done|].
  destruct (proto o) as [p|] eqn:Ep; [|done].
  destruct (Hwf _ _ E) as [_ Hlt]. specialize (Hlt _ Ep).
  apply IH; lia.
Qed.

Lemma forin_fuel_enough h :
  heap_wf h → ∀ (n m : nat) (l : loc), l < n → l < m →
  forin_fuel n h l = forin_fuel m h l.
Proof.
  intros Hwf n. induction n as [|n IH]; intros m l Hn Hm; [lia|].
  destruct m as [|m]; [lia|]. simpl.
  destruct (obj_at h l) as [o|] eqn:E; [|done].
  destruct (proto o) as [p|] eqn:Ep; [|done].
  destruct (Hwf _ _ E) as [_ Hlt]. specialize (Hlt _ Ep).
  f_equal. f_equal. apply IH; lia.
Qed.

(** The recursive equations of lookup and enumeration. *)
Lemma lookup_chain_unfold h l k :
  heap_wf h →
  lookup_chain h l k =
  match obj_at h l with
  | Some o =>
      match al_get k (props o) with
      | Some v => Some v
      | None => match proto o with
                | Some p => lookup_chain h p k
                | None => None
                end
      end
  | None => None
  end.
Proof.
  intros Hwf. unfold lookup_chain at 1. simpl.
  destruct (obj_at h l) as [o|] eqn:E; [|done].
  destruct (al_get k (props o)); [done|].
  destruct (proto o) as [p|] eqn:Ep; [|done].
  destruct (Hwf _ _ E) as [_ Hlt]. specialize (Hlt _ Ep).
  apply lookup_fuel_enough; [done|lia..].
Qed.

Lemma forin_keys_unfold h l :
  heap_wf h →
  forin_keys h l =
  match obj_at h l with
  | Some o =>
      own_keys o ++
      match proto o with
      | Some p => filter (λ k, k ∉ own_keys o) (forin_keys h p)
      | None => []
      end
  | None => []
  end.
Proof.
  intros Hwf. unfold forin_keys at 1. simpl.
  destruct (obj_at h l) as [o|] eqn:E; [|done].
  destruct (proto o) as [p|] eqn:Ep; [|done].
  destruct (Hwf _ _ E) as [_ Hlt]. specialize (Hlt _ Ep).
  f_equal. f_equal. apply forin_fuel_enough; [done|lia..].
Qed.

Lemma lookup_chain_agree k h h' l :
  heap_wf h → (∀ x, x ≤ l → agree_on k h h' x) →
  lookup_chain h l k = lookup_chain h' l k.
Proof. intros. by apply lookup_fuel_agree. Qed.

Lemma get_agree k h h' l :
  heap_wf h → (∀ x, x ≤ l → agree_on k h h' x) → get h l k = get h' l k.
Proof. intros. unfold get. by rewrite (lookup_chain_agree k h h'). Qed.

Lemma forin_keys_agree h h' l :
  heap_wf h → (∀ x, x ≤ l → agree_keys h h' x) →
  forin_keys h l = forin_keys h' l.
Proof. intros. by apply forin_fuel_agree. Qed.

(** Cells allocated or changed above [l] are invisible from [l]. *)
Lemma get_below k h h' l :
  heap_wf h → (∀ x, x ≤ l → h !! x = h' !! x) → get h l k = get h' l k.
Proof.
  intros Hwf Hsame. apply get_agree; [done|].
  intros x Hx. apply agree_on_same. unfold obj_at. by rewrite Hsame.
Qed.

Lemma forin_keys_below h h' l :
  heap_wf h → (∀ x, x ≤ l → h !! x = h' !! x) →
  forin_keys h l = forin_keys h' l.
Proof.
  intros Hwf Hsame. apply forin_keys_agree; [done|].
  intros x Hx. apply agree_keys_same. unfold obj_at. by rewrite Hsame.
Qed.

Lemma get_app_l k h h' l :
  heap_wf h → l < length h → get (h ++ h') l k = get h l k.
Proof.
  intros Hwf Hl. symmetry. apply get_below; [done|].
  intros x Hx. by rewrite lookup_app_l by lia.
Qed.

Lemma forin_keys_app_l h h' l :
  heap_wf h → l < length h → forin_keys (h ++ h') l = forin_keys h l.
Proof.
  intros Hwf Hl. symmetry. apply forin_keys_below; [done|].
  intros x Hx. by rewrite lookup_app_l by lia.
Qed.

(** ** [overlay] and [trace] in closed form *)

Lemma overlay_eq h src :
  is_node h src →
  overlay src h = (put h src (PSym BURIED) (VNum 1) ++ [overlay_cell src], length h).
Proof.
  intros [o Ho]. pose proof (obj_at_lt _ _ _ Ho) as Hlt.
  unfold overlay, object_create, alloc.
  rewrite put_app_l by done.
  rewrite <- (put_length h src (PSym BURIED) (VNum 1)).
  by rewrite put_snoc.
Qed.

Lemma heap_wf_overlay h src :
  heap_wf h → is_node h src → heap_wf (overlay src h).1.
Proof.
  intros Hwf Hn. rewrite overlay_eq by done. simpl.
  apply heap_wf_snoc; [by apply heap_wf_put|].
  intros o [= <-]. split; simpl.
  - apply NoDup_singleton.
  - intros p [= <-]. rewrite put_length. destruct Hn as [o Ho].
    by eapply obj_at_lt.
Qed.

(** Enumerated keys are pairwise distinct. *)
Lemma own_keys_NoDup o : NoDup (props o).*1 → NoDup (own_keys o).
Proof.
  unfold own_keys. induction (props o) as [|[k v] ps IH]; csimpl.
  - intros _. apply NoDup_nil_2.
  - rewrite NoDup_cons. intros [Hk Hnd]. unfold str_key at 1. simpl.
    destruct k as [s|y]; [|auto].
    apply NoDup_cons. split; [|auto].
    rewrite list_elem_of_omap. intros [[k' v'] [Hin Hs]].
    unfold str_key in Hs. simpl in Hs. destruct k'; [|done].
    injection Hs as ->. apply Hk.
    apply list_elem_of_fmap. by exists (PStr s, v').
Qed.

Lemma forin_fuel_NoDup h : heap_wf h → ∀ (n : nat) (l : loc), NoDup (forin_fuel n h l).
Proof.
  intros Hwf n. induction n as [|n IH]; intros l; simpl; [apply NoDup_nil_2|].
  destruct (obj_at h l) as [o|] eqn:E; [|apply NoDup_nil_2].
  destruct (Hwf _ _ E) as [Hnd _].
  apply NoDup_app. split_and!.
  - by apply own_keys_NoDup.
  - intros x Hx. destruct (proto o); [|apply not_elem_of_nil].
    rewrite list_elem_of_filter. tauto.
  - destruct (proto o); [|apply NoDup_nil_2]. apply NoDup_filter, IH.
Qed.

Lemma forin_keys_NoDup h l : heap_wf h → NoDup (forin_keys h l).
Proof. intros. by apply forin_fuel_NoDup. Qed.

Lemma own_keys_elem o (k : string) : k ∈ own_keys o ↔ PStr k ∈ (props o).*1.
Proof.
  unfold own_keys. rewrite list_elem_of_omap, list_elem_of_fmap. split.
  - intros [[k' v] [Hin Hs]]. unfold str_key in Hs. simpl in Hs.
    destruct k'; [|done]. injection Hs as ->. by exists (PStr k, v).
  - intros [[k' v] [Heq Hin]]. simpl in Heq. subst k'. by exists (PStr k, v).
Qed.

(** A key is enumerated exactly when the lookup finds a property. *)
Lemma forin_keys_lookup h :
  heap_wf h → ∀ (n : nat) (l : loc) (k : string),
  k ∈ forin_fuel n h l ↔ is_Some (lookup_fuel n h l (PStr k)).
Proof.
  intros Hwf n. induction n as [|n IH]; intros l k; simpl.
  - split; [by intros ?%elem_of_nil | by intros [? ?]].
  - destruct (obj_at h l) as [o|] eqn:E;
      [|split; [by intros ?%elem_of_nil | by intros [? ?]]].
    rewrite elem_of_app.
    destruct (al_get (PStr k) (props o)) as [v|] eqn:Eg.
    + split; [by eauto|]. intros _. left.
      apply own_keys_elem. by eapply al_get_Some_fst.
    + apply al_get_None_fst in Eg. rewrite <- own_keys_elem in Eg.
      destruct (proto o) as [p|].
      * rewrite list_elem_of_filter, IH. tauto.
      * split; [|by intros [? ?]].
        intros [?|?%elem_of_nil]; done.
Qed.

Lemma forin_keys_is_Some h l (k : string) :
  heap_wf h → k ∈ forin_keys h l ↔ is_Some (lookup_chain h l (PStr k)).
Proof. intros. by apply forin_keys_lookup. Qed.

(** The loop of [trace] appends the enumerated keys, one by one, with the
    values the overlay presents for them. *)
Lemma trace_loop h n (ks : list string) ps :
  heap_wf h → n < length h → NoDup ks →
  (∀ k, k ∈ ks → PStr k ∉ ps.*1) →
  foldl (trace_copy n (length h)) (h ++ [CObj {| props := ps; proto := None |}]) ks =
  h ++ [CObj {| props := ps ++ ((λ k, (PStr k, get h n (PStr k))) <$> ks);
                proto := None |}].
Proof.
  intros Hwf Hn. revert ps. induction ks as [|k ks IH]; intros ps Hnd Hps.
  - simpl. by rewrite app_nil_r.
  - apply NoDup_cons in Hnd as [Hk Hnd]. simpl.
    unfold trace_copy at 2. rewrite put_snoc, get_app_l by done. simpl.
    rewrite al_set_notin by (apply Hps; left).
    rewrite IH; [by rewrite <- app_assoc|done|].
    intros k' Hk'. rewrite fmap_app, elem_of_app. intros [Hin|Hin].
    + by apply (Hps k'); [right|].
    + simpl in Hin. apply list_elem_of_singleton in Hin.
      injection Hin as ->. done.
Qed.

Lemma trace_eq h n :
  heap_wf h → n < length h →
  trace n h = (h ++ [traced_cell h n], length h).
Proof.
  intros Hwf Hn. unfold trace, alloc, empty_object.
  rewrite forin_keys_app_l by done.
  rewrite (trace_loop h n _ []); [|done|done|by apply forin_keys_NoDup|];
    last by (intros; apply not_elem_of_nil).
  simpl. rewrite put_snoc, get_app_l by done. simpl.
  rewrite put_snoc, get_app_l by done. simpl.
  unfold traced_cell, traced_props. do 3 f_equal.
  set (kvs := (λ k, (PStr k, get h n (PStr k))) <$> forin_keys h n).
  assert (Hsym : ∀ y, PSym y ∉ kvs.*1).
  { intros y. unfold kvs. rewrite <- list_fmap_compose.
    rewrite list_elem_of_fmap. by intros [? [? _]]. }
  rewrite (al_set_notin (PSym KEYS)) by apply Hsym.
  rewrite al_set_notin; [by rewrite <- app_assoc|].
  rewrite fmap_app, elem_of_app. intros [?|Hin]; [by eapply Hsym|].
  simpl in Hin. by apply list_elem_of_singleton in Hin.
Qed.

(** ** Reading the object [trace] builds *)

Lemma al_get_fmap_str (f : string → value) (ks : list string) (k : string) :
  al_get (PStr k) ((λ k, (PStr k, f k)) <$> ks) =
  if decide (k ∈ ks) then Some (f k) else None.
Proof.
  induction ks as [|k' ks IH]; csimpl.
  - destruct (decide (k ∈ [])) as [Hin|]; [by apply elem_of_nil in Hin|done].
  - destruct (decide (PStr k = PStr k')) as [[= ->]|Hne].
    + destruct (decide (k' ∈ k' :: ks)) as [|Hnin]; [done|].
      exfalso. apply Hnin. left.
    + rewrite IH. destruct (decide (k ∈ ks)) as [Hin|Hin];
        destruct (decide (k ∈ k' :: ks)) as [Hin'|Hin']; try done.
      * exfalso. apply Hin'. by right.
      * apply elem_of_cons in Hin' as [->|?]; done.
Qed.

Lemma al_get_fmap_sym (f : string → value) (ks : list string) (y : symbol) :
  al_get (PSym y) ((λ k, (PStr k, f k)) <$> ks) = None.
Proof. induction ks as [|k' ks IH]; csimpl; done. Qed.

Lemma own_keys_traced h l :
  own_keys {| props := traced_props h l; proto := None |} = forin_keys h l.
Proof.
  unfold own_keys, traced_props. simpl. rewrite omap_app. simpl.
  rewrite app_nil_r. induction (forin_keys h l) as [|k ks IH]; csimpl; [done|].
  by rewrite IH.
Qed.

Lemma traced_get_str h l (k : string) :
  heap_wf h →
  al_get (PStr k) (traced_props h l) =
  if decide (k ∈ forin_keys h l) then Some (get h l (PStr k)) else None.
Proof.
  intros Hwf. unfold traced_props. rewrite al_get_app, al_get_fmap_str.
  by destruct (decide (k ∈ forin_keys h l)).
Qed.

Lemma traced_get_sym h l (y : symbol) :
  al_get (PSym y) (traced_props h l) =
  match y with
  | KEYS | QUADS => Some (get h l (PSym y))
  | _ => None
  end.
Proof.
  unfold traced_props. rewrite al_get_app, al_get_fmap_sym. simpl.
  by destruct y.
Qed.

Lemma get_not_enumerated h l (k : string) :
  heap_wf h → k ∉ forin_keys h l → get h l (PStr k) = VUndef.
Proof.
  intros Hwf Hk. rewrite forin_keys_is_Some in Hk by done.
  unfold get. destruct (lookup_chain h l (PStr k)); [|done].
  exfalso. eauto.
Qed.

(** Lookup on an object at the end of the heap that has no prototype. *)
Lemma get_snoc_flat h ps k :
  get (h ++ [CObj {| props := ps; proto := None |}]) (length h) k =
  default VUndef (al_get k ps).
Proof.
  unfold get, lookup_chain. simpl. rewrite obj_at_snoc. simpl.
  by destruct (al_get k ps).
Qed.

Lemma forin_keys_snoc_flat h ps :
  forin_keys (h ++ [CObj {| props := ps; proto := None |}]) (length h) =
  own_keys {| props := ps; proto := None |}.
Proof.
  unfold forin_keys. simpl. rewrite obj_at_snoc. simpl. by rewrite app_nil_r.
Qed.

Lemma own_get_snoc h o k :
  own_get (h ++ [CObj o]) (length h) k = al_get k (props o).
Proof. unfold own_get. by rewrite obj_at_snoc. Qed.

(** ** Running the well-formedness check *)

Lemma heap_wfb_from_sound b (h : heap) :
  heap_wfb_from b h = true →
  ∀ l o, obj_at h l = Some o → obj_wf (b + l) o.
Proof.
  revert b. induction h as [|c h IH]; intros b Hb l o Hl.
  - unfold obj_at in Hl. by rewrite lookup_nil in Hl.
  - simpl in Hb. apply andb_prop in Hb as [Hc Hh].
    destruct l as [|l].
    + unfold obj_at in Hl. simpl in Hl. destruct c as [o'|]; [|done].
      injection Hl as ->. simpl in Hc. apply andb_prop in Hc as [Hnd Hp].
      split; [by apply bool_decide_eq_true in Hnd|].
      intros p Ep. rewrite Ep in Hp. simpl in Hp.
      apply bool_decide_eq_true in Hp. lia.
    + replace (b + S l) with (S b + l) by lia. by apply IH.
Qed.

Lemma heap_wfb_sound (h : heap) : heap_wfb h = true → heap_wf h.
Proof. intros Hb l o Hl. by apply (heap_wfb_from_sound 0 h). Qed.

Lemma heap_wf_overlayTree n_keys n_quads h :
  heap_wf h → heap_wf (overlayTree n_keys n_quads h).1.
Proof.
  intros Hwf. unfold overlayTree, alloc. simpl. apply heap_wf_snoc; [done|].
  intros o [= <-]. split; simpl; [|done].
  apply NoDup_cons. split; [|apply NoDup_singleton].
  by intros ?%list_elem_of_singleton.
Qed.

Lemma traced_props_keys h l :
  (traced_props h l).*1 = (PStr <$> forin_keys h l) ++ [PSym KEYS; PSym QUADS].
Proof.
  unfold traced_props. rewrite fmap_app. f_equal.
  by rewrite <- list_fmap_compose.
Qed.

Lemma heap_wf_trace h n :
  heap_wf h → n < length h → heap_wf (trace n h).1.
Proof.
  intros Hwf Hn. rewrite trace_eq by done. simpl.
  apply heap_wf_snoc; [done|]. intros o [= <-]. split; simpl; [|done].
  rewrite traced_props_keys. apply NoDup_app. split_and!.
  - apply NoDup_fmap_2; [apply _|]. by apply forin_keys_NoDup.
  - intros x (k & -> & _)%list_elem_of_fmap.
    rewrite !elem_of_cons. intros [?|[?|?%elem_of_nil]]; done.
  - apply NoDup_cons. split; [|apply NoDup_singleton].
    by intros ?%list_elem_of_singleton.
Qed.

(** ** Sequences of own-key mutations *)

Lemma apply_op_length d h op : length (apply_op d h op) = length h.
Proof. destruct op; simpl; [apply put_length | apply remove_length]. Qed.

Lemma apply_op_lookup_ne d h op l : d ≠ l → apply_op d h op !! l = h !! l.
Proof.
  intros Hne. destruct op; simpl;
    [by apply put_lookup_ne | by apply remove_lookup_ne].
Qed.

Lemma heap_wf_apply_op d h op : heap_wf h → heap_wf (apply_op d h op).
Proof. destruct op; simpl; [apply heap_wf_put | apply heap_wf_remove]. Qed.

Lemma apply_op_proto d h op o :
  obj_at h d = Some o →
  ∃ o', obj_at (apply_op d h op) d = Some o' ∧ proto o' = proto o.
Proof.
  intros Ho. pose proof (obj_at_lt _ _ _ Ho) as Hlt.
  destruct op; simpl.
  - rewrite (obj_at_put_eq _ _ _ _ _ Ho). eauto.
  - unfold remove. rewrite Ho, obj_at_insert_eq by done. eauto.
Qed.

Lemma apply_ops_lookup_ne d ops : ∀ (h : heap) (l : loc),
  d ≠ l → apply_ops d h ops !! l = h !! l.
Proof.
  unfold apply_ops. induction ops as [|op ops IH]; intros h l Hne; simpl; [done|].
  rewrite IH by done. by apply apply_op_lookup_ne.
Qed.

Lemma heap_wf_apply_ops d ops : ∀ h : heap, heap_wf h → heap_wf (apply_ops d h ops).
Proof.
  unfold apply_ops. induction ops as [|op ops IH]; intros h Hwf; simpl; [done|].
  by apply IH, heap_wf_apply_op.
Qed.

Lemma apply_ops_proto d ops : ∀ (h : heap) o,
  obj_at h d = Some o →
  ∃ o', obj_at (apply_ops d h ops) d = Some o' ∧ proto o' = proto o.
Proof.
  unfold apply_ops. induction ops as [|op ops IH]; intros h o Ho; simpl; [eauto|].
  destruct (apply_op_proto d h op o Ho) as (o1 & Ho1 & Hp1).
  destruct (IH _ _ Ho1) as (o2 & Ho2 & Hp2).
  exists o2. split; [done|congruence].
Qed.

Lemma apply_ops_snoc d h ops op :
  apply_ops d h (ops ++ [op]) = apply_op d (apply_ops d h ops) op.
Proof. unfold apply_ops. by rewrite foldl_app. Qed.

(** ** What a lookup on a delegating object returns *)

Lemma get_delegate h d o k :
  heap_wf h → obj_at h d = Some o →
  get h d k =
  match al_get k (props o) with
  | Some v => v
  | None => from_option (λ p, get h p k) VUndef (proto o)
  end.
Proof.
  intros Hwf Ho. unfold get at 1. rewrite lookup_chain_unfold, Ho by done.
  destruct (al_get k (props o)); [done|]. by destruct (proto o).
Qed.

Lemma own_keys_set_sym (ps : list (pkey * value)) y v :
  omap str_key (al_set (PSym y) v ps) = omap str_key ps.
Proof.
  induction ps as [|[k' v'] ps IH]; csimpl; [done|].
  destruct (decide (PSym y = k')) as [<-|Hne]; csimpl; [done|].
  by rewrite IH.
Qed.

(** ** The heap after [overlay] *)

Lemma overlay_src_cell h src o :
  obj_at h src = Some o →
  obj_at (overlay src h).1 src =
  Some {| props := al_set (PSym BURIED) (VNum 1) (props o); proto := proto o |}.
Proof.
  intros Ho. pose proof (obj_at_lt _ _ _ Ho) as Hlt.
  rewrite overlay_eq by (by eexists). simpl.
  rewrite obj_at_app_l by (by rewrite put_length).
  by apply obj_at_put_eq.
Qed.

Lemma overlay_dst_cell h src :
  is_node h src →
  obj_at (overlay src h).1 (length h) =
  Some {| props := [(PSym OVERLAY, VNum 1)]; proto := Some src |}.
Proof.
  intros Hn. rewrite overlay_eq by done. simpl.
  rewrite <- (put_length h src (PSym BURIED) (VNum 1)). by rewrite obj_at_snoc.
Qed.

Lemma overlay_lookup_other h src l :
  is_node h src → l < length h → l ≠ src →
  (overlay src h).1 !! l = h !! l.
Proof.
  intros Hn Hl Hne. rewrite overlay_eq by done. simpl.
  rewrite lookup_app_l by (by rewrite put_length).
  by apply put_lookup_ne.
Qed.

(** Burying the source changes no lookup on it other than the marker. *)
Lemma overlay_get_src h src k :
  heap_wf h → is_node h src → k ≠ PSym BURIED →
  get (overlay src h).1 src k = get h src k.
Proof.
  intros Hwf [o Ho] Hk. symmetry. apply get_agree; [done|].
  intros x Hx. pose proof (obj_at_lt _ _ _ Ho) as Hlt.
  destruct (decide (x = src)) as [->|Hne].
  - unfold agree_on. rewrite (overlay_src_cell _ _ _ Ho), Ho. simpl.
    split; [done|]. by rewrite al_get_set_ne.
  - apply agree_on_same. unfold obj_at.
    rewrite overlay_lookup_other; [done | by eexists | lia | done].
Qed.

Lemma overlay_forin_src h src :
  heap_wf h → is_node h src →
  forin_keys (overlay src h).1 src = forin_keys h src.
Proof.
  intros Hwf [o Ho]. symmetry. apply forin_keys_agree; [done|].
  intros x Hx. pose proof (obj_at_lt _ _ _ Ho) as Hlt.
  destruct (decide (x = src)) as [->|Hne].
  - unfold agree_keys. rewrite (overlay_src_cell _ _ _ Ho), Ho. simpl.
    split; [done|]. unfold own_keys. simpl.
    symmetry. apply own_keys_set_sym.
  - apply agree_keys_same. unfold obj_at.
    rewrite overlay_lookup_other; [done | by eexists | lia | done].
Qed.

(** ** [trace]: the materialized node *)

(** C1.  For every node [n] (in particular every overlay node), the node
    [trace] returns owns exactly the keys that enumeration of [n] visits
    (own keys, then the unshadowed keys of the delegation chain), each with
    the value the lookup on [n] gives; its key count and quad count are the
    counters read on [n]; so enumeration, lookups and counters on the new
    node coincide with the view [n] presented before the call. *)
Theorem trace_materializes_effective_view (h : heap) (n : loc) (h' : heap) (d : loc) :
  heap_wf h → is_node h n →
  trace n h = (h', d) →
  (∃ o, obj_at h' d = Some o ∧ own_keys o = forin_keys h n) ∧
  (∀ k : string, k ∈ forin_keys h n →
     own_get h' d (PStr k) = Some (get h n (PStr k))) ∧
  own_get h' d (PSym KEYS) = Some (get h n (PSym KEYS)) ∧
  own_get h' d (PSym QUADS) = Some (get h n (PSym QUADS)) ∧
  forin_keys h' d = forin_keys h n ∧
  (∀ k : string, get h' d (PStr k) = get h n (PStr k)) ∧
  get h' d (PSym KEYS) = get h n (PSym KEYS) ∧
  get h' d (PSym QUADS) = get h n (PSym QUADS).
Proof.
  intros Hwf [o Ho] Ht. pose proof (obj_at_lt _ _ _ Ho) as Hlt.
  rewrite trace_eq in Ht by done. injection Ht as <- <-.
  unfold traced_cell. split_and!.
  - eexists. split; [by rewrite obj_at_snoc|]. apply own_keys_traced.
  - intros k Hk. rewrite own_get_snoc. simpl.
    by rewrite traced_get_str, decide_True.
  - rewrite own_get_snoc. simpl. by rewrite traced_get_sym.
  - rewrite own_get_snoc. simpl. by rewrite traced_get_sym.
  - rewrite forin_keys_snoc_flat. apply own_keys_traced.
  - intros k. rewrite get_snoc_flat, traced_get_str by done.
    destruct (decide (k ∈ forin_keys h n)) as [|Hk]; [done|].
    simpl. symmetry. by apply get_not_enumerated.
  - by rewrite get_snoc_flat, traced_get_sym.
  - by rewrite get_snoc_flat, traced_get_sym.
Qed.

Lemma trace_materializes_effective_view_witness :
  heap_wf sample_overlaid ∧ is_node sample_overlaid sample_overlay ∧
  forin_keys sample_overlaid sample_overlay = ["g"; "*"] ∧
  get (trace sample_overlay sample_overlaid).1 6 (PStr "*") = VRef 2 ∧
  get (trace sample_overlay sample_overlaid).1 6 (PSym KEYS) = VNum 2.
Proof.
  pose proof (trace_materializes_effective_view sample_overlaid sample_overlay
                (trace sample_overlay sample_overlaid).1 6) as H.
  assert (Hwf : heap_wf sample_overlaid) by (apply heap_wfb_sound; reflexivity).
  assert (Hn : is_node sample_overlaid sample_overlay) by (vm_compute; eauto).
  destruct (H Hwf Hn eq_refl) as (_ & _ & _ & _ & _ & Hget & Hkeys & _).
  split_and!; [done | done | reflexivity | |].
  - rewrite Hget. reflexivity.
  - rewrite Hkeys. reflexivity.
Defined.

(** C7.  For every node [n], marked or not, [trace] returns a node that was
    not in the heap before, that carries neither the overlay marker nor the
    buried marker (own or inherited), and the call changes no existing cell
    of the heap: [n] keeps its keys, counters and markers. *)
Theorem trace_fresh_unmarked (h : heap) (n : loc) (h' : heap) (d : loc) :
  heap_wf h → is_node h n →
  trace n h = (h', d) →
  h !! d = None ∧ is_node h' d ∧
  own_get h' d (PSym OVERLAY) = None ∧
  own_get h' d (PSym BURIED) = None ∧
  get h' d (PSym OVERLAY) = VUndef ∧
  get h' d (PSym BURIED) = VUndef ∧
  preserved h h' ∧
  h' !! n = h !! n.
Proof.
  intros Hwf [o Ho] Ht. pose proof (obj_at_lt _ _ _ Ho) as Hlt.
  rewrite trace_eq in Ht by done. injection Ht as <- <-.
  unfold traced_cell. split_and!.
  - apply lookup_ge_None. lia.
  - unfold is_node. by rewrite obj_at_snoc.
  - rewrite own_get_snoc. simpl. by rewrite traced_get_sym.
  - rewrite own_get_snoc. simpl. by rewrite traced_get_sym.
  - by rewrite get_snoc_flat, traced_get_sym.
  - by rewrite get_snoc_flat, traced_get_sym.
  - intros l c Hl. rewrite lookup_app_l; [done|]. by eapply lookup_lt_Some.
  - by rewrite lookup_app_l.
Qed.

Lemma trace_fresh_unmarked_witness :
  heap_wf sample_overlaid ∧ is_node sample_overlaid sample_root ∧
  own_get sample_overlaid sample_root (PSym BURIED) = Some (VNum 1) ∧
  get (trace sample_root sample_overlaid).1 6 (PSym BURIED) = VUndef ∧
  (trace sample_root sample_overlaid).1 !! sample_root = sample_overlaid !! sample_root.
Proof.
  pose proof (trace_fresh_unmarked sample_overlaid sample_root
                (trace sample_root sample_overlaid).1 6) as H.
  assert (Hwf : heap_wf sample_overlaid) by (apply heap_wfb_sound; reflexivity).
  assert (Hn : is_node sample_overlaid sample_root) by (vm_compute; eauto).
  destruct (H Hwf Hn eq_refl) as (_ & _ & _ & _ & _ & Hb & _ & Hsame).
  split_and!; [done | done | reflexivity | done | done].
Defined.

(** ** [overlay]: delegation, shadowing and the frame *)

(** C2.  For every node [src], [overlay] buries [src] and returns a node [d]
    that owns no string key and answers every string-key lookup as [src]
    does (through the whole chain of [src]); after any later mutations of
    the own properties of [d], a key [d] owns is answered by [d] itself, a
    key it does not own is still answered by [src], and a key just set on
    [d] reads back the value set. *)
Theorem overlay_delegates_to_source (h : heap) (src : loc) (h' : heap) (d : loc) :
  heap_wf h → is_node h src →
  overlay src h = (h', d) →
  own_get h' src (PSym BURIED) = Some (VNum 1) ∧
  (∀ k : string,
     own_get h' d (PStr k) = None ∧
     get h' d (PStr k) = get h' src (PStr k) ∧
     get h' src (PStr k) = get h src (PStr k)) ∧
  (∀ (ops : list own_op) (k : pkey),
     get (apply_ops d h' ops) d k =
     match own_get (apply_ops d h' ops) d k with
     | Some v => v
     | None => get (apply_ops d h' ops) src k
     end) ∧
  (∀ (ops : list own_op) (k : pkey) (v : value),
     get (apply_ops d h' (ops ++ [OpSet k v])) d k = v).
Proof.
  intros Hwf Hn Ho. pose proof Hn as [o Hsrc].
  pose proof (obj_at_lt _ _ _ Hsrc) as Hlt.
  assert (Hh' : h' = (overlay src h).1) by (by rewrite Ho).
  assert (Hdl : d = length h).
  { rewrite overlay_eq in Ho by done. by injection Ho as _ <-. }
  assert (Hwf' : heap_wf h') by (rewrite Hh'; by apply heap_wf_overlay).
  assert (Hd : obj_at h' d =
               Some {| props := [(PSym OVERLAY, VNum 1)]; proto := Some src |}).
  { rewrite Hh', Hdl. by apply overlay_dst_cell. }
  assert (Hdeleg : ∀ (ops : list own_op) (k : pkey),
     get (apply_ops d h' ops) d k =
     match own_get (apply_ops d h' ops) d k with
     | Some v => v
     | None => get (apply_ops d h' ops) src k
     end).
  { intros ops k.
    destruct (apply_ops_proto d ops h' _ Hd) as (o' & Ho' & Hp'). simpl in Hp'.
    rewrite (get_delegate _ _ _ _ (heap_wf_apply_ops d ops h' Hwf') Ho').
    unfold own_get. rewrite Ho'. simpl. by rewrite Hp'. }
  split_and!.
  - unfold own_get. rewrite Hh', (overlay_src_cell _ _ _ Hsrc). simpl.
    apply al_get_set_eq.
  - intros k. split_and!.
    + unfold own_get. by rewrite Hd.
    + rewrite (get_delegate _ _ _ _ Hwf' Hd). done.
    + rewrite Hh'. by apply overlay_get_src.
  - done.
  - intros ops k v. rewrite Hdeleg. rewrite apply_ops_snoc. simpl.
    destruct (apply_ops_proto d ops h' _ Hd) as (o' & Ho' & _).
    unfold own_get. rewrite (obj_at_put_eq _ _ _ _ _ Ho'). simpl.
    by rewrite al_get_set_eq.
Qed.

Lemma overlay_delegates_to_source_witness :
  heap_wf sample_heap ∧ is_node sample_heap sample_root ∧
  get (overlay sample_root sample_heap).1 4 (PStr "*") = VRef 2 ∧
  get (apply_ops 4 (overlay sample_root sample_heap).1 [OpSet (PStr "*") (VNum 7)])
      4 (PStr "*") = VNum 7.
Proof.
  pose proof (overlay_delegates_to_source sample_heap sample_root
                (overlay sample_root sample_heap).1 4) as H.
  assert (Hwf : heap_wf sample_heap) by (apply heap_wfb_sound; reflexivity).
  assert (Hn : is_node sample_heap sample_root) by (vm_compute; eauto).
  destruct (H Hwf Hn eq_refl) as (_ & Hk & _ & Hset).
  split_and!; [done | done | |].
  - destruct (Hk "*") as (_ & -> & ->). reflexivity.
  - apply (Hset [] (PStr "*") (VNum 7)).
Defined.

(** C3.  For every node [src], [overlay] changes no own property of [src]
    other than the buried marker (its string-keyed entries, in their
    order, and both counters stay), and whatever own keys are later set, overwritten or
    removed on the derived node, the cell of [src] stays as [overlay] left
    it and every read on [src] (lookups of string keys and counters,
    enumeration) gives what it gave before the derivation. *)
Theorem overlay_frames_source (h : heap) (src : loc) (h' : heap) (d : loc) :
  heap_wf h → is_node h src →
  overlay src h = (h', d) →
  (∀ k, k ≠ PSym BURIED → own_get h' src k = own_get h src k) ∧
  (own_keys <$> obj_at h' src) = (own_keys <$> obj_at h src) ∧
  (∀ ops : list own_op,
     apply_ops d h' ops !! src = h' !! src ∧
     (∀ k, k ≠ PSym BURIED →
        own_get (apply_ops d h' ops) src k = own_get h src k ∧
        get (apply_ops d h' ops) src k = get h src k) ∧
     forin_keys (apply_ops d h' ops) src = forin_keys h src).
Proof.
  intros Hwf Hn Ho. pose proof Hn as [o Hsrc].
  pose proof (obj_at_lt _ _ _ Hsrc) as Hlt.
  assert (Hh' : h' = (overlay src h).1) by (by rewrite Ho).
  assert (Hdl : d = length h).
  { rewrite overlay_eq in Ho by done. by injection Ho as _ <-. }
  assert (Hwf' : heap_wf h') by (rewrite Hh'; by apply heap_wf_overlay).
  assert (Hown : ∀ k, k ≠ PSym BURIED → own_get h' src k = own_get h src k).
  { intros k Hk. unfold own_get. rewrite Hh', (overlay_src_cell _ _ _ Hsrc), Hsrc.
    simpl. by rewrite al_get_set_ne. }
  split; [done|]. split.
  { rewrite Hh', (overlay_src_cell _ _ _ Hsrc), Hsrc. simpl. f_equal.
    apply own_keys_set_sym. }
  intros ops.
  assert (Hbelow : ∀ x, x ≤ src → h' !! x = apply_ops d h' ops !! x).
  { intros x Hx. symmetry. apply apply_ops_lookup_ne. lia. }
  split_and!.
  - symmetry. by apply Hbelow.
  - intros k Hk. split.
    + rewrite <- Hown by done. unfold own_get, obj_at. by rewrite <- Hbelow.
    + rewrite <- (get_below k h') by done.
      rewrite Hh'. by apply overlay_get_src.
  - rewrite <- (forin_keys_below h') by done.
    rewrite Hh'. by apply overlay_forin_src.
Qed.

Lemma overlay_frames_source_witness :
  heap_wf sample_heap ∧ is_node sample_heap sample_root ∧
  get (apply_ops 4 (overlay sample_root sample_heap).1
         [OpSet (PStr "*") (VNum 7); OpSet (PSym KEYS) (VNum 2); OpDelete (PStr "*")])
      sample_root (PStr "*") = VRef 2.
Proof.
  pose proof (overlay_frames_source sample_heap sample_root
                (overlay sample_root sample_heap).1 4) as H.
  assert (Hwf : heap_wf sample_heap) by (apply heap_wfb_sound; reflexivity).
  assert (Hn : is_node sample_heap sample_root) by (vm_compute; eauto).
  destruct (H Hwf Hn eq_refl) as (_ & _ & Hops).
  split_and!; [done | done |].
  destruct (Hops [OpSet (PStr "*") (VNum 7); OpSet (PSym KEYS) (VNum 2); OpDelete (PStr "*")])
    as (_ & Hk & _).
  destruct (Hk (PStr "*")) as [_ ->]; [done|]. reflexivity.
Defined.

(** ** Sets built by the enumeration loops *)

Lemma add_elem_elem (es : list string) k x :
  x ∈ add_elem es k ↔ x ∈ es ∨ x = k.
Proof.
  unfold add_elem. destruct (decide (k ∈ es)) as [Hin|Hin].
  - split; [by left|]. intros [?| ->]; done.
  - by rewrite elem_of_app, list_elem_of_singleton.
Qed.

Lemma add_elem_NoDup (es : list string) k : NoDup es → NoDup (add_elem es k).
Proof.
  intros Hnd. unfold add_elem. destruct (decide (k ∈ es)) as [Hin|Hin]; [done|].
  apply NoDup_app. split_and!; [done| |apply NoDup_singleton].
  intros x Hx ->%list_elem_of_singleton. done.
Qed.

Lemma foldl_add_elem_elem (ks : list string) : ∀ (es : list string) x,
  x ∈ foldl add_elem es ks ↔ x ∈ es ∨ x ∈ ks.
Proof.
  induction ks as [|k ks IH]; intros es x; simpl.
  - split; [by left|]. by intros [?|?%elem_of_nil].
  - rewrite IH, add_elem_elem, elem_of_cons. tauto.
Qed.

Lemma foldl_add_elem_NoDup (ks : list string) : ∀ es : list string,
  NoDup es → NoDup (foldl add_elem es ks).
Proof.
  induction ks as [|k ks IH]; intros es Hnd; simpl; [done|].
  by apply IH, add_elem_NoDup.
Qed.

(** Adding keys that are new and pairwise distinct appends them. *)
Lemma foldl_add_elem_fresh (ks : list string) : ∀ es : list string,
  NoDup (es ++ ks) → foldl add_elem es ks = es ++ ks.
Proof.
  induction ks as [|k ks IH]; intros es Hnd; simpl.
  - by rewrite app_nil_r.
  - assert (Hk : k ∉ es).
    { apply NoDup_app in Hnd as (_ & Hdis & _). intros Hin.
      apply (Hdis _ Hin). left. }
    unfold add_elem at 2. rewrite decide_False by done.
    rewrite IH; [by rewrite <- app_assoc|]. by rewrite <- app_assoc.
Qed.

Lemma set_add_snoc (h : heap) es k :
  set_add (length h) (h ++ [CSet es]) k = h ++ [CSet (add_elem es k)].
Proof.
  unfold set_add. rewrite lookup_app_r by lia.
  replace (length h - length h) with 0 by lia. simpl.
  replace (length h) with (length h + 0) at 1 by lia.
  by rewrite insert_app_r.
Qed.

Lemma foldl_set_add_snoc (h : heap) (ks : list string) : ∀ es,
  foldl (set_add (length h)) (h ++ [CSet es]) ks =
  h ++ [CSet (foldl add_elem es ks)].
Proof.
  induction ks as [|k ks IH]; intros es; simpl; [done|].
  by rewrite set_add_snoc, IH.
Qed.

Lemma set_elems_snoc (h : heap) es : set_elems (h ++ [CSet es]) (length h) = es.
Proof.
  unfold set_elems. rewrite lookup_app_r by lia.
  by replace (length h - length h) with 0 by lia.
Qed.

Lemma preserved_app (h ext : heap) : preserved h (h ++ ext).
Proof.
  intros l c Hl. rewrite lookup_app_l; [done|]. by eapply lookup_lt_Some.
Qed.

Lemma forin_keys_not_node h l : obj_at h l = None → forin_keys h l = [].
Proof. intros Hl. unfold forin_keys. simpl. by rewrite Hl. Qed.

Lemma forin_value_snoc_set h es v :
  heap_wf h → forin_value (h ++ [CSet es]) v = forin_value h v.
Proof.
  intros Hwf. destruct v as [| |l]; simpl; [done..|].
  destruct (decide (l < length h)) as [Hlt|Hge].
  - by apply forin_keys_app_l.
  - rewrite !forin_keys_not_node; [done| |].
    + unfold obj_at. by rewrite lookup_ge_None_2 by lia.
    + destruct (decide (l = length h)) as [->|Hne].
      * by rewrite obj_at_snoc.
      * unfold obj_at. rewrite lookup_ge_None_2; [done|].
        rewrite length_app. simpl. lia.
Qed.

Lemma heap_wf_snoc_set h es : heap_wf h → heap_wf (h ++ [CSet es]).
Proof. intros Hwf. by apply heap_wf_snoc. Qed.

(** ** The enumerations, in closed form *)

Section enumeration.
Context {PrefixMap GraphTerm SubjectTerm : Type}.
Variable graphFromC1 : string → PrefixMap → GraphTerm.
Variable subjectFromC1 : string → PrefixMap → SubjectTerm.
Implicit Types this : GenericQuadTree PrefixMap.

Lemma total_distinct_graphs_eq this h :
  heap_wf h → is_node h (_hc4_quads this) →
  _total_distinct_graphs this h =
  (h ++ [CSet (forin_keys h (_hc4_quads this))], length h).
Proof.
  intros Hwf [o Ho]. pose proof (obj_at_lt _ _ _ Ho) as Hlt.
  unfold _total_distinct_graphs, new_set, alloc.
  rewrite forin_keys_app_l, foldl_set_add_snoc by done.
  rewrite foldl_add_elem_fresh; [done|]. simpl. by apply forin_keys_NoDup.
Qed.

Lemma add_subjects_of_snoc this h es g :
  heap_wf h → is_node h (_hc4_quads this) →
  add_subjects_of (_hc4_quads this) (length h) (h ++ [CSet es]) g =
  h ++ [CSet (collect_subjects h (_hc4_quads this) es g)].
Proof.
  intros Hwf [o Ho]. pose proof (obj_at_lt _ _ _ Ho) as Hlt.
  unfold add_subjects_of, collect_subjects.
  by rewrite get_app_l, forin_value_snoc_set, foldl_set_add_snoc.
Qed.

Lemma total_distinct_subjects_eq this h :
  heap_wf h → is_node h (_hc4_quads this) →
  _total_distinct_subjects this h =
  (h ++ [CSet (foldl (collect_subjects h (_hc4_quads this)) []
                 (forin_keys h (_hc4_quads this)))], length h).
Proof.
  intros Hwf Hn. pose proof Hn as [o Ho]. pose proof (obj_at_lt _ _ _ Ho) as Hlt.
  unfold _total_distinct_subjects, new_set, alloc.
  rewrite forin_keys_app_l by done. f_equal.
  generalize (forin_keys h (_hc4_quads this)) as gs.
  generalize (@nil string) as es.
  intros es gs. revert es. induction gs as [|g gs IH]; intros es; simpl; [done|].
  by rewrite add_subjects_of_snoc, IH.
Qed.

Lemma collect_subjects_snoc_set h root es es' g :
  heap_wf h → root < length h →
  collect_subjects (h ++ [CSet es']) root es g = collect_subjects h root es g.
Proof.
  intros Hwf Hlt. unfold collect_subjects.
  by rewrite get_app_l, forin_value_snoc_set.
Qed.

Lemma foldl_collect_subjects_elem h root (gs : list string) : ∀ (es : list string) x,
  x ∈ foldl (collect_subjects h root) es gs ↔
  x ∈ es ∨ ∃ g, g ∈ gs ∧ x ∈ forin_value h (get h root (PStr g)).
Proof.
  induction gs as [|g gs IH]; intros es x; simpl.
  - split; [by left|]. intros [?|(g & Hg%elem_of_nil & _)]; done.
  - rewrite IH. unfold collect_subjects at 1. rewrite foldl_add_elem_elem.
    split.
    + intros [[?|?]|(g' & Hg' & Hx)]; [by left| |].
      * right. exists g. split; [left|done].
      * right. exists g'. split; [by right|done].
    + intros [?|(g' & Hg' & Hx)]; [by left; left|].
      apply elem_of_cons in Hg' as [->|Hg']; [by left; right|].
      right. by exists g'.
Qed.

Lemma foldl_collect_subjects_NoDup h root (gs : list string) : ∀ es : list string,
  NoDup es → NoDup (foldl (collect_subjects h root) es gs).
Proof.
  induction gs as [|g gs IH]; intros es Hnd; simpl; [done|].
  apply IH. unfold collect_subjects. by apply foldl_add_elem_NoDup.
Qed.

Lemma foldl_collect_subjects_snoc_set h root es' (gs : list string) :
  heap_wf h → root < length h → ∀ es : list string,
  foldl (collect_subjects (h ++ [CSet es']) root) es gs =
  foldl (collect_subjects h root) es gs.
Proof.
  intros Hwf Hlt. induction gs as [|g gs IH]; intros es; simpl; [done|].
  by rewrite collect_subjects_snoc_set, IH.
Qed.

Lemma heap_wf_distinctC1Graphs this h :
  heap_wf h → is_node h (_hc4_quads this) → heap_wf (distinctC1Graphs this h).1.
Proof.
  intros Hwf Hn. unfold distinctC1Graphs.
  rewrite total_distinct_graphs_eq by done. by apply heap_wf_snoc_set.
Qed.

Lemma heap_wf_distinctC1Subjects this h :
  heap_wf h → is_node h (_hc4_quads this) → heap_wf (distinctC1Subjects this h).1.
Proof.
  intros Hwf Hn. unfold distinctC1Subjects.
  rewrite total_distinct_subjects_eq by done. by apply heap_wf_snoc_set.
Qed.

Lemma distinctGraphs_eq this h :
  heap_wf h → is_node h (_hc4_quads this) →
  distinctGraphs graphFromC1 this h =
  (h ++ [CSet (forin_keys h (_hc4_quads this))],
   (λ k, graphFromC1 k (_h_prefixes this)) <$> forin_keys h (_hc4_quads this)).
Proof.
  intros Hwf Hn. unfold distinctGraphs, distinctC1Graphs.
  rewrite total_distinct_graphs_eq by done. by rewrite set_elems_snoc.
Qed.

(** ** Enumeration is read-only and restartable *)

(** C8.  On every dataset, each of [distinctC1Graphs], [distinctC1Subjects],
    [distinctGraphs] and [distinctSubjects] returns after a complete
    traversal (all keys enumerated at the root, respectively all subject
    keys enumerated under them), with finitely many pairwise distinct
    elements; every cell of the heap (every entry, counter and marker of
    every node) is exactly as before; and a second invocation, run in the
    heap the first one left, gives the same elements. *)
Theorem enumeration_read_only this h :
  heap_wf h → is_node h (_hc4_quads this) →
  (preserved h (distinctC1Graphs this h).1 ∧
   run_set (distinctC1Graphs this h) = forin_keys h (_hc4_quads this) ∧
   NoDup (run_set (distinctC1Graphs this h)) ∧
   run_set (distinctC1Graphs this (distinctC1Graphs this h).1) =
   run_set (distinctC1Graphs this h)) ∧
  (preserved h (distinctC1Subjects this h).1 ∧
   (∀ s, s ∈ run_set (distinctC1Subjects this h) ↔
         ∃ g, g ∈ forin_keys h (_hc4_quads this) ∧
              s ∈ forin_value h (get h (_hc4_quads this) (PStr g))) ∧
   NoDup (run_set (distinctC1Subjects this h)) ∧
   run_set (distinctC1Subjects this (distinctC1Subjects this h).1) =
   run_set (distinctC1Subjects this h)) ∧
  (preserved h (distinctGraphs graphFromC1 this h).1 ∧
   (distinctGraphs graphFromC1 this h).2 =
   (λ k, graphFromC1 k (_h_prefixes this)) <$> forin_keys h (_hc4_quads this) ∧
   (distinctGraphs graphFromC1 this (distinctGraphs graphFromC1 this h).1).2 =
   (distinctGraphs graphFromC1 this h).2) ∧
  (preserved h (distinctSubjects subjectFromC1 this h).1 ∧
   (distinctSubjects subjectFromC1 this h).2 =
   (λ k, subjectFromC1 k (_h_prefixes this)) <$> run_set (distinctC1Subjects this h) ∧
   (distinctSubjects subjectFromC1 this (distinctSubjects subjectFromC1 this h).1).2 =
   (distinctSubjects subjectFromC1 this h).2).
Proof.
  intros Hwf Hn. pose proof Hn as [o Ho]. pose proof (obj_at_lt _ _ _ Ho) as Hlt.
  set (root := _hc4_quads this) in *.
  set (gs := forin_keys h root).
  set (ss := foldl (collect_subjects h root) [] gs).
  assert (Hwfg : heap_wf (h ++ [CSet gs])) by (by apply heap_wf_snoc_set).
  assert (Hwfs : heap_wf (h ++ [CSet ss])) by (by apply heap_wf_snoc_set).
  assert (Hng : is_node (h ++ [CSet gs]) root).
  { unfold is_node. rewrite obj_at_app_l by done. by eexists. }
  assert (Hns : is_node (h ++ [CSet ss]) root).
  { unfold is_node. rewrite obj_at_app_l by done. by eexists. }
  assert (Hg1 : distinctC1Graphs this h = (h ++ [CSet gs], length h))
    by (by apply total_distinct_graphs_eq).
  assert (Hg2 : distinctC1Graphs this (h ++ [CSet gs]) =
                ((h ++ [CSet gs]) ++ [CSet gs], length (h ++ [CSet gs]))).
  { unfold distinctC1Graphs. rewrite total_distinct_graphs_eq by done.
    fold root. by rewrite forin_keys_app_l by done. }
  assert (Hs1 : distinctC1Subjects this h = (h ++ [CSet ss], length h))
    by (by apply total_distinct_subjects_eq).
  assert (Hs2 : distinctC1Subjects this (h ++ [CSet ss]) =
                ((h ++ [CSet ss]) ++ [CSet ss], length (h ++ [CSet ss]))).
  { unfold distinctC1Subjects. rewrite total_distinct_subjects_eq by done.
    fold root. rewrite forin_keys_app_l by done.
    by rewrite foldl_collect_subjects_snoc_set by done. }
  assert (Hrg : run_set (distinctC1Graphs this h) = gs).
  { rewrite Hg1. unfold run_set. simpl. apply set_elems_snoc. }
  assert (Hrs : run_set (distinctC1Subjects this h) = ss).
  { rewrite Hs1. unfold run_set. simpl. apply set_elems_snoc. }
  split_and!.
  - rewrite Hg1. apply preserved_app.
  - done.
  - rewrite Hrg. by apply forin_keys_NoDup.
  - rewrite Hrg, Hg1. simpl. rewrite Hg2. unfold run_set. simpl.
    apply set_elems_snoc.
  - rewrite Hs1. apply preserved_app.
  - intros s. rewrite Hrs. unfold ss. rewrite foldl_collect_subjects_elem.
    split; [intros [?%elem_of_nil|?]; done | by right].
  - rewrite Hrs. apply foldl_collect_subjects_NoDup, NoDup_nil_2.
  - rewrite Hrs, Hs1. simpl. rewrite Hs2. unfold run_set. simpl.
    apply set_elems_snoc.
  - unfold distinctGraphs. rewrite Hg1. apply preserved_app.
  - unfold distinctGraphs. rewrite Hg1. simpl. by rewrite set_elems_snoc.
  - unfold distinctGraphs. rewrite Hg1. cbv beta iota zeta. cbn [fst snd].
    rewrite Hg2. cbv beta iota zeta. cbn [fst snd].
    by rewrite !set_elems_snoc.
  - unfold distinctSubjects. rewrite Hs1. apply preserved_app.
  - unfold distinctSubjects. rewrite Hrs, Hs1. simpl. by rewrite set_elems_snoc.
  - unfold distinctSubjects. rewrite Hs1. cbv beta iota zeta. cbn [fst snd].
    rewrite Hs2. cbv beta iota zeta. cbn [fst snd].
    by rewrite !set_elems_snoc.
Qed.

End enumeration.

Lemma enumeration_read_only_witness :
  heap_wf shared_heap ∧ is_node shared_heap (_hc4_quads shared_dataset) ∧
  run_set (distinctC1Graphs shared_dataset shared_heap) = ["*"; "g"] ∧
  (distinctGraphs (λ k _, k) shared_dataset
     (distinctGraphs (λ k _, k) shared_dataset shared_heap).1).2 =
  (distinctGraphs (λ k (_ : unit), k) shared_dataset shared_heap).2.
Proof.
  pose proof (enumeration_read_only (λ k (_ : unit), k) (λ k (_ : unit), k)
                shared_dataset shared_heap) as H.
  assert (Hwf : heap_wf shared_heap) by (apply heap_wfb_sound; reflexivity).
  assert (Hn : is_node shared_heap (_hc4_quads shared_dataset))
    by (vm_compute; eauto).
  destruct (H Hwf Hn) as ((_ & Hg & _) & _ & (_ & _ & Hgg) & _).
  split_and!; [done | done | | done].
  rewrite Hg. reflexivity.
Defined.

(** ** Counting subjects *)

(** C6 at the dataset [shared_dataset]: two graphs, and the subject [s] is
    visible in graph [g] only through the overlay.  [distinctSubjectCount]
    takes the multi-graph branch, where [Object.keys] sees no own key in
    the overlay, and returns 0; [distinctC1Subjects] enumerates [s]. *)
Lemma distinct_subject_count_misses_inherited :
  heap_wf shared_heap ∧
  (snd <$> distinctSubjectCount shared_dataset shared_heap) = Some (VNum 0) ∧
  run_set (distinctC1Subjects shared_dataset shared_heap) = ["s"] ∧
  ¬ subject_count_agrees shared_dataset shared_heap.
Proof.
  split_and!; [apply heap_wfb_sound; reflexivity | reflexivity | reflexivity |].
  by vm_compute.
Qed.

(** ** [overlayTree] *)

(** C10.  [overlayTree(n_keys, n_quads)] returns a node whose key count is
    [n_keys], whose quad count is [n_quads], and which has no string-keyed
    entry; with the default arguments both counters are 0, and a dataset
    over that node reports size 0, no distinct graph, and enumerates no
    graph. *)
Theorem overlayTree_counters {PrefixMap GraphTerm : Type}
    (graphFromC1 : string → PrefixMap → GraphTerm)
    (h : heap) (n_keys n_quads : Z) (h_prefixes : PrefixMap) (b_prefixed : option bool) :
  (let '(h', t) := overlayTree (VNum n_keys) (VNum n_quads) h in
   is_node h' t ∧
   get h' t (PSym KEYS) = VNum n_keys ∧
   get h' t (PSym QUADS) = VNum n_quads ∧
   (∀ k : string, own_get h' t (PStr k) = None) ∧
   forin_keys h' t = []) ∧
  (let '(h', t) := overlayTree VUndef VUndef h in
   let this := constructor t h_prefixes b_prefixed h' in
   get h' t (PSym KEYS) = VNum 0 ∧
   get h' t (PSym QUADS) = VNum 0 ∧
   forin_keys h' t = [] ∧
   size this h' = VNum 0 ∧
   distinctGraphCount this h' = VNum 0 ∧
   run_set (distinctC1Graphs this h') = [] ∧
   (distinctGraphs graphFromC1 this h').2 = []).
Proof.
  unfold overlayTree, alloc. cbv beta iota zeta. cbn [default_arg]. split.
  - split_and!.
    + unfold is_node. by rewrite obj_at_snoc.
    + by rewrite get_snoc_flat.
    + by rewrite get_snoc_flat.
    + intros k. by rewrite own_get_snoc.
    + by rewrite forin_keys_snoc_flat.
  - set (c := CObj {| props := [(PSym KEYS, VNum 0); (PSym QUADS, VNum 0)];
                      proto := None |}).
    assert (Hf : forin_keys ((h ++ [c]) ++ [CSet []]) (length h) = []).
    { unfold forin_keys. simpl. rewrite obj_at_app_l, obj_at_snoc.
      - done.
      - rewrite length_app. simpl. lia. }
    assert (Hg : distinctC1Graphs (constructor (length h) h_prefixes b_prefixed (h ++ [c]))
                   (h ++ [c]) = ((h ++ [c]) ++ [CSet []], length (h ++ [c]))).
    { unfold distinctC1Graphs, _total_distinct_graphs, new_set, alloc. simpl.
      by rewrite Hf. }
    subst c. split_and!.
    + by rewrite get_snoc_flat.
    + by rewrite get_snoc_flat.
    + by rewrite forin_keys_snoc_flat.
    + unfold size. simpl. by rewrite get_snoc_flat.
    + unfold distinctGraphCount. simpl. by rewrite get_snoc_flat.
    + rewrite Hg. unfold run_set. simpl. apply set_elems_snoc.
    + unfold distinctGraphs. rewrite Hg. cbv beta iota zeta. cbn [fst snd].
      by rewrite set_elems_snoc.
Qed.

(** ** Sums and membership over association lists *)

Section alist_sums.
Context {K V : Type} `{EqDecision K}.
Implicit Types (l : list (K * V)) (f : V → Z).

Lemma al_get_elem (k : K) (v : V) l : al_get k l = Some v → (k, v) ∈ l.
Proof.
  induction l as [|[k' v'] l IH]; simpl; [done|].
  destruct (decide (k = k')) as [->|].
  - intros [= ->]. left.
  - intros Hg. right. auto.
Qed.

Lemma al_get_elem_iff (k : K) (v : V) l :
  NoDup l.*1 → al_get k l = Some v ↔ (k, v) ∈ l.
Proof.
  intros Hnd. split; [apply al_get_elem|].
  induction l as [|[k' v'] l IH]; csimpl in *; [by intros ?%elem_of_nil|].
  apply NoDup_cons in Hnd as [Hk Hnd].
  rewrite elem_of_cons. intros [[= -> ->]|Hin].
  - by rewrite decide_True.
  - rewrite decide_False; [auto|]. intros ->. apply Hk.
    apply list_elem_of_fmap. by exists (k', v).
Qed.

Lemma al_set_length_Some (k : K) (v c : V) l :
  al_get k l = Some c → length (al_set k v l) = length l.
Proof.
  induction l as [|[k' v'] l IH]; simpl; [done|].
  destruct (decide (k = k')); simpl; [done|]. intros Hg. by rewrite IH.
Qed.

Lemma al_set_length_None (k : K) (v : V) l :
  al_get k l = None → length (al_set k v l) = S (length l).
Proof.
  intros Hg%al_get_None_fst. rewrite al_set_notin by done.
  rewrite length_app. simpl. lia.
Qed.

Lemma al_del_length (k : K) (c : V) l :
  al_get k l = Some c → S (length (al_del k l)) = length l.
Proof.
  induction l as [|[k' v'] l IH]; simpl; [done|].
  destruct (decide (k = k')); simpl; [done|]. intros Hg. by rewrite IH.
Qed.

Lemma al_sum_set_Some f (k : K) (v c : V) l :
  al_get k l = Some c →
  foldr (λ kc acc, f kc.2 + acc)%Z 0%Z (al_set k v l) =
  (foldr (λ kc acc, f kc.2 + acc) 0 l - f c + f v)%Z.
Proof.
  induction l as [|[k' v'] l IH]; simpl; [done|].
  destruct (decide (k = k')); simpl.
  - intros [= ->]. lia.
  - intros Hg. rewrite IH by done. lia.
Qed.

Lemma al_sum_set_None f (k : K) (v : V) l :
  al_get k l = None →
  foldr (λ kc acc, f kc.2 + acc)%Z 0%Z (al_set k v l) =
  (foldr (λ kc acc, f kc.2 + acc) 0 l + f v)%Z.
Proof.
  induction l as [|[k' v'] l IH]; simpl; [lia|].
  destruct (decide (k = k')); simpl; [done|].
  intros Hg. rewrite IH by done. lia.
Qed.

Lemma al_sum_del f (k : K) (c : V) l :
  al_get k l = Some c →
  foldr (λ kc acc, f kc.2 + acc)%Z 0%Z (al_del k l) =
  (foldr (λ kc acc, f kc.2 + acc) 0 l - f c)%Z.
Proof.
  induction l as [|[k' v'] l IH]; simpl; [done|].
  destruct (decide (k = k')); simpl.
  - intros [= ->]. lia.
  - intros Hg. rewrite IH by done. lia.
Qed.

Lemma al_set_Forall (P : V → Prop) (k : K) (v : V) l :
  P v → Forall P l.*2 → Forall P (al_set k v l).*2.
Proof.
  intros Hv. induction l as [|[k' v'] l IH]; csimpl.
  - intros _. by apply Forall_cons.
  - rewrite Forall_cons. intros [Hv' Hl].
    destruct (decide (k = k')); csimpl; apply Forall_cons; auto.
Qed.

Lemma al_del_Forall (P : V → Prop) (k : K) l :
  Forall P l.*2 → Forall P (al_del k l).*2.
Proof.
  induction l as [|[k' v'] l IH]; csimpl; [done|].
  rewrite Forall_cons. intros [Hv' Hl].
  destruct (decide (k = k')); csimpl; [done|]. apply Forall_cons; auto.
Qed.

Lemma al_get_Forall (P : V → Prop) (k : K) (c : V) l :
  Forall P l.*2 → al_get k l = Some c → P c.
Proof.
  intros Hall Hg. rewrite Forall_forall in Hall. apply Hall.
  apply list_elem_of_fmap. exists (k, c). split; [done|by apply al_get_elem].
Qed.

Lemma al_get_set (k k' : K) (v : V) l :
  al_get k' (al_set k v l) = if decide (k = k') then Some v else al_get k' l.
Proof.
  destruct (decide (k = k')) as [->|Hne].
  - apply al_get_set_eq.
  - by apply al_get_set_ne.
Qed.

Lemma al_get_del (k k' : K) l :
  NoDup l.*1 →
  al_get k' (al_del k l) = if decide (k = k') then None else al_get k' l.
Proof.
  intros Hnd. destruct (decide (k = k')) as [->|Hne].
  - by apply al_get_del_eq.
  - by apply al_get_del_ne.
Qed.

End alist_sums.

(** ** The basic quad tree *)

Module BasicQuadTreeFacts.
Import BasicQuadTree.

(** *** One level of the tree *)

Section level.
Context {A B : Type}.
Variables (ok : A → Prop) (cnt : A → Z) (items : A → list B).
Implicit Types (n : node A) (c : A).

Lemma elem_of_node_items n (k : string) (b : B) :
  NoDup (entries n).*1 →
  (k, b) ∈ node_items items n ↔ ∃ c, al_get k (entries n) = Some c ∧ b ∈ items c.
Proof.
  intros Hnd. unfold node_items. rewrite list_elem_of_bind. split.
  - intros ([k' c] & Hin & Hkc). simpl in Hin.
    apply list_elem_of_fmap in Hin as (b' & [= -> ->] & Hb).
    exists c. split; [by apply al_get_elem_iff|done].
  - intros (c & Hg & Hb). exists (k, c). split.
    + simpl. apply list_elem_of_fmap. by exists b.
    + by apply al_get_elem.
Qed.

Lemma node_items_length n :
  (∀ c, ok c → cnt c = Z.of_nat (length (items c))) →
  node_ok ok cnt n →
  quadCount n = Z.of_nat (length (node_items items n)).
Proof.
  intros Hcnt (_ & [_ ->] & Hall). unfold sum_children, node_items.
  induction (entries n) as [|[k c] es IH]; csimpl in *; [done|].
  apply Forall_cons in Hall as [Hc Hall].
  rewrite length_app, length_fmap, IH, Hcnt by done. lia.
Qed.

Lemma node_items_NoDup n :
  (∀ c, ok c → NoDup (items c)) →
  node_ok ok cnt n → NoDup (node_items items n).
Proof.
  intros Hitems (Hnd & _ & Hall). unfold node_items.
  induction (entries n) as [|[k c] es IH]; csimpl in *; [apply NoDup_nil_2|].
  apply Forall_cons in Hall as [Hc Hall].
  apply NoDup_cons in Hnd as [Hk Hnd].
  apply NoDup_app. split_and!.
  - apply NoDup_fmap_2; [by intros ?? [= ->]|auto].
  - intros [k' b] Hin Hin'.
    apply list_elem_of_fmap in Hin as (b' & [= -> ->] & Hb).
    apply list_elem_of_bind in Hin' as ([k2 c2] & Hin2 & Hkc).
    simpl in Hin2. apply list_elem_of_fmap in Hin2 as (b2 & [= <- ->] & _).
    apply Hk. apply list_elem_of_fmap. by exists (k, c2).
  - auto.
Qed.

(** Insertion one level up does what insertion below does. *)
Lemma add_at_adds (empty_child : A) (add_child : A → A * bool) (new : B) (k : string) :
  ok empty_child → cnt empty_child = 0%Z → items empty_child = [] →
  adds ok cnt items add_child new →
  adds (node_ok ok cnt) quadCount (node_items items)
       (add_at empty_child add_child k) (k, new).
Proof.
  intros Hok0 Hcnt0 Hitems0 Hadd n Hn.
  pose proof Hn as (Hnd & [Hkeys Hquads] & Hall).
  unfold add_at.
  destruct (al_get k (entries n)) as [c|] eqn:Hg.
  - pose proof (al_get_Forall _ _ _ _ Hall Hg) as Hc.
    destruct (Hadd c Hc) as (Hok' & Hcnt' & Hit' & Htrue & Hfalse).
    destruct (add_child c) as [c' added]. simpl in *.
    destruct added; simpl.
    + assert (Hnd' : NoDup (al_set k c' (entries n)).*1) by (by apply al_set_NoDup).
      split; [|split; [|split; [|split]]].
      * split; [done|]. split; [split; simpl|by apply al_set_Forall].
        -- rewrite (al_set_length_Some _ _ c) by done. lia.
        -- unfold sum_children in *. simpl.
           rewrite (al_sum_set_Some _ _ _ c) by done. lia.
      * lia.
      * intros [k' b]. rewrite !elem_of_node_items by done.
        simpl. setoid_rewrite al_get_set. split.
        -- intros (c2 & Hg2 & Hb). destruct (decide (k = k')) as [->|Hne].
           ++ injection Hg2 as <-. apply Hit' in Hb as [->|Hb]; [by left|].
              right. eauto.
           ++ right. eauto.
        -- intros [[= -> ->]|(c2 & Hg2 & Hb)].
           ++ exists c'. rewrite decide_True by done. split; [done|].
              apply Hit'. by left.
           ++ destruct (decide (k = k')) as [->|Hne].
              ** exists c'. split; [done|]. apply Hit'. right. congruence.
              ** eauto.
      * intros _. rewrite elem_of_node_items by done.
        intros (c2 & Hg2 & Hb). rewrite Hg in Hg2. injection Hg2 as <-.
        by apply Htrue.
      * done.
    + destruct Hfalse as [Hin ->]; [done|].
      assert (Hkn : (k, new) ∈ node_items items n)
        by (apply elem_of_node_items; eauto).
      split; [|split; [|split; [|split]]].
      * done.
      * lia.
      * intros x. split; [by right|]. by intros [->|?].
      * done.
      * done.
  - destruct (Hadd empty_child Hok0) as (Hok' & Hcnt' & Hit' & Htrue & Hfalse).
    destruct (add_child empty_child) as [c' added]. simpl in *.
    destruct added; simpl.
    + assert (Hnd' : NoDup (al_set k c' (entries n)).*1) by (by apply al_set_NoDup).
      split; [|split; [|split; [|split]]].
      * split; [done|]. split; [split; simpl|by apply al_set_Forall].
        -- rewrite al_set_length_None by done. lia.
        -- unfold sum_children in *. simpl.
           rewrite al_sum_set_None by done. lia.
      * lia.
      * intros [k' b]. rewrite !elem_of_node_items by done.
        simpl. setoid_rewrite al_get_set. split.
        -- intros (c2 & Hg2 & Hb). destruct (decide (k = k')) as [->|Hne].
           ++ injection Hg2 as <-. apply Hit' in Hb as [->|Hb]; [by left|].
              rewrite Hitems0 in Hb. by apply elem_of_nil in Hb.
           ++ right. eauto.
        -- intros [[= -> ->]|(c2 & Hg2 & Hb)].
           ++ exists c'. rewrite decide_True by done. split; [done|].
              apply Hit'. by left.
           ++ destruct (decide (k = k')) as [->|Hne]; [congruence|eauto].
      * intros _. rewrite elem_of_node_items by done.
        intros (c2 & Hg2 & Hb). congruence.
      * done.
    + destruct Hfalse as [Hin _]; [done|].
      rewrite Hitems0 in Hin. by apply elem_of_nil in Hin.
Qed.

(** Deletion one level up does what deletion below does. *)
Lemma delete_at_deletes (is_empty : A → bool) (delete_child : A → A * bool)
    (keep : bool) (old : B) (k : string) :
  (∀ c, ok c → cnt c = Z.of_nat (length (items c))) →
  (∀ c, is_empty c = true → items c = []) →
  deletes ok cnt items delete_child old →
  deletes (node_ok ok cnt) quadCount (node_items items)
          (delete_at is_empty delete_child keep k) (k, old).
Proof.
  intros Hlen Hempty Hdel n Hn.
  pose proof Hn as (Hnd & [Hkeys Hquads] & Hall).
  unfold delete_at.
  destruct (al_get k (entries n)) as [c|] eqn:Hg.
  - pose proof (al_get_Forall _ _ _ _ Hall Hg) as Hc.
    destruct (Hdel c Hc) as (Hok' & Hcnt' & Hit' & Htrue & Hfalse).
    destruct (delete_child c) as [c' removed]. simpl in *.
    destruct removed; simpl.
    + assert (Hkold : (k, old) ∈ node_items items n)
        by (apply elem_of_node_items; eauto).
      destruct (is_empty c' && negb keep) eqn:Hrm; simpl.
      * apply andb_prop in Hrm as [Hrm _]. apply Hempty in Hrm.
        assert (Hnd' : NoDup (al_del k (entries n)).*1) by (by apply al_del_NoDup).
        assert (Hone : cnt c = 1%Z).
        { rewrite (Hlen c' Hok'), Hrm in Hcnt'. simpl in Hcnt'. lia. }
        split; [|split; [|split; [|split]]].
        -- split; [done|]. split; [split; simpl|by apply al_del_Forall].
           ++ pose proof (al_del_length _ _ _ Hg). lia.
           ++ unfold sum_children in *. simpl.
              rewrite (al_sum_del _ _ c) by done. lia.
        -- lia.
        -- intros [k' b]. rewrite !elem_of_node_items by done.
           simpl. setoid_rewrite al_get_del; [|done]. split.
           ++ intros (c2 & Hg2 & Hb). destruct (decide (k = k')) as [->|Hne]; [done|].
              split; [congruence|eauto].
           ++ intros [Hne (c2 & Hg2 & Hb)].
              destruct (decide (k = k')) as [->|Hne']; [|eauto].
              exfalso. rewrite Hg in Hg2. injection Hg2 as <-.
              assert (Hb' : b ∈ items c') by (apply Hit'; split; [congruence|done]).
              rewrite Hrm in Hb'. by apply elem_of_nil in Hb'.
        -- done.
        -- done.
      * assert (Hnd' : NoDup (al_set k c' (entries n)).*1) by (by apply al_set_NoDup).
        split; [|split; [|split; [|split]]].
        -- split; [done|]. split; [split; simpl|by apply al_set_Forall].
           ++ rewrite (al_set_length_Some _ _ c) by done. lia.
           ++ unfold sum_children in *. simpl.
              rewrite (al_sum_set_Some _ _ _ c) by done. lia.
        -- lia.
        -- intros [k' b]. rewrite !elem_of_node_items by done.
           simpl. setoid_rewrite al_get_set. split.
           ++ intros (c2 & Hg2 & Hb). destruct (decide (k = k')) as [->|Hne].
              ** injection Hg2 as <-. apply Hit' in Hb as [Hne Hb].
                 split; [congruence|eauto].
              ** split; [congruence|eauto].
           ++ intros [Hne (c2 & Hg2 & Hb)].
              destruct (decide (k = k')) as [->|Hne']; [|eauto].
              rewrite Hg in Hg2. injection Hg2 as <-.
              exists c'. split; [done|]. apply Hit'. split; [congruence|done].
        -- done.
        -- done.
    + destruct Hfalse as [Hnin ->]; [done|].
      assert (Hkold : (k, old) ∉ node_items items n).
      { rewrite elem_of_node_items by done. intros (c2 & Hg2 & Hb).
        rewrite Hg in Hg2. by injection Hg2 as <-. }
      split; [|split; [|split; [|split]]].
      * done.
      * lia.
      * intros x. split; [|by intros [_ ?]].
        intros Hx. split; [|done]. by intros ->.
      * done.
      * done.
  - assert (Hkold : (k, old) ∉ node_items items n).
    { rewrite elem_of_node_items by done. intros (c2 & Hg2 & Hb). congruence. }
    simpl. split; [|split; [|split; [|split]]].
    + done.
    + lia.
    + intros x. split; [|by intros [_ ?]].
      intros Hx. split; [|done]. by intros ->.
    + done.
    + done.
Qed.

End level.

(** *** The leaves *)

Lemma add_object_adds (o : string) :
  adds objects_ok objects_count (λ os : Objects, os) (add_object o) o.
Proof.
  intros os Hnd. unfold add_object, objects_ok, objects_count in *.
  destruct (decide (o ∈ os)) as [Hin|Hin]; simpl.
  - split_and!; [done|lia| |done|done].
    intros x. split; [by right|]. by intros [->|?].
  - split_and!; [| | |done|done].
    + apply NoDup_app. split_and!; [done| |apply NoDup_singleton].
      by intros x Hx ->%list_elem_of_singleton.
    + rewrite length_app. simpl. lia.
    + intros x. rewrite elem_of_app, list_elem_of_singleton. tauto.
Qed.

Lemma filter_out_absent (o : string) (os : list string) :
  o ∉ os → filter (λ x, x ≠ o) os = os.
Proof.
  induction os as [|x os IH]; [done|].
  rewrite not_elem_of_cons. intros [Hne Hnin].
  rewrite filter_cons_True by done. by rewrite IH.
Qed.

Lemma filter_out_length (o : string) (os : list string) :
  NoDup os → o ∈ os → S (length (filter (λ x, x ≠ o) os)) = length os.
Proof.
  induction os as [|x os IH]; [by intros _ ?%elem_of_nil|].
  rewrite NoDup_cons, elem_of_cons. intros [Hx Hnd] Hin.
  destruct (decide (x = o)) as [->|Hne].
  - rewrite filter_cons_False by (by intros ?).
    by rewrite filter_out_absent.
  - rewrite filter_cons_True by done. simpl.
    destruct Hin as [->|Hin]; [done|]. by rewrite IH.
Qed.

Lemma delete_object_deletes (o : string) :
  deletes objects_ok objects_count (λ os : Objects, os) (delete_object o) o.
Proof.
  intros os Hnd. unfold delete_object, objects_ok, objects_count in *.
  destruct (decide (o ∈ os)) as [Hin|Hin]; simpl.
  - split_and!; [| | |done|done].
    + by apply NoDup_filter.
    + pose proof (filter_out_length o os Hnd Hin). lia.
    + intros x. rewrite list_elem_of_filter. tauto.
  - split_and!; [done|lia| |done|done].
    intros x. split; [|by intros [_ ?]].
    intros Hx. split; [|done]. by intros ->.
Qed.

(** *** The three levels of nodes *)

Lemma empty_node_ok {A} (ok : A → Prop) (cnt : A → Z) :
  node_ok ok cnt empty_node.
Proof.
  split; [apply NoDup_nil_2|]. split; [done|]. simpl. apply Forall_nil_2.
Qed.

Lemma objects_count_length (os : Objects) :
  objects_ok os → objects_count os = Z.of_nat (length os).
Proof. done. Qed.

Lemma predicates_count_length (n : Predicates) :
  predicates_ok n → quadCount n = Z.of_nat (length (predicates_items n)).
Proof. apply node_items_length, objects_count_length. Qed.

Lemma triples_count_length (n : Triples) :
  triples_ok n → quadCount n = Z.of_nat (length (triples_items n)).
Proof. apply node_items_length, predicates_count_length. Qed.

Lemma graphs_count_length (n : Graphs) :
  graphs_ok n → quadCount n = Z.of_nat (length (quads n)).
Proof. apply node_items_length, triples_count_length. Qed.

Lemma predicates_items_NoDup (n : Predicates) :
  predicates_ok n → NoDup (predicates_items n).
Proof. apply node_items_NoDup. by intros os Hos. Qed.

Lemma triples_items_NoDup (n : Triples) :
  triples_ok n → NoDup (triples_items n).
Proof. apply node_items_NoDup, predicates_items_NoDup. Qed.

Lemma quads_NoDup (n : Graphs) : graphs_ok n → NoDup (quads n).
Proof. apply node_items_NoDup, triples_items_NoDup. Qed.

Lemma no_keys_items {A B} (items : A → list B) (n : node A) :
  no_keys n = true → node_items items n = [].
Proof. unfold no_keys, node_items. by destruct (entries n). Qed.

Lemma add_predicates_adds (p o : string) :
  adds predicates_ok quadCount predicates_items (add_predicates p o) (p, o).
Proof.
  apply add_at_adds; [apply NoDup_nil_2|done|done|apply add_object_adds].
Qed.

Lemma add_triples_adds (s p o : string) :
  adds triples_ok quadCount triples_items (add_triples s p o) (s, (p, o)).
Proof.
  apply add_at_adds; [apply empty_node_ok|done|done|apply add_predicates_adds].
Qed.

Lemma add_adds (q : quad) : adds graphs_ok quadCount quads (add q) q.
Proof.
  destruct q as [g [s [p o]]].
  apply add_at_adds; [apply empty_node_ok|done|done|apply add_triples_adds].
Qed.

Lemma delete_predicates_deletes (p o : string) :
  deletes predicates_ok quadCount predicates_items (delete_predicates p o) (p, o).
Proof.
  apply delete_at_deletes; [done| |apply delete_object_deletes].
  intros os Hos. by apply bool_decide_eq_true in Hos.
Qed.

Lemma delete_triples_deletes (s p o : string) :
  deletes triples_ok quadCount triples_items (delete_triples s p o) (s, (p, o)).
Proof.
  apply delete_at_deletes;
    [apply predicates_count_length|apply no_keys_items|apply delete_predicates_deletes].
Qed.

Lemma delete_deletes (q : quad) : deletes graphs_ok quadCount quads (delete q) q.
Proof.
  destruct q as [g [s [p o]]].
  apply delete_at_deletes;
    [apply triples_count_length|apply no_keys_items|apply delete_triples_deletes].
Qed.

(** *** Sequences of mutations *)

Lemma empty_ok : graphs_ok empty ∧ quads empty = [].
Proof.
  split; [|done]. split; [apply NoDup_singleton|]. split; [done|].
  simpl. apply Forall_singleton, empty_node_ok.
Qed.

Lemma run_snoc (ops : list op) (x : op) : run (ops ++ [x]) = apply (run ops) x.
Proof. unfold run. by rewrite foldl_app. Qed.

Lemma stored_snoc (ops : list op) (x : op) :
  stored (ops ++ [x]) = stored_step (stored ops) x.
Proof. unfold stored. by rewrite foldl_app. Qed.

Lemma run_ok (ops : list op) :
  graphs_ok (run ops) ∧ ∀ q, q ∈ quads (run ops) ↔ stored ops q.
Proof.
  induction ops as [|x ops IH] using rev_ind.
  - split; [apply empty_ok|]. intros q. unfold run, stored. simpl.
    split; [by intros ?%elem_of_nil|done].
  - destruct IH as [Hok Hq]. rewrite run_snoc, stored_snoc.
    destruct x as [q|q]; simpl.
    + destruct (add_adds q _ Hok) as (Hok' & _ & Hit & _). split; [done|].
      intros y. rewrite Hit, Hq. done.
    + destruct (delete_deletes q _ Hok) as (Hok' & _ & Hit & _). split; [done|].
      intros y. rewrite Hit, Hq. done.
Qed.

(** *** The stored tree under the [size] accessor *)

Lemma store_node_root {A} (store_child : A → heap → heap * loc)
    (n : node A) (h : heap) (k : symbol) :
  get (store_node store_child n h).1 (store_node store_child n h).2 (PSym k) =
  match k with
  | KEYS => VNum (keyCount n)
  | QUADS => VNum (quadCount n)
  | _ => default VUndef
           (al_get (PSym k) (foldl (store_entry store_child) (h, []) (entries n)).2)
  end.
Proof.
  unfold store_node.
  destruct (foldl (store_entry store_child) (h, []) (entries n)) as [h' ps].
  unfold alloc. cbn [fst snd]. rewrite get_snoc_flat. by destruct k.
Qed.

Lemma store_entries_keys {A} (store_child : A → heap → heap * loc)
    (es : list (string * A)) : ∀ acc,
  (foldl (store_entry store_child) acc es).2.*1 = acc.2.*1 ++ (PStr <$> es.*1).
Proof.
  induction es as [|[k c] es IH]; intros acc; csimpl.
  - by rewrite app_nil_r.
  - rewrite IH. unfold store_entry. simpl.
    destruct (store_child c acc.1) as [h' l]. simpl.
    by rewrite fmap_app, <- app_assoc.
Qed.

Lemma store_entries_wf {A} (ok : A → Prop) (store_child : A → heap → heap * loc)
    (es : list (string * A)) :
  (∀ c h, ok c → heap_wf h → heap_wf (store_child c h).1) →
  Forall ok es.*2 → ∀ acc,
  heap_wf acc.1 → heap_wf (foldl (store_entry store_child) acc es).1.
Proof.
  intros Hchild. induction es as [|[k c] es IH]; csimpl; intros Hall acc Hwf; [done|].
  apply Forall_cons in Hall as [Hc Hall]. apply IH; [done|].
  unfold store_entry. simpl. specialize (Hchild c acc.1 Hc Hwf).
  by destruct (store_child c acc.1).
Qed.

Lemma own_keys_of_strings (ps : list (pkey * value)) (ks : list string) :
  ps.*1 = PStr <$> ks → omap str_key ps = ks.
Proof.
  revert ks. induction ps as [|[k v] ps IH]; intros [|k' ks]; csimpl; try done.
  intros [= -> Hps]. unfold str_key at 1. simpl. by rewrite (IH ks).
Qed.

(** The root of a stored node: where it is, what it enumerates, and that
    storing keeps the heap well formed. *)
Lemma store_node_shape {A} (ok : A → Prop) (cnt : A → Z)
    (store_child : A → heap → heap * loc) (n : node A) (h : heap) :
  (∀ c h, ok c → heap_wf h → heap_wf (store_child c h).1) →
  node_ok ok cnt n → heap_wf h →
  heap_wf (store_node store_child n h).1 ∧
  is_node (store_node store_child n h).1 (store_node store_child n h).2 ∧
  forin_keys (store_node store_child n h).1 (store_node store_child n h).2 =
    (entries n).*1.
Proof.
  intros Hchild (Hnd & _ & Hall) Hwf. unfold store_node.
  pose proof (store_entries_keys store_child (entries n) (h, [])) as Hkeys.
  pose proof (store_entries_wf ok store_child (entries n) Hchild Hall (h, []) Hwf)
    as Hwf'.
  destruct (foldl (store_entry store_child) (h, []) (entries n)) as [h' ps].
  simpl in *. split_and!.
  - apply heap_wf_snoc; [done|]. intros o [= <-]. split; [csimpl|done].
    rewrite Hkeys. apply NoDup_cons. split.
    + rewrite elem_of_cons, list_elem_of_fmap. by intros [?|(? & ? & _)].
    + apply NoDup_cons. split.
      * rewrite list_elem_of_fmap. by intros (? & ? & _).
      * by apply NoDup_fmap_2; [apply _|].
  - unfold is_node. by rewrite obj_at_snoc.
  - rewrite forin_keys_snoc_flat. unfold own_keys. simpl.
    by apply own_keys_of_strings.
Qed.

Lemma store_shape (t : Graphs) (h : heap) :
  graphs_ok t → heap_wf h →
  heap_wf (store t h).1 ∧ is_node (store t h).1 (store t h).2 ∧
  forin_keys (store t h).1 (store t h).2 = (entries t).*1.
Proof.
  apply (store_node_shape triples_ok quadCount). intros c1 h1 Hc1 Hh1.
  apply (store_node_shape predicates_ok quadCount); [|done..].
  intros c2 h2 Hc2 Hh2.
  apply (store_node_shape objects_ok objects_count); [|done..].
  intros os h3 _ Hh3. by apply heap_wf_snoc_set.
Qed.

(** In every dataset produced by insertions and deletions the key counter
    of the root is the number of graphs, so graph counting and graph
    enumeration agree on it. *)
Lemma run_keys_counted {PrefixMap GraphTerm : Type}
    (graphFromC1 : string → PrefixMap → GraphTerm)
    (ops : list op) (h0 : heap) (h_prefixes : PrefixMap) (b_prefixed : option bool) :
  heap_wf h0 →
  keys_counted (store (run ops) h0).1 (store (run ops) h0).2 ∧
  graph_count_agrees graphFromC1
    (constructor (store (run ops) h0).2 h_prefixes b_prefixed (store (run ops) h0).1)
    (store (run ops) h0).1.
Proof.
  intros Hwf0. destruct (run_ok ops) as [Hok _].
  destruct (store_shape (run ops) h0 Hok Hwf0) as (Hwf & Hn & Hforin).
  assert (Hc : keys_counted (store (run ops) h0).1 (store (run ops) h0).2).
  { unfold keys_counted. rewrite Hforin, length_fmap.
    unfold store at 1 2. rewrite store_node_root.
    destruct Hok as (_ & [-> _] & _). done. }
  split; [done|].
  unfold graph_count_agrees.
  rewrite (surjective_pairing (distinctGraphs _ _ _)).
  rewrite distinctGraphs_eq by done. cbn [fst snd].
  unfold distinctGraphCount. simpl. by rewrite length_fmap.
Qed.

(** *** The scenarios of the specification *)

Example two_quads_counted :
  let t := run [Add ("*", ("s1", ("p1", "o1"))); Add ("*", ("s1", ("p1", "o2")))] in
  quadCount t = 2%Z ∧
  (keyCount <$> al_get "*" (entries t)) = Some 1%Z ∧
  ((λ hc3, keyCount <$> al_get "s1" (entries hc3)) <$> al_get "*" (entries t))
    = Some (Some 1%Z) ∧
  quads t = [("*", ("s1", ("p1", "o1"))); ("*", ("s1", ("p1", "o2")))].
Proof. by vm_compute. Qed.

Example add_twice_counted_once :
  let q := ("*", ("s1", ("p1", "o1"))) in
  quadCount (run [Add q; Add q]) = 1%Z ∧ (add q (run [Add q])).2 = false.
Proof. by vm_compute. Qed.

Example delete_then_delete_again :
  let q1 := ("*", ("s1", ("p1", "o1"))) in
  let q2 := ("*", ("s1", ("p1", "o2"))) in
  let t := run [Add q1; Add q2; Delete q1] in
  quadCount t = 1%Z ∧ quads t = [q2] ∧
  delete q1 t = (t, false).
Proof. by vm_compute. Qed.

Example delete_last_quad_of_named_graph :
  let q := ("g", ("s1", ("p1", "o1"))) in
  run [Add q; Delete q] = empty.
Proof. by vm_compute. Qed.

(** *** The quad count is the recount *)

(** C4.  In every dataset produced from the empty one by a sequence of
    insertions and deletions, the counters of every node agree with a
    recount (the key count is the number of keys, the quad count is the sum
    of the quad counts of the children, or the size of the object set at a
    leaf); the quad count at the root is the number of quads found by a
    full traversal of the four levels, which are pairwise distinct and are
    exactly the quads inserted and not deleted since; and [size], on a
    dataset constructed over the tree, returns that number. *)
Theorem quad_count_is_recount {PrefixMap : Type} (ops : list op)
    (h0 : heap) (h_prefixes : PrefixMap) (b_prefixed : option bool) :
  graphs_ok (run ops) ∧
  quadCount (run ops) = Z.of_nat (length (quads (run ops))) ∧
  NoDup (quads (run ops)) ∧
  (∀ q, q ∈ quads (run ops) ↔ stored ops q) ∧
  size (constructor (store (run ops) h0).2 h_prefixes b_prefixed
          (store (run ops) h0).1)
       (store (run ops) h0).1 =
  VNum (Z.of_nat (length (quads (run ops)))).
Proof.
  destruct (run_ok ops) as [Hok Hq]. split_and!.
  - done.
  - by apply graphs_count_length.
  - by apply quads_NoDup.
  - done.
  - unfold size, store. simpl. rewrite store_node_root.
    by rewrite graphs_count_length.
Qed.

End BasicQuadTreeFacts.

(** * Further properties of the overlay engine *)

(** ** Writes to one key are invisible to lookups of another *)

Lemma get_put_other_key h l l' k k' v :
  heap_wf h → k ≠ k' → get (put h l k v) l' k' = get h l' k'.
Proof.
  intros Hwf Hne. symmetry. apply get_agree; [done|]. intros x _.
  destruct (decide (x = l)) as [->|Hx].
  - unfold agree_on. destruct (obj_at h l) as [o|] eqn:Ho.
    + rewrite (obj_at_put_eq _ _ _ _ _ Ho). simpl.
      split; [done|]. by rewrite al_get_set_ne.
    + unfold put. by rewrite Ho, Ho.
  - apply agree_on_same. by rewrite obj_at_put_ne.
Qed.

Lemma forin_keys_put_sym h l l' y v :
  heap_wf h → forin_keys (put h l (PSym y) v) l' = forin_keys h l'.
Proof.
  intros Hwf. symmetry. apply forin_keys_agree; [done|]. intros x _.
  destruct (decide (x = l)) as [->|Hx].
  - unfold agree_keys. destruct (obj_at h l) as [o|] eqn:Ho.
    + rewrite (obj_at_put_eq _ _ _ _ _ Ho). simpl.
      split; [done|]. unfold own_keys. simpl. symmetry. apply own_keys_set_sym.
    + unfold put. by rewrite Ho, Ho.
  - apply agree_keys_same. by rewrite obj_at_put_ne.
Qed.

Lemma filter_nothing_shadowed (ks : list string) :
  filter (λ k, k ∉ @nil string) ks = ks.
Proof.
  induction ks as [|k ks IH]; [done|].
  rewrite filter_cons_True by apply not_elem_of_nil. by rewrite IH.
Qed.

Lemma al_set_same {K V} `{EqDecision K} (k : K) (v : V) (l : list (K * V)) :
  al_get k l = Some v → al_set k v l = l.
Proof.
  induction l as [|[k' v'] l IH]; simpl; [done|].
  destruct (decide (k = k')) as [->|]; [by intros [= ->]|].
  intros Hg. by rewrite IH.
Qed.

Lemma al_del_absent {K V} `{EqDecision K} (k : K) (l : list (K * V)) :
  al_get k l = None → al_del k l = l.
Proof.
  induction l as [|[k' v'] l IH]; simpl; [done|].
  destruct (decide (k = k')); [done|]. intros Hg. by rewrite IH.
Qed.

(** ** The heap after [overlay], seen from any older node *)

Lemma overlay_obj_old h src l :
  is_node h src → l < length h → l ≠ src →
  obj_at (overlay src h).1 l = obj_at h l.
Proof. intros. unfold obj_at. by rewrite overlay_lookup_other. Qed.

Lemma overlay_get_old h src l k :
  heap_wf h → is_node h src → l < length h → k ≠ PSym BURIED →
  get (overlay src h).1 l k = get h l k.
Proof.
  intros Hwf Hn Hl Hk. pose proof Hn as [o Ho]. symmetry.
  apply get_agree; [done|]. intros x Hx.
  destruct (decide (x = src)) as [->|Hne].
  - unfold agree_on. rewrite (overlay_src_cell _ _ _ Ho), Ho. simpl.
    split; [done|]. by rewrite al_get_set_ne.
  - apply agree_on_same. symmetry. apply overlay_obj_old; [done|lia|done].
Qed.

Lemma overlay_forin_old h src l :
  heap_wf h → is_node h src → l < length h →
  forin_keys (overlay src h).1 l = forin_keys h l.
Proof.
  intros Hwf Hn Hl. pose proof Hn as [o Ho]. symmetry.
  apply forin_keys_agree; [done|]. intros x Hx.
  destruct (decide (x = src)) as [->|Hne].
  - unfold agree_keys. rewrite (overlay_src_cell _ _ _ Ho), Ho. simpl.
    split; [done|]. unfold own_keys. simpl. symmetry. apply own_keys_set_sym.
  - apply agree_keys_same. symmetry. apply overlay_obj_old; [done|lia|done].
Qed.

(** What the new node answers, key by key. *)
Lemma overlay_get_dst h src k :
  heap_wf h → is_node h src →
  get (overlay src h).1 (length h) k =
  if decide (k = PSym OVERLAY) then VNum 1
  else if decide (k = PSym BURIED) then VNum 1
  else get h src k.
Proof.
  intros Hwf Hn. pose proof Hn as [o Ho].
  pose proof (obj_at_lt _ _ _ Ho) as Hlt.
  rewrite (get_delegate _ _ _ _ (heap_wf_overlay h src Hwf Hn)
             (overlay_dst_cell h src Hn)).
  cbn [props proto al_get from_option].
  destruct (decide (k = PSym OVERLAY)) as [->|Hk1]; [done|].
  destruct (decide (k = PSym BURIED)) as [->|Hk2].
  - rewrite (get_delegate _ _ _ _ (heap_wf_overlay h src Hwf Hn)
               (overlay_src_cell _ _ _ Ho)).
    cbn [props]. by rewrite al_get_set_eq.
  - by apply overlay_get_old.
Qed.

Lemma overlay_forin_dst h src :
  heap_wf h → is_node h src →
  forin_keys (overlay src h).1 (length h) = forin_keys h src.
Proof.
  intros Hwf Hn. pose proof Hn as [o Ho].
  pose proof (obj_at_lt _ _ _ Ho) as Hlt.
  rewrite forin_keys_unfold by (by apply heap_wf_overlay).
  rewrite (overlay_dst_cell h src Hn). cbn [proto own_keys props omap list_omap str_key fst app].
  rewrite filter_nothing_shadowed. by apply overlay_forin_old.
Qed.

Lemma overlay_snd h src : is_node h src → (overlay src h).2 = length h.
Proof. intros Hn. by rewrite overlay_eq. Qed.

(** ** An overlay starts as a view of its source *)

(** X1.  The node [overlay] returns answers the key count and the quad
    count of its source (read through the prototype, nothing is copied),
    enumerates exactly the keys of the source in the same order, and owns
    nothing but the overlay marker. *)
Theorem overlay_inherits_counters_and_keys (h : heap) (src : loc) (h' : heap) (d : loc) :
  heap_wf h → is_node h src →
  overlay src h = (h', d) →
  get h' d (PSym KEYS) = get h src (PSym KEYS) ∧
  get h' d (PSym QUADS) = get h src (PSym QUADS) ∧
  forin_keys h' d = forin_keys h src ∧
  (props <$> obj_at h' d) = Some [(PSym OVERLAY, VNum 1)] ∧
  length h' = S (length h).
Proof.
  intros Hwf Hn Ho.
  assert (Hh' : h' = (overlay src h).1) by (by rewrite Ho).
  assert (Hd : d = length h) by (by rewrite <- (overlay_snd h src Hn), Ho).
  subst h' d. split_and!.
  - by rewrite overlay_get_dst.
  - by rewrite overlay_get_dst.
  - by apply overlay_forin_dst.
  - by rewrite overlay_dst_cell.
  - rewrite overlay_eq by done. simpl.
    rewrite length_app, put_length. simpl. lia.
Qed.

Lemma overlay_inherits_counters_and_keys_witness :
  heap_wf sample_heap ∧ is_node sample_heap sample_root ∧
  get (overlay sample_root sample_heap).1 4 (PSym QUADS) = VNum 2 ∧
  forin_keys (overlay sample_root sample_heap).1 4 = ["*"].
Proof.
  assert (Hwf : heap_wf sample_heap) by (apply heap_wfb_sound; reflexivity).
  assert (Hn : is_node sample_heap sample_root) by (vm_compute; eauto).
  destruct (overlay_inherits_counters_and_keys sample_heap sample_root
              (overlay sample_root sample_heap).1 4 Hwf Hn eq_refl)
    as (_ & Hq & Hf & _).
  split_and!; [done | done | |].
  - rewrite Hq. reflexivity.
  - rewrite Hf. reflexivity.
Defined.

(** X2.  The node [overlay] returns reads as buried: it owns no buried
    marker, but the lookup finds the marker just set on its source.  Only
    an own-property test tells a fresh overlay from a tree that was itself
    overlaid. *)
Theorem overlay_reads_as_buried (h : heap) (src : loc) (h' : heap) (d : loc) :
  heap_wf h → is_node h src →
  overlay src h = (h', d) →
  own_get h' d (PSym BURIED) = None ∧
  get h' d (PSym BURIED) = VNum 1 ∧
  own_get h' d (PSym OVERLAY) = Some (VNum 1) ∧
  get h' src (PSym OVERLAY) = get h src (PSym OVERLAY).
Proof.
  intros Hwf Hn Ho.
  assert (Hh' : h' = (overlay src h).1) by (by rewrite Ho).
  assert (Hd : d = length h) by (by rewrite <- (overlay_snd h src Hn), Ho).
  subst h' d. pose proof Hn as [o Hsrc].
  split_and!.
  - unfold own_get. by rewrite overlay_dst_cell.
  - by rewrite overlay_get_dst.
  - unfold own_get. by rewrite overlay_dst_cell.
  - apply overlay_get_old; [done|done|by eapply obj_at_lt|done].
Qed.

Lemma overlay_reads_as_buried_witness :
  heap_wf sample_heap ∧ is_node sample_heap sample_root ∧
  get sample_heap sample_root (PSym BURIED) = VUndef ∧
  get (overlay sample_root sample_heap).1 4 (PSym BURIED) = VNum 1.
Proof.
  assert (Hwf : heap_wf sample_heap) by (apply heap_wfb_sound; reflexivity).
  assert (Hn : is_node sample_heap sample_root) by (vm_compute; eauto).
  destruct (overlay_reads_as_buried sample_heap sample_root
              (overlay sample_root sample_heap).1 4 Hwf Hn eq_refl)
    as (_ & Hb & _).
  split_and!; [done | done | reflexivity | done].
Defined.

(** ** Overlays under later mutation *)

(** The state after [overlay] and any own-property mutations of the new
    node: the node still delegates to its source, and nothing older than it
    has changed. *)
Lemma overlay_then_ops h src ops :
  heap_wf h → is_node h src →
  heap_wf (apply_ops (length h) (overlay src h).1 ops) ∧
  (∃ o, obj_at (apply_ops (length h) (overlay src h).1 ops) (length h) = Some o ∧
        proto o = Some src) ∧
  (∀ x, x < length h →
        apply_ops (length h) (overlay src h).1 ops !! x = (overlay src h).1 !! x) ∧
  (∀ l k, l < length h → k ≠ PSym BURIED →
        get (apply_ops (length h) (overlay src h).1 ops) l k = get h l k) ∧
  (∀ l, l < length h →
        forin_keys (apply_ops (length h) (overlay src h).1 ops) l = forin_keys h l).
Proof.
  intros Hwf Hn.
  pose proof (heap_wf_overlay h src Hwf Hn) as Hwf'.
  assert (Hsame : ∀ x, x < length h →
            apply_ops (length h) (overlay src h).1 ops !! x = (overlay src h).1 !! x).
  { intros x Hx. apply apply_ops_lookup_ne. lia. }
  split_and!.
  - by apply heap_wf_apply_ops.
  - destruct (apply_ops_proto (length h) ops _ _ (overlay_dst_cell h src Hn))
      as (o & Ho & Hp). eauto.
  - done.
  - intros l k Hl Hk. rewrite <- (overlay_get_old h src l k) by done.
    symmetry. apply get_below; [done|]. intros x Hx. symmetry. apply Hsame. lia.
  - intros l Hl. rewrite <- (overlay_forin_old h src l) by done.
    symmetry. apply forin_keys_below; [done|]. intros x Hx. symmetry.
    apply Hsame. lia.
Qed.

Lemma lookup_chain_delegate h d o k :
  heap_wf h → obj_at h d = Some o →
  lookup_chain h d k =
  match al_get k (props o) with
  | Some v => Some v
  | None => p ← proto o; lookup_chain h p k
  end.
Proof.
  intros Hwf Ho. rewrite lookup_chain_unfold, Ho by done.
  destruct (al_get k (props o)); [done|]. by destruct (proto o).
Qed.

(** X3.  A write to a buried source shows through every overlay that does
    not own the key: after [overlay], whatever own properties the new node
    has gained or lost since, assigning [src[k] = v] makes [d[k]] read [v]
    and, for a string key, makes the key enumerate on [d].  This is the
    sharing the buried marker warns about. *)
Theorem buried_source_write_shows_through (h : heap) (src : loc) (h' : heap) (d : loc)
    (ops : list own_op) (k : pkey) (v : value) :
  heap_wf h → is_node h src →
  overlay src h = (h', d) →
  own_get (apply_ops d h' ops) d k = None →
  get (put (apply_ops d h' ops) src k v) d k = v ∧
  ∀ s, k = PStr s → s ∈ forin_keys (put (apply_ops d h' ops) src k v) d.
Proof.
  intros Hwf Hn Ho Hown.
  assert (Hh' : h' = (overlay src h).1) by (by rewrite Ho).
  assert (Hd : d = length h) by (by rewrite <- (overlay_snd h src Hn), Ho).
  subst h' d. pose proof Hn as [o Hsrc].
  pose proof (obj_at_lt _ _ _ Hsrc) as Hlt.
  destruct (overlay_then_ops h src ops Hwf Hn)
    as (Hwf2 & (o2 & Ho2 & Hp2) & Hsame & _).
  set (h2 := apply_ops (length h) (overlay src h).1 ops) in *.
  assert (Hsrc2 : is_Some (obj_at h2 src)).
  { unfold obj_at. rewrite Hsame by done.
    fold (obj_at (overlay src h).1 src). rewrite (overlay_src_cell _ _ _ Hsrc). eauto. }
  destruct Hsrc2 as [o3 Ho3].
  assert (Hlk : lookup_chain (put h2 src k v) (length h) k = Some v).
  { rewrite (lookup_chain_delegate _ _ o2);
      [|by apply heap_wf_put|by rewrite obj_at_put_ne by lia].
    unfold own_get in Hown. rewrite Ho2 in Hown. simpl in Hown. rewrite Hown, Hp2.
    simpl. rewrite (lookup_chain_delegate _ _ _ _ (heap_wf_put _ _ _ _ Hwf2)
                      (obj_at_put_eq _ _ k v _ Ho3)).
    simpl. by rewrite al_get_set_eq. }
  split.
  - unfold get. by rewrite Hlk.
  - intros s ->. apply forin_keys_is_Some; [by apply heap_wf_put|].
    rewrite Hlk. eauto.
Qed.

Lemma buried_source_write_shows_through_witness :
  heap_wf sample_heap ∧ is_node sample_heap sample_root ∧
  get (put (apply_ops 4 (overlay sample_root sample_heap).1
              [OpSet (PStr "g") (VNum 5)])
           sample_root (PStr "late") (VNum 9))
      4 (PStr "late") = VNum 9.
Proof.
  assert (Hwf : heap_wf sample_heap) by (apply heap_wfb_sound; reflexivity).
  assert (Hn : is_node sample_heap sample_root) by (vm_compute; eauto).
  split_and!; [done | done |].
  apply (buried_source_write_shows_through sample_heap sample_root
           (overlay sample_root sample_heap).1 4
           [OpSet (PStr "g") (VNum 5)] (PStr "late") (VNum 9) Hwf Hn eq_refl).
  reflexivity.
Defined.

(** X4.  Deleting a key on an overlay never hides the entry of the source:
    after [delete d[k]], whatever came before, [d] does not own [k], the
    lookup falls back to what the source held when it was buried, and [k]
    enumerates on [d] exactly when it enumerates on the source. *)
Theorem delete_on_overlay_falls_back (h : heap) (src : loc) (h' : heap) (d : loc)
    (ops : list own_op) (k : string) :
  heap_wf h → is_node h src →
  overlay src h = (h', d) →
  own_get (apply_ops d h' (ops ++ [OpDelete (PStr k)])) d (PStr k) = None ∧
  get (apply_ops d h' (ops ++ [OpDelete (PStr k)])) d (PStr k) = get h src (PStr k) ∧
  (k ∈ forin_keys (apply_ops d h' (ops ++ [OpDelete (PStr k)])) d ↔
   k ∈ forin_keys h src).
Proof.
  intros Hwf Hn Ho.
  assert (Hh' : h' = (overlay src h).1) by (by rewrite Ho).
  assert (Hd : d = length h) by (by rewrite <- (overlay_snd h src Hn), Ho).
  subst h' d. pose proof Hn as [o Hsrc].
  pose proof (obj_at_lt _ _ _ Hsrc) as Hlt.
  destruct (overlay_then_ops h src ops Hwf Hn) as (Hwf1 & (o1 & Ho1 & Hp1) & _).
  destruct (overlay_then_ops h src (ops ++ [OpDelete (PStr k)]) Hwf Hn)
    as (Hwf2 & (o2 & Ho2 & Hp2) & _ & Hget & Hforin).
  set (h2 := apply_ops (length h) (overlay src h).1 (ops ++ [OpDelete (PStr k)])) in *.
  assert (Hown : al_get (PStr k) (props o2) = None).
  { unfold h2 in Ho2. rewrite apply_ops_snoc in Ho2. cbn [apply_op] in Ho2.
    unfold remove in Ho2. rewrite Ho1 in Ho2.
    rewrite obj_at_insert_eq in Ho2 by (by eapply obj_at_lt).
    injection Ho2 as <-. simpl. apply al_get_del_eq. by destruct (Hwf1 _ _ Ho1). }
  assert (Hlk : lookup_chain h2 (length h) (PStr k) = lookup_chain h2 src (PStr k)).
  { rewrite (lookup_chain_delegate _ _ o2) by done. by rewrite Hown, Hp2. }
  split_and!.
  - unfold own_get. by rewrite Ho2.
  - unfold get at 1. rewrite Hlk. fold (get h2 src (PStr k)). by apply Hget.
  - rewrite forin_keys_is_Some, Hlk, <- forin_keys_is_Some by done.
    by rewrite Hforin.
Qed.

Lemma delete_on_overlay_falls_back_witness :
  heap_wf sample_heap ∧ is_node sample_heap sample_root ∧
  get (apply_ops 4 (overlay sample_root sample_heap).1
         ([OpSet (PStr "*") (VNum 7)] ++ [OpDelete (PStr "*")]))
      4 (PStr "*") = VRef 2.
Proof.
  assert (Hwf : heap_wf sample_heap) by (apply heap_wfb_sound; reflexivity).
  assert (Hn : is_node sample_heap sample_root) by (vm_compute; eauto).
  destruct (delete_on_overlay_falls_back sample_heap sample_root
              (overlay sample_root sample_heap).1 4
              [OpSet (PStr "*") (VNum 7)] "*" Hwf Hn eq_refl) as (_ & Hg & _).
  split_and!; [done | done |]. rewrite Hg. reflexivity.
Defined.

(** X5.  Two overlays of one source do not see each other: after [overlay]
    is taken twice from [src], the second call leaves [src] as the first
    one left it, and whatever own properties the first overlay gains or
    loses, the second still answers every key but the two markers, and
    enumerates, as [src] did before either derivation. *)
Theorem sibling_overlays_independent (h : heap) (src : loc)
    (h1 : heap) (d1 : loc) (h2 : heap) (d2 : loc) (ops : list own_op) :
  heap_wf h → is_node h src →
  overlay src h = (h1, d1) → overlay src h1 = (h2, d2) →
  d1 ≠ d2 ∧
  obj_at h2 src = obj_at h1 src ∧
  (∀ k, k ≠ PSym OVERLAY → k ≠ PSym BURIED →
        get (apply_ops d1 h2 ops) d2 k = get h src k) ∧
  forin_keys (apply_ops d1 h2 ops) d2 = forin_keys h src.
Proof.
  intros Hwf Hn Ho1 Ho2. pose proof Hn as [o Hsrc].
  pose proof (obj_at_lt _ _ _ Hsrc) as Hlt.
  assert (Hh1 : h1 = (overlay src h).1) by (by rewrite Ho1).
  assert (Hd1 : d1 = length h) by (by rewrite <- (overlay_snd h src Hn), Ho1).
  assert (Hwf1 : heap_wf h1) by (rewrite Hh1; by apply heap_wf_overlay).
  assert (Hsrc1 : obj_at h1 src =
            Some {| props := al_set (PSym BURIED) (VNum 1) (props o); proto := proto o |})
    by (rewrite Hh1; by apply overlay_src_cell).
  assert (Hn1 : is_node h1 src) by (by eexists).
  assert (Hlen1 : length h1 = S (length h)).
  { rewrite Hh1, overlay_eq by done. simpl. rewrite length_app, put_length. simpl. lia. }
  assert (Hh2 : h2 = (overlay src h1).1) by (by rewrite Ho2).
  assert (Hd2 : d2 = length h1) by (by rewrite <- (overlay_snd h1 src Hn1), Ho2).
  assert (Hwf2 : heap_wf h2) by (rewrite Hh2; by apply heap_wf_overlay).
  assert (Hdst : obj_at (apply_ops d1 h2 ops) d2 =
            Some {| props := [(PSym OVERLAY, VNum 1)]; proto := Some src |}).
  { unfold obj_at. rewrite apply_ops_lookup_ne by lia.
    fold (obj_at h2 d2). rewrite Hh2, Hd2. by apply overlay_dst_cell. }
  assert (Hwf3 : heap_wf (apply_ops d1 h2 ops)) by (by apply heap_wf_apply_ops).
  assert (Hbelow : ∀ x, x ≤ src → h2 !! x = apply_ops d1 h2 ops !! x).
  { intros x Hx. symmetry. apply apply_ops_lookup_ne. lia. }
  assert (Hget : ∀ k, k ≠ PSym BURIED → get (apply_ops d1 h2 ops) src k = get h src k).
  { intros k Hk. rewrite <- (get_below k h2) by done.
    rewrite Hh2, overlay_get_old by (done || lia).
    rewrite Hh1. by apply overlay_get_old. }
  assert (Hforin : forin_keys (apply_ops d1 h2 ops) src = forin_keys h src).
  { rewrite <- (forin_keys_below h2) by done.
    rewrite Hh2, overlay_forin_old by (done || lia).
    rewrite Hh1. by apply overlay_forin_old. }
  split_and!.
  - lia.
  - rewrite Hh2, (overlay_src_cell _ _ _ Hsrc1), Hsrc1. simpl.
    by rewrite (al_set_same _ _ _ (al_get_set_eq _ _ _)).
  - intros k Hk1 Hk2. rewrite (get_delegate _ _ _ _ Hwf3 Hdst).
    cbn [props proto al_get from_option].
    rewrite decide_False by done. by apply Hget.
  - rewrite forin_keys_unfold, Hdst by done.
    cbn [proto own_keys props omap list_omap str_key fst app].
    by rewrite filter_nothing_shadowed.
Qed.

Lemma sibling_overlays_independent_witness :
  heap_wf sample_heap ∧ is_node sample_heap sample_root ∧
  get (apply_ops 4 (overlay sample_root (overlay sample_root sample_heap).1).1
         [OpSet (PStr "*") (VNum 7); OpSet (PSym QUADS) (VNum 3)])
      5 (PStr "*") = VRef 2.
Proof.
  assert (Hwf : heap_wf sample_heap) by (apply heap_wfb_sound; reflexivity).
  assert (Hn : is_node sample_heap sample_root) by (vm_compute; eauto).
  destruct (sibling_overlays_independent sample_heap sample_root
              (overlay sample_root sample_heap).1 4
              (overlay sample_root (overlay sample_root sample_heap).1).1 5
              [OpSet (PStr "*") (VNum 7); OpSet (PSym QUADS) (VNum 3)]
              Hwf Hn eq_refl eq_refl) as (_ & _ & Hg & _).
  split_and!; [done | done |]. by rewrite Hg.
Defined.

(** ** [trace] composed with [overlay] and with itself *)

Lemma traced_cell_ext h l h' l' :
  forin_keys h' l' = forin_keys h l →
  (∀ k, k ≠ PSym OVERLAY → k ≠ PSym BURIED → get h' l' k = get h l k) →
  traced_cell h' l' = traced_cell h l.
Proof.
  intros Hf Hg. unfold traced_cell, traced_props. rewrite Hf, !Hg by done.
  do 3 f_equal. apply list_fmap_ext. intros _ k _. by rewrite Hg.
Qed.

(** X6.  Tracing an overlay undoes the derivation: [trace] applied to the
    node [overlay] returned builds the very object [trace] would have
    built from the source itself, with the keys, values and counters the
    source had before it was buried, and without either marker. *)
Theorem trace_of_overlay_copies_source (h : heap) (src : loc)
    (h1 : heap) (d : loc) (h2 : heap) (t : loc) :
  heap_wf h → is_node h src →
  overlay src h = (h1, d) → trace d h1 = (h2, t) →
  h2 !! t = (trace src h).1 !! (trace src h).2 ∧
  forin_keys h2 t = forin_keys h src ∧
  (∀ k, get h2 t k =
        if decide (k = PSym OVERLAY ∨ k = PSym BURIED) then VUndef
        else get h src k).
Proof.
  intros Hwf Hn Ho Ht. pose proof Hn as [o Hsrc].
  pose proof (obj_at_lt _ _ _ Hsrc) as Hlt.
  assert (Hh1 : h1 = (overlay src h).1) by (by rewrite Ho).
  assert (Hd : d = length h) by (by rewrite <- (overlay_snd h src Hn), Ho).
  assert (Hwf1 : heap_wf h1) by (rewrite Hh1; by apply heap_wf_overlay).
  assert (Hlen1 : length h1 = S (length h)).
  { rewrite Hh1, overlay_eq by done. simpl. rewrite length_app, put_length. simpl. lia. }
  rewrite trace_eq in Ht by (done || lia). injection Ht as <- <-.
  assert (Hcell : traced_cell h1 d = traced_cell h src).
  { apply traced_cell_ext.
    - rewrite Hh1, Hd. by apply overlay_forin_dst.
    - intros k Hk1 Hk2. rewrite Hh1, Hd, overlay_get_dst by done.
      by rewrite !decide_False. }
  rewrite Hcell. unfold traced_cell. split_and!.
  - rewrite trace_eq by done. simpl.
    rewrite !lookup_app_r by lia. by rewrite !Nat.sub_diag.
  - rewrite forin_keys_snoc_flat. apply own_keys_traced.
  - intros k. rewrite get_snoc_flat.
    destruct k as [s|y].
    + rewrite decide_False by (by intros [?|?]).
      rewrite traced_get_str by done.
      destruct (decide (s ∈ forin_keys h src)); [done|].
      simpl. symmetry. by apply get_not_enumerated.
    + rewrite traced_get_sym. by destruct y.
Qed.

Lemma trace_of_overlay_copies_source_witness :
  heap_wf sample_heap ∧ is_node sample_heap sample_root ∧
  get (trace 4 (overlay sample_root sample_heap).1).1 5 (PSym BURIED) = VUndef ∧
  get (trace 4 (overlay sample_root sample_heap).1).1 5 (PStr "*") = VRef 2.
Proof.
  assert (Hwf : heap_wf sample_heap) by (apply heap_wfb_sound; reflexivity).
  assert (Hn : is_node sample_heap sample_root) by (vm_compute; eauto).
  destruct (trace_of_overlay_copies_source sample_heap sample_root
              (overlay sample_root sample_heap).1 4
              (trace 4 (overlay sample_root sample_heap).1).1 5
              Hwf Hn eq_refl eq_refl) as (_ & _ & Hg).
  split_and!; [done | done | by rewrite Hg | by rewrite Hg].
Defined.

(** X7.  [trace] is idempotent: tracing the node a first [trace] returned
    builds an object with the same own properties, in the same order. *)
Theorem trace_idempotent (h : heap) (n : loc) (h1 : heap) (t1 : loc)
    (h2 : heap) (t2 : loc) :
  heap_wf h → is_node h n →
  trace n h = (h1, t1) → trace t1 h1 = (h2, t2) →
  t2 ≠ t1 ∧ h2 !! t2 = h1 !! t1 ∧ h2 !! t1 = h1 !! t1.
Proof.
  intros Hwf [o Ho] Ht1 Ht2. pose proof (obj_at_lt _ _ _ Ho) as Hlt.
  assert (Hwf1 : heap_wf h1).
  { replace h1 with (trace n h).1 by (by rewrite Ht1). by apply heap_wf_trace. }
  rewrite trace_eq in Ht1 by done. injection Ht1 as <- <-.
  rewrite trace_eq in Ht2 by (done || rewrite length_app; simpl; lia).
  injection Ht2 as <- <-.
  assert (Hcell : traced_cell (h ++ [traced_cell h n]) (length h) = traced_cell h n).
  { unfold traced_cell at 2. apply traced_cell_ext.
    - rewrite forin_keys_snoc_flat. apply own_keys_traced.
    - intros k Hk1 Hk2. rewrite get_snoc_flat. destruct k as [s|y].
      + rewrite traced_get_str by done.
        destruct (decide (s ∈ forin_keys h n)); [done|].
        simpl. symmetry. by apply get_not_enumerated.
      + rewrite traced_get_sym. by destruct y. }
  rewrite Hcell. split_and!.
  - rewrite length_app. simpl. lia.
  - rewrite lookup_app_r by lia. rewrite Nat.sub_diag. simpl.
    rewrite lookup_app_r by lia. by rewrite Nat.sub_diag.
  - rewrite lookup_app_l; [done|]. rewrite length_app. simpl. lia.
Qed.

Lemma trace_idempotent_witness :
  heap_wf sample_overlaid ∧ is_node sample_overlaid sample_overlay ∧
  (trace 6 (trace sample_overlay sample_overlaid).1).1 !! 7 =
  (trace sample_overlay sample_overlaid).1 !! 6.
Proof.
  assert (Hwf : heap_wf sample_overlaid) by (apply heap_wfb_sound; reflexivity).
  assert (Hn : is_node sample_overlaid sample_overlay) by (vm_compute; eauto).
  destruct (trace_idempotent sample_overlaid sample_overlay
              (trace sample_overlay sample_overlaid).1 6
              (trace 6 (trace sample_overlay sample_overlaid).1).1 7
              Hwf Hn eq_refl eq_refl) as (_ & Hc & _).
  split_and!; done.
Defined.

(** Lookup and enumeration on an object that has no prototype only read
    its own cell. *)
Lemma get_flat h l o k :
  obj_at h l = Some o → proto o = None →
  get h l k = default VUndef (al_get k (props o)).
Proof.
  intros Ho Hp. unfold get, lookup_chain. simpl. rewrite Ho, Hp.
  by destruct (al_get k (props o)).
Qed.

Lemma forin_keys_flat h l o :
  obj_at h l = Some o → proto o = None → forin_keys h l = own_keys o.
Proof.
  intros Ho Hp. unfold forin_keys. simpl. rewrite Ho, Hp. by rewrite app_nil_r.
Qed.

(** X8.  The node [trace] returns is a snapshot: whatever own properties
    are later set or removed on any other node (the traced node, its
    sources, anything else), the copy keeps answering every string key and
    both counters as the traced node did at the time of the call, and keeps
    enumerating the same keys. *)
Theorem traced_node_is_a_snapshot (h : heap) (n : loc) (h' : heap) (t : loc)
    (l : loc) (ops : list own_op) :
  heap_wf h → is_node h n →
  trace n h = (h', t) → l ≠ t →
  (∀ k : string, get (apply_ops l h' ops) t (PStr k) = get h n (PStr k)) ∧
  get (apply_ops l h' ops) t (PSym KEYS) = get h n (PSym KEYS) ∧
  get (apply_ops l h' ops) t (PSym QUADS) = get h n (PSym QUADS) ∧
  forin_keys (apply_ops l h' ops) t = forin_keys h n.
Proof.
  intros Hwf [o Ho] Ht Hl. pose proof (obj_at_lt _ _ _ Ho) as Hlt.
  rewrite trace_eq in Ht by done. injection Ht as <- <-.
  assert (Hcell : obj_at (apply_ops l (h ++ [traced_cell h n]) ops) (length h) =
            Some {| props := traced_props h n; proto := None |}).
  { unfold obj_at. rewrite apply_ops_lookup_ne by done.
    fold (obj_at (h ++ [traced_cell h n]) (length h)). by rewrite obj_at_snoc. }
  split_and!.
  - intros k. rewrite (get_flat _ _ _ _ Hcell eq_refl). simpl.
    rewrite traced_get_str by done.
    destruct (decide (k ∈ forin_keys h n)); [done|].
    simpl. symmetry. by apply get_not_enumerated.
  - rewrite (get_flat _ _ _ _ Hcell eq_refl). simpl. by rewrite traced_get_sym.
  - rewrite (get_flat _ _ _ _ Hcell eq_refl). simpl. by rewrite traced_get_sym.
  - rewrite (forin_keys_flat _ _ _ Hcell eq_refl). apply own_keys_traced.
Qed.

Lemma traced_node_is_a_snapshot_witness :
  heap_wf sample_overlaid ∧ is_node sample_overlaid sample_overlay ∧
  get (apply_ops sample_root (trace sample_overlay sample_overlaid).1
         [OpSet (PStr "*") (VNum 0); OpDelete (PSym KEYS)])
      6 (PStr "*") = VRef 2.
Proof.
  assert (Hwf : heap_wf sample_overlaid) by (apply heap_wfb_sound; reflexivity).
  assert (Hn : is_node sample_overlaid sample_overlay) by (vm_compute; eauto).
  assert (Hl : sample_root ≠ 6) by (by vm_compute).
  destruct (traced_node_is_a_snapshot sample_overlaid sample_overlay
              (trace sample_overlay sample_overlaid).1 6 sample_root
              [OpSet (PStr "*") (VNum 0); OpDelete (PSym KEYS)]
              Hwf Hn eq_refl Hl) as (Hg & _).
  split_and!; [done | done |]. by rewrite Hg.
Defined.

(** * Further properties of the dataset methods *)

(** ** Heaps extended by sets only *)

Lemma obj_at_app_sets (h ext : heap) l :
  Forall (λ c, is_set c = true) ext → obj_at (h ++ ext) l = obj_at h l.
Proof.
  intros Hext. destruct (decide (l < length h)) as [Hl|Hl].
  - by apply obj_at_app_l.
  - unfold obj_at. rewrite lookup_app_r by lia.
    rewrite (lookup_ge_None_2 h l) by lia.
    destruct (ext !! (l - length h)) as [c|] eqn:E; [|done].
    rewrite Forall_forall in Hext.
    specialize (Hext c (list_elem_of_lookup_2 _ _ _ E)). by destruct c.
Qed.

Lemma object_keys_app_sets (h ext : heap) v :
  Forall (λ c, is_set c = true) ext → object_keys (h ++ ext) v = object_keys h v.
Proof. intros Hext. destruct v; simpl; [done..|]. by rewrite obj_at_app_sets. Qed.

Lemma get_app_sets (h ext : heap) l k :
  heap_wf h → l < length h → get (h ++ ext) l k = get h l k.
Proof. apply get_app_l. Qed.

Lemma foldl_add_elem_restart (es ks : list string) :
  NoDup es → foldl add_elem [] (es ++ ks) = foldl add_elem es ks.
Proof.
  intros Hnd. rewrite foldl_app. by rewrite (foldl_add_elem_fresh es []).
Qed.

Lemma forallb_elem_of {A} (f : A → bool) (l : list A) x :
  forallb f l = true → x ∈ l → f x = true.
Proof.
  intros Hall Hx. rewrite forallb_forall in Hall.
  apply Hall. by apply list_elem_of_In.
Qed.

(** ** The multi-graph branch of [distinctSubjectCount], in closed form *)

Lemma count_step_None root (gs : list string) :
  foldl (count_step root) None gs = None.
Proof. induction gs as [|g gs IH]; [done|]. simpl. apply IH. Qed.

Lemma own_subjects_step_None h root (gs : list string) :
  foldl (own_subjects_step h root) None gs = None.
Proof. induction gs as [|g gs IH]; [done|]. simpl. apply IH. Qed.

Lemma count_loop h root (gs : list string) :
  heap_wf h → root < length h → ∀ (ext : heap) (es : list string),
  Forall (λ c, is_set c = true) ext →
  match foldl (own_subjects_step h root) (Some es) gs with
  | Some es' =>
      ∃ ext' : heap,
        Forall (λ c, is_set c = true) ext' ∧
        length ext' = length ext + length gs ∧
        foldl (count_step root) (Some ((h ++ ext) ++ [CSet es], length (h ++ ext))) gs =
        Some ((h ++ ext') ++ [CSet es'], length (h ++ ext'))
  | None =>
      foldl (count_step root) (Some ((h ++ ext) ++ [CSet es], length (h ++ ext))) gs =
      None
  end.
Proof.
  intros Hwf Hroot. induction gs as [|g gs IH]; intros ext es Hext.
  - simpl. exists ext. split_and!; [done|lia|done].
  - cbn [foldl]. unfold own_subjects_step at 2, count_step at 2 4.
    cbn [mbind option_bind].
    rewrite <- !(assoc_L (++) h ext [CSet es]).
    rewrite get_app_l by done.
    rewrite object_keys_app_sets
      by (apply Forall_app; split; [done|by apply Forall_singleton]).
    destruct (object_keys h (get h root (PStr g))) as [ks|].
    + cbn [mbind option_bind].
      rewrite (assoc_L (++) h ext [CSet es]), set_elems_snoc.
      unfold new_set_from, alloc.
      rewrite <- (assoc_L (++) h ext [CSet es]).
      assert (Hext2 : Forall (λ c, is_set c = true) (ext ++ [CSet es]))
        by (apply Forall_app; split; [done|by apply Forall_singleton]).
      specialize (IH (ext ++ [CSet es]) (foldl add_elem [] (es ++ ks)) Hext2).
      destruct (foldl (own_subjects_step h root)
                  (Some (foldl add_elem [] (es ++ ks))) gs) as [es'|].
      * destruct IH as (ext' & Hext' & Hlen & Hfold). exists ext'.
        split_and!; [done| |done]. rewrite Hlen, length_app. simpl. lia.
      * done.
    + cbn [mbind option_bind].
      rewrite own_subjects_step_None. apply count_step_None.
Qed.

Section subject_count.
Context {PrefixMap : Type}.
Implicit Types this : GenericQuadTree PrefixMap.

(** Both branches, with the heap the method leaves. *)
Lemma distinctSubjectCount_single this h :
  VNum 1 = get h (_hc4_quads this) (PSym KEYS) →
  distinctSubjectCount this h =
  (λ n, (h, n)) <$> get_value h (_hc3_trips this) (PSym KEYS).
Proof.
  intros Hk. unfold distinctSubjectCount. rewrite decide_True by done.
  by destruct (get_value h (_hc3_trips this) (PSym KEYS)).
Qed.

Lemma distinctSubjectCount_multi this h :
  heap_wf h → is_node h (_hc4_quads this) →
  VNum 1 ≠ get h (_hc4_quads this) (PSym KEYS) →
  match own_subjects h (_hc4_quads this) with
  | Some es =>
      ∃ ext : heap,
        Forall (λ c, is_set c = true) ext ∧
        length ext = S (length (forin_keys h (_hc4_quads this))) ∧
        distinctSubjectCount this h =
        Some (h ++ ext, VNum (Z.of_nat (length es)))
  | None => distinctSubjectCount this h = None
  end.
Proof.
  intros Hwf [o Ho] Hk. pose proof (obj_at_lt _ _ _ Ho) as Hlt.
  unfold distinctSubjectCount. rewrite decide_False by done.
  change (foldl _ (Some (new_set h)) (forin_keys h (_hc4_quads this)))
    with (foldl (count_step (_hc4_quads this)) (Some (new_set h))
            (forin_keys h (_hc4_quads this))).
  pose proof (count_loop h (_hc4_quads this) (forin_keys h (_hc4_quads this))
                Hwf Hlt [] [] (Forall_nil_2 _)) as Hloop.
  unfold new_set, alloc. rewrite app_nil_r in Hloop.
  fold (own_subjects h (_hc4_quads this)) in Hloop.
  destruct (own_subjects h (_hc4_quads this)) as [es|].
  - destruct Hloop as (ext & Hext & Hlen & ->). cbn [mbind option_bind].
    exists (ext ++ [CSet es]). split_and!.
    + apply Forall_app. split; [done|by apply Forall_singleton].
    + rewrite length_app, Hlen. simpl. lia.
    + unfold set_size. rewrite set_elems_snoc. by rewrite (assoc_L (++)).
  - by rewrite Hloop.
Qed.

(** X9.  [distinctSubjectCount] never changes the tree: when it returns,
    every cell of the heap is as before.  With one key counted at the root
    it allocates nothing; otherwise it leaves behind one set per enumerated
    graph key and one more, and nothing else. *)
Theorem distinctSubjectCount_read_only this (h h' : heap) (n : value) :
  heap_wf h → is_node h (_hc4_quads this) →
  distinctSubjectCount this h = Some (h', n) →
  preserved h h' ∧
  (VNum 1 = get h (_hc4_quads this) (PSym KEYS) → h' = h) ∧
  (VNum 1 ≠ get h (_hc4_quads this) (PSym KEYS) →
   ∃ ext : heap, h' = h ++ ext ∧ Forall (λ c, is_set c = true) ext ∧
                 length ext = S (length (forin_keys h (_hc4_quads this)))).
Proof.
  intros Hwf Hn Hres.
  destruct (decide (VNum 1 = get h (_hc4_quads this) (PSym KEYS))) as [Hk|Hk].
  - rewrite (distinctSubjectCount_single this h Hk) in Hres.
    destruct (get_value h (_hc3_trips this) (PSym KEYS)); [|done].
    injection Hres as <- _. split_and!; [by intros l c|done|done].
  - pose proof (distinctSubjectCount_multi this h Hwf Hn Hk) as Hm.
    destruct (own_subjects h (_hc4_quads this)) as [es|]; [|congruence].
    destruct Hm as (ext & Hext & Hlen & Heq). rewrite Heq in Hres.
    injection Hres as <- _. split_and!.
    + apply preserved_app.
    + done.
    + intros _. by exists ext.
Qed.

Lemma own_subjects_plain h root (gs : list string) :
  heap_wf h →
  (∀ g, g ∈ gs → plain_value h (get h root (PStr g)) = true) →
  ∀ es : list string, NoDup es →
  foldl (own_subjects_step h root) (Some es) gs =
  Some (foldl (collect_subjects h root) es gs).
Proof.
  intros Hwf. induction gs as [|g gs IH]; intros Hplain es Hnd; [done|].
  cbn [foldl]. unfold own_subjects_step at 2, collect_subjects at 2.
  cbn [mbind option_bind].
  pose proof (Hplain g (list_elem_of_here _ _)) as Hg. unfold plain_value in Hg.
  destruct (get h root (PStr g)) as [| |t]; try done.
  destruct (obj_at h t) as [o|] eqn:Ho; [|done].
  apply bool_decide_eq_true in Hg.
  cbn [object_keys forin_value mbind option_bind]. rewrite Ho. cbn [from_option].
  rewrite (forin_keys_flat _ _ _ Ho Hg), foldl_add_elem_restart by done.
  apply IH.
  - intros g' Hg'. apply Hplain. by right.
  - by apply foldl_add_elem_NoDup.
Qed.

(** X10.  On a dataset with several graphs whose graph-level nodes are
    ordinary objects without a prototype (no overlay among them),
    [distinctSubjectCount] is the size of the set [distinctC1Subjects]
    returns: there the own keys that the counting branch unions are all
    the keys that enumeration visits. *)
Theorem distinctSubjectCount_agrees_on_plain_graphs this (h : heap) :
  heap_wf h → is_node h (_hc4_quads this) →
  VNum 1 ≠ get h (_hc4_quads this) (PSym KEYS) →
  plain_children h (_hc4_quads this) = true →
  subject_count_agrees this h.
Proof.
  intros Hwf Hn Hk Hplain.
  pose proof (distinctSubjectCount_multi this h Hwf Hn Hk) as Hm.
  unfold own_subjects in Hm.
  rewrite (own_subjects_plain h (_hc4_quads this)) in Hm;
    [|done|by intros g Hg; apply (forallb_elem_of _ _ _ Hplain)|apply NoDup_nil_2].
  destruct Hm as (ext & _ & _ & Heq).
  unfold subject_count_agrees. rewrite Heq. simpl.
  unfold distinctC1Subjects. rewrite total_distinct_subjects_eq by done.
  unfold run_set. simpl. by rewrite set_elems_snoc.
Qed.

(** X11.  On a dataset whose root counts one key and enumerates only the
    default graph, with the shortcut referring to the tree stored under
    ["*"] and the key counter of that tree agreeing with its enumeration
    (own and inherited keys), [distinctSubjectCount] returns the size of
    the set [distinctC1Subjects] returns, and leaves the heap as it is. *)
Theorem distinctSubjectCount_agrees_on_default_graph this (h : heap) (t : loc) :
  heap_wf h → is_node h (_hc4_quads this) →
  VNum 1 = get h (_hc4_quads this) (PSym KEYS) →
  forin_keys h (_hc4_quads this) = ["*"] →
  get h (_hc4_quads this) (PStr "*") = VRef t →
  _hc3_trips this = VRef t →
  keys_counted h t →
  subject_count_agrees this h ∧
  (fst <$> distinctSubjectCount this h) = Some h.
Proof.
  intros Hwf Hn Hk Hforin Hstar Hshort Hcount.
  rewrite (distinctSubjectCount_single this h Hk), Hshort.
  assert (Hset : run_set (distinctC1Subjects this h) = forin_keys h t).
  { unfold distinctC1Subjects. rewrite total_distinct_subjects_eq by done.
    unfold run_set. simpl. rewrite set_elems_snoc, Hforin. simpl.
    unfold collect_subjects. rewrite Hstar. simpl.
    apply (foldl_add_elem_fresh _ []). simpl. by apply forin_keys_NoDup. }
  split; [|done]. unfold subject_count_agrees.
  rewrite (distinctSubjectCount_single this h Hk), Hshort, Hset. simpl.
  by rewrite Hcount.
Qed.

(** X12.  A dataset constructed over a root that counts one key but shows
    no default graph throws on [distinctSubjectCount]: the shortcut is
    [undefined] and its key count cannot be read. *)
Theorem distinctSubjectCount_throws_without_default_graph
    (hc4_quads : loc) (h_prefixes : PrefixMap) (b_prefixed : option bool) (h : heap) :
  heap_wf h →
  VNum 1 = get h hc4_quads (PSym KEYS) →
  "*" ∉ forin_keys h hc4_quads →
  distinctSubjectCount (constructor hc4_quads h_prefixes b_prefixed h) h = None.
Proof.
  intros Hwf Hk Hstar. rewrite distinctSubjectCount_single by done.
  simpl. by rewrite get_not_enumerated.
Qed.

Lemma own_subjects_step_hollow h root (gs : list string) g :
  g ∈ gs → object_keys h (get h root (PStr g)) = None →
  ∀ st, foldl (own_subjects_step h root) st gs = None.
Proof.
  intros Hg Hnone. induction gs as [|g' gs IH]; intros st.
  - by apply elem_of_nil in Hg.
  - cbn [foldl]. apply elem_of_cons in Hg as [<-|Hg].
    + unfold own_subjects_step at 2. rewrite Hnone.
      destruct st; apply own_subjects_step_None.
    + by apply IH.
Qed.

(** X13.  With several keys counted at the root, [distinctSubjectCount]
    throws as soon as one enumerated graph key holds [undefined]
    ([Object.keys] rejects it), whereas [distinctC1Subjects] skips such a
    key and returns the subjects of the other graphs. *)
Theorem distinctSubjectCount_throws_on_undefined_graph this (h : heap) (g : string) :
  heap_wf h → is_node h (_hc4_quads this) →
  VNum 1 ≠ get h (_hc4_quads this) (PSym KEYS) →
  g ∈ forin_keys h (_hc4_quads this) →
  get h (_hc4_quads this) (PStr g) = VUndef →
  distinctSubjectCount this h = None ∧
  ∀ s, s ∈ run_set (distinctC1Subjects this h) ↔
       ∃ g', g' ∈ forin_keys h (_hc4_quads this) ∧ g' ≠ g ∧
             s ∈ forin_value h (get h (_hc4_quads this) (PStr g')).
Proof.
  intros Hwf Hn Hk Hg Hundef. split.
  - pose proof (distinctSubjectCount_multi this h Hwf Hn Hk) as Hm.
    unfold own_subjects in Hm.
    rewrite (own_subjects_step_hollow h _ _ g Hg) in Hm; [done|].
    by rewrite Hundef.
  - intros s. unfold distinctC1Subjects.
    rewrite total_distinct_subjects_eq by done. unfold run_set. simpl.
    rewrite set_elems_snoc, foldl_collect_subjects_elem. split.
    + intros [?%elem_of_nil|(g' & Hg' & Hs)]; [done|].
      exists g'. split_and!; [done| |done].
      intros ->. rewrite Hundef in Hs. by apply elem_of_nil in Hs.
    + intros (g' & Hg' & _ & Hs). right. eauto.
Qed.

End subject_count.

Lemma distinctSubjectCount_read_only_witness :
  heap_wf two_graph_heap ∧ is_node two_graph_heap (_hc4_quads two_graph_dataset) ∧
  (∃ h' n, distinctSubjectCount two_graph_dataset two_graph_heap = Some (h', n) ∧
           preserved two_graph_heap h' ∧ length h' = 11).
Proof.
  assert (Hwf : heap_wf two_graph_heap) by (apply heap_wfb_sound; reflexivity).
  assert (Hn : is_node two_graph_heap (_hc4_quads two_graph_dataset))
    by (vm_compute; eauto).
  split_and!; [done | done |].
  destruct (distinctSubjectCount two_graph_dataset two_graph_heap)
    as [[h' n]|] eqn:E; [|by vm_compute in E].
  exists h', n. split; [done|].
  destruct (distinctSubjectCount_read_only two_graph_dataset two_graph_heap
              h' n Hwf Hn E) as (Hp & _ & _).
  split; [done|]. vm_compute in E. by injection E as <- _.
Defined.

Lemma distinctSubjectCount_agrees_on_plain_graphs_witness :
  heap_wf two_graph_heap ∧ is_node two_graph_heap (_hc4_quads two_graph_dataset) ∧
  VNum 1 ≠ get two_graph_heap (_hc4_quads two_graph_dataset) (PSym KEYS) ∧
  plain_children two_graph_heap (_hc4_quads two_graph_dataset) = true ∧
  run_set (distinctC1Subjects two_graph_dataset two_graph_heap) = ["s"; "s2"] ∧
  subject_count_agrees two_graph_dataset two_graph_heap.
Proof.
  assert (Hwf : heap_wf two_graph_heap) by (apply heap_wfb_sound; reflexivity).
  assert (Hn : is_node two_graph_heap (_hc4_quads two_graph_dataset))
    by (vm_compute; eauto).
  assert (Hk : VNum 1 ≠ get two_graph_heap (_hc4_quads two_graph_dataset) (PSym KEYS))
    by (by vm_compute).
  split_and!; [done | done | done | reflexivity | reflexivity |].
  by apply distinctSubjectCount_agrees_on_plain_graphs.
Defined.

Lemma distinctSubjectCount_agrees_on_default_graph_witness :
  heap_wf sample_heap ∧ is_node sample_heap (_hc4_quads sample_dataset) ∧
  keys_counted sample_heap 2 ∧
  distinctSubjectCount sample_dataset sample_heap = Some (sample_heap, VNum 1) ∧
  subject_count_agrees sample_dataset sample_heap.
Proof.
  assert (Hwf : heap_wf sample_heap) by (apply heap_wfb_sound; reflexivity).
  assert (Hn : is_node sample_heap (_hc4_quads sample_dataset))
    by (vm_compute; eauto).
  assert (Hc : keys_counted sample_heap 2) by reflexivity.
  split_and!; [done | done | done | reflexivity |].
  apply (distinctSubjectCount_agrees_on_default_graph sample_dataset sample_heap 2
           Hwf Hn eq_refl eq_refl eq_refl eq_refl Hc).
Defined.

Lemma distinctSubjectCount_throws_without_default_graph_witness :
  heap_wf named_only_heap ∧
  VNum 1 = get named_only_heap 1 (PSym KEYS) ∧
  ("*" ∉ forin_keys named_only_heap 1) ∧
  distinctSubjectCount (constructor 1 tt None named_only_heap) named_only_heap = None.
Proof.
  assert (Hwf : heap_wf named_only_heap) by (apply heap_wfb_sound; reflexivity).
  assert (Hs : "*" ∉ forin_keys named_only_heap 1).
  { vm_compute. by intros ?%list_elem_of_singleton. }
  split_and!; [done | reflexivity | done |].
  by apply distinctSubjectCount_throws_without_default_graph.
Defined.

Lemma distinctSubjectCount_throws_on_undefined_graph_witness :
  heap_wf hollow_heap ∧ is_node hollow_heap 1 ∧
  distinctSubjectCount (constructor 1 tt None hollow_heap) hollow_heap = None ∧
  run_set (distinctC1Subjects (constructor 1 tt None hollow_heap) hollow_heap) = [].
Proof.
  assert (Hwf : heap_wf hollow_heap) by (apply heap_wfb_sound; reflexivity).
  assert (Hn : is_node hollow_heap 1) by (vm_compute; eauto).
  split_and!; [done | done | | reflexivity].
  apply (distinctSubjectCount_throws_on_undefined_graph
           (constructor 1 tt None hollow_heap) hollow_heap "g" Hwf Hn).
  - by vm_compute.
  - vm_compute. right. left.
  - reflexivity.
Defined.

(** ** The shortcut is a snapshot *)

Lemma get_put_same h l k v :
  heap_wf h → is_node h l → get (put h l k v) l k = v.
Proof.
  intros Hwf [o Ho].
  rewrite (get_delegate _ _ _ _ (heap_wf_put _ _ _ _ Hwf) (obj_at_put_eq _ _ k v _ Ho)).
  simpl. by rewrite al_get_set_eq.
Qed.

(** X14.  The default-graph shortcut is read once, by the constructor:
    when the entry under ["*"] of the root is replaced later, a dataset
    constructed afterwards caches the new child, but on the existing
    dataset [distinctSubjectCount], with one key counted at the root, still
    answers from the tree cached at construction. *)
Theorem shortcut_is_not_refreshed {PrefixMap : Type}
    (this : GenericQuadTree PrefixMap) (h_prefixes : PrefixMap)
    (b_prefixed : option bool) (h : heap) (v : value) :
  heap_wf h → is_node h (_hc4_quads this) →
  VNum 1 = get h (_hc4_quads this) (PSym KEYS) →
  _hc3_trips (constructor (_hc4_quads this) h_prefixes b_prefixed
                (put h (_hc4_quads this) (PStr "*") v)) = v ∧
  (snd <$> distinctSubjectCount this (put h (_hc4_quads this) (PStr "*") v)) =
  (snd <$> distinctSubjectCount this h).
Proof.
  intros Hwf Hn Hk. split.
  - simpl. by apply get_put_same.
  - rewrite !distinctSubjectCount_single;
      [|done|by rewrite get_put_other_key].
    destruct (_hc3_trips this) as [| |t]; simpl; [done..|].
    by rewrite get_put_other_key.
Qed.

Lemma shortcut_is_not_refreshed_witness :
  heap_wf sample_heap ∧ is_node sample_heap (_hc4_quads sample_dataset) ∧
  (snd <$> distinctSubjectCount sample_dataset
             (put sample_heap sample_root (PStr "*") (VRef 1))) = Some (VNum 1) ∧
  (snd <$> distinctSubjectCount
             (constructor sample_root tt None
                (put sample_heap sample_root (PStr "*") (VRef 1)))
             (put sample_heap sample_root (PStr "*") (VRef 1))) = Some (VNum 1).
Proof.
  assert (Hwf : heap_wf sample_heap) by (apply heap_wfb_sound; reflexivity).
  assert (Hn : is_node sample_heap (_hc4_quads sample_dataset))
    by (vm_compute; eauto).
  destruct (shortcut_is_not_refreshed sample_dataset tt None sample_heap (VRef 1)
              Hwf Hn eq_refl) as [_ Hs].
  split_and!; [done | done | | reflexivity].
  transitivity (snd <$> distinctSubjectCount sample_dataset sample_heap);
    [exact Hs | reflexivity].
Defined.

(** ** A dataset over an overlay of the root *)

Lemma foldl_ext_elem {A B} (f g : A → B → A) (l : list B) :
  (∀ a x, x ∈ l → f a x = g a x) → ∀ a, foldl f a l = foldl g a l.
Proof.
  induction l as [|x l IH]; intros Hfg a; [done|]. simpl.
  rewrite Hfg by left. apply IH. intros a' x' Hx'. apply Hfg. by right.
Qed.

(** X15.  A dataset constructed over [overlay(root)] starts out as a view
    of the dataset over [root]: it caches the same default graph, reports
    the same size and distinct-graph count, and enumerates the same graphs
    and the same subjects; and the answers of the source dataset are not
    changed by the derivation. *)
Theorem derived_dataset_same_view {PrefixMap : Type}
    (h : heap) (src : loc) (h' : heap) (d : loc)
    (h_prefixes : PrefixMap) (b_prefixed : option bool) :
  heap_wf h → is_node h src → children_allocated h src = true →
  overlay src h = (h', d) →
  let A := constructor src h_prefixes b_prefixed h in
  let B := constructor d h_prefixes b_prefixed h' in
  _hc3_trips B = _hc3_trips A ∧
  size B h' = size A h ∧
  distinctGraphCount B h' = distinctGraphCount A h ∧
  run_set (distinctC1Graphs B h') = run_set (distinctC1Graphs A h) ∧
  run_set (distinctC1Subjects B h') = run_set (distinctC1Subjects A h) ∧
  size A h' = size A h ∧
  distinctGraphCount A h' = distinctGraphCount A h ∧
  run_set (distinctC1Graphs A h') = run_set (distinctC1Graphs A h) ∧
  run_set (distinctC1Subjects A h') = run_set (distinctC1Subjects A h).
Proof.
  intros Hwf Hn Halloc Ho A B. pose proof Hn as [o Hsrc].
  pose proof (obj_at_lt _ _ _ Hsrc) as Hlt.
  assert (Hh' : h' = (overlay src h).1) by (by rewrite Ho).
  assert (Hd : d = length h) by (by rewrite <- (overlay_snd h src Hn), Ho).
  assert (Hwf' : heap_wf h') by (rewrite Hh'; by apply heap_wf_overlay).
  assert (Hnd : is_node h' d).
  { unfold is_node. rewrite Hh', Hd, overlay_dst_cell by done. eauto. }
  assert (Hns : is_node h' src).
  { unfold is_node. rewrite Hh', (overlay_src_cell _ _ _ Hsrc). eauto. }
  assert (Hgd : ∀ k, k ≠ PSym OVERLAY → k ≠ PSym BURIED → get h' d k = get h src k).
  { intros k Hk1 Hk2. rewrite Hh', Hd, overlay_get_dst by done.
    by rewrite !decide_False. }
  assert (Hgs : ∀ k, k ≠ PSym BURIED → get h' src k = get h src k).
  { intros k Hk. rewrite Hh'. by apply overlay_get_old. }
  assert (Hfd : forin_keys h' d = forin_keys h src)
    by (rewrite Hh', Hd; by apply overlay_forin_dst).
  assert (Hfs : forin_keys h' src = forin_keys h src)
    by (rewrite Hh'; by apply overlay_forin_old).
  assert (Hfv : ∀ g, g ∈ forin_keys h src →
            forin_value h' (get h src (PStr g)) = forin_value h (get h src (PStr g))).
  { intros g Hg. pose proof (forallb_elem_of _ _ _ Halloc Hg) as Hv.
    cbv beta in Hv. destruct (get h src (PStr g)) as [| |t]; simpl in *; [done..|].
    apply bool_decide_eq_true in Hv. rewrite Hh'. by apply overlay_forin_old. }
  assert (Hsub : ∀ r, (∀ g, get h' r (PStr g) = get h src (PStr g)) →
            foldl (collect_subjects h' r) [] (forin_keys h src) =
            foldl (collect_subjects h src) [] (forin_keys h src)).
  { intros r Hr. apply foldl_ext_elem. intros es g Hg.
    unfold collect_subjects. by rewrite Hr, Hfv. }
  split_and!.
  - subst A B. simpl. by apply Hgd.
  - subst A B. unfold size. simpl. by apply Hgd.
  - subst A B. unfold distinctGraphCount. simpl. by apply Hgd.
  - unfold distinctC1Graphs. rewrite !total_distinct_graphs_eq by done.
    unfold run_set. simpl. by rewrite !set_elems_snoc.
  - unfold distinctC1Subjects. rewrite !total_distinct_subjects_eq by done.
    unfold run_set. simpl. rewrite !set_elems_snoc, Hfd.
    apply Hsub. intros g. by apply Hgd.
  - subst A. unfold size. simpl. by apply Hgs.
  - subst A. unfold distinctGraphCount. simpl. by apply Hgs.
  - unfold distinctC1Graphs. rewrite !total_distinct_graphs_eq by done.
    unfold run_set. simpl. by rewrite !set_elems_snoc.
  - unfold distinctC1Subjects. rewrite !total_distinct_subjects_eq by done.
    unfold run_set. simpl. rewrite !set_elems_snoc, Hfs.
    apply Hsub. intros g. by apply Hgs.
Qed.

Lemma derived_dataset_same_view_witness :
  heap_wf two_graph_heap ∧ is_node two_graph_heap 7 ∧
  children_allocated two_graph_heap 7 = true ∧
  size (constructor 8 tt None (overlay 7 two_graph_heap).1)
       (overlay 7 two_graph_heap).1 = VNum 3 ∧
  run_set (distinctC1Subjects (constructor 8 tt None (overlay 7 two_graph_heap).1)
             (overlay 7 two_graph_heap).1) = ["s"; "s2"].
Proof.
  assert (Hwf : heap_wf two_graph_heap) by (apply heap_wfb_sound; reflexivity).
  assert (Hn : is_node two_graph_heap 7) by (vm_compute; eauto).
  destruct (derived_dataset_same_view two_graph_heap 7 (overlay 7 two_graph_heap).1 8
              tt None Hwf Hn eq_refl eq_refl) as (_ & Hsz & _ & _ & Hsub & _).
  split_and!; [done | done | reflexivity | |].
  - rewrite Hsz. reflexivity.
  - rewrite Hsub. reflexivity.
Defined.

(** ** Derivation and materialization keep the key counter right *)

Lemma graph_count_agrees_of_counted {PrefixMap GraphTerm : Type}
    (graphFromC1 : string → PrefixMap → GraphTerm)
    (this : GenericQuadTree PrefixMap) (h : heap) :
  heap_wf h → is_node h (_hc4_quads this) →
  keys_counted h (_hc4_quads this) →
  graph_count_agrees graphFromC1 this h.
Proof.
  intros Hwf Hn Hc. unfold graph_count_agrees.
  rewrite (surjective_pairing (distinctGraphs graphFromC1 this h)).
  rewrite distinctGraphs_eq by done. cbn [fst snd].
  unfold distinctGraphCount. by rewrite length_fmap.
Qed.

(** X16.  [overlay] keeps the key counter right: the counter of the new
    node agrees with its enumeration exactly when that of the source did
    before the call, the source stays as right as it was, and then a
    dataset over the new node reports as many distinct graphs as it
    enumerates. *)
Theorem overlay_keeps_keys_counted {PrefixMap GraphTerm : Type}
    (graphFromC1 : string → PrefixMap → GraphTerm)
    (h : heap) (src : loc) (h' : heap) (d : loc)
    (h_prefixes : PrefixMap) (b_prefixed : option bool) :
  heap_wf h → is_node h src →
  overlay src h = (h', d) →
  (keys_counted h' d ↔ keys_counted h src) ∧
  (keys_counted h' src ↔ keys_counted h src) ∧
  (keys_counted h src →
   graph_count_agrees graphFromC1 (constructor d h_prefixes b_prefixed h') h').
Proof.
  intros Hwf Hn Ho. pose proof Hn as [o Hsrc].
  pose proof (obj_at_lt _ _ _ Hsrc) as Hlt.
  assert (Hh' : h' = (overlay src h).1) by (by rewrite Ho).
  assert (Hd : d = length h) by (by rewrite <- (overlay_snd h src Hn), Ho).
  assert (Hwf' : heap_wf h') by (rewrite Hh'; by apply heap_wf_overlay).
  assert (Hnd : is_node h' d).
  { unfold is_node. rewrite Hh', Hd, overlay_dst_cell by done. eauto. }
  assert (Hcd : keys_counted h' d ↔ keys_counted h src).
  { unfold keys_counted. rewrite Hh', Hd, overlay_get_dst, overlay_forin_dst by done.
    by rewrite !decide_False. }
  split_and!.
  - done.
  - unfold keys_counted. by rewrite Hh', overlay_get_old, overlay_forin_old.
  - intros Hc. apply graph_count_agrees_of_counted; [done|done|]. by apply Hcd.
Qed.

Lemma overlay_keeps_keys_counted_witness :
  heap_wf two_graph_heap ∧ is_node two_graph_heap 7 ∧
  keys_counted two_graph_heap 7 ∧
  graph_count_agrees (λ k (_ : unit), k)
    (constructor 8 tt None (overlay 7 two_graph_heap).1) (overlay 7 two_graph_heap).1.
Proof.
  assert (Hwf : heap_wf two_graph_heap) by (apply heap_wfb_sound; reflexivity).
  assert (Hn : is_node two_graph_heap 7) by (vm_compute; eauto).
  assert (Hc : keys_counted two_graph_heap 7) by reflexivity.
  destruct (overlay_keeps_keys_counted (λ k (_ : unit), k) two_graph_heap 7
              (overlay 7 two_graph_heap).1 8 tt None Hwf Hn eq_refl)
    as (_ & _ & Hg).
  split_and!; [done | done | done | by apply Hg].
Defined.

(** X17.  [trace] keeps the key counter right: the counter of the
    materialized node agrees with its own keys exactly when the counter of
    the traced node agreed with its enumeration, and then a dataset over
    the materialized node reports as many distinct graphs as it
    enumerates. *)
Theorem trace_keeps_keys_counted {PrefixMap GraphTerm : Type}
    (graphFromC1 : string → PrefixMap → GraphTerm)
    (h : heap) (n : loc) (h' : heap) (t : loc)
    (h_prefixes : PrefixMap) (b_prefixed : option bool) :
  heap_wf h → is_node h n →
  trace n h = (h', t) →
  (keys_counted h' t ↔ keys_counted h n) ∧
  (keys_counted h n →
   graph_count_agrees graphFromC1 (constructor t h_prefixes b_prefixed h') h').
Proof.
  intros Hwf Hn Ht. pose proof Hn as [o Ho].
  pose proof (obj_at_lt _ _ _ Ho) as Hlt.
  assert (Hwf' : heap_wf h').
  { replace h' with (trace n h).1 by (by rewrite Ht). by apply heap_wf_trace. }
  rewrite trace_eq in Ht by done. injection Ht as <- <-.
  assert (Hnt : is_node (h ++ [traced_cell h n]) (length h)).
  { unfold is_node, traced_cell. rewrite obj_at_snoc. eauto. }
  assert (Hct : keys_counted (h ++ [traced_cell h n]) (length h) ↔ keys_counted h n).
  { unfold keys_counted, traced_cell.
    by rewrite get_snoc_flat, traced_get_sym, forin_keys_snoc_flat, own_keys_traced. }
  split; [done|]. intros Hc.
  apply graph_count_agrees_of_counted; [done|done|]. by apply Hct.
Qed.

Lemma trace_keeps_keys_counted_witness :
  heap_wf sample_overlaid ∧ is_node sample_overlaid sample_overlay ∧
  keys_counted sample_overlaid sample_overlay ∧
  graph_count_agrees (λ k (_ : unit), k)
    (constructor 6 tt None (trace sample_overlay sample_overlaid).1)
    (trace sample_overlay sample_overlaid).1.
Proof.
  assert (Hwf : heap_wf sample_overlaid) by (apply heap_wfb_sound; reflexivity).
  assert (Hn : is_node sample_overlaid sample_overlay) by (vm_compute; eauto).
  assert (Hc : keys_counted sample_overlaid sample_overlay) by reflexivity.
  destruct (trace_keeps_keys_counted (λ k (_ : unit), k) sample_overlaid sample_overlay
              (trace sample_overlay sample_overlaid).1 6 tt None Hwf Hn eq_refl)
    as (_ & Hg).
  split_and!; [done | done | done | by apply Hg].
Defined.

(** * The datasets the engine produces *)

Module DatasetFacts.
Import BasicQuadTree.

(** ** The default graph stays in the tree *)

Lemma al_set_fst_keeps {A} (k k' : string) (v : A) (l : list (string * A)) :
  k' ∈ l.*1 → k' ∈ (al_set k v l).*1.
Proof.
  intros Hin. destruct (decide (k ∈ l.*1)).
  - by rewrite al_set_fst_in.
  - rewrite al_set_fst_notin by done. apply elem_of_app. by left.
Qed.

Lemma al_del_fst_keeps {A} (k k' : string) (l : list (string * A)) :
  k ≠ k' → k' ∈ l.*1 → k' ∈ (al_del k l).*1.
Proof.
  intros Hne. induction l as [|[k0 v0] l IH]; csimpl; [done|].
  rewrite elem_of_cons. intros [->|Hin].
  - rewrite decide_False by done. csimpl. left.
  - destruct (decide (k = k0)); csimpl; [done|]. right. auto.
Qed.

Lemma add_at_keeps_key {A} (empty_child : A) (add_child : A → A * bool)
    (k k' : string) (n : node A) :
  k' ∈ (entries n).*1 → k' ∈ (entries (add_at empty_child add_child k n).1).*1.
Proof.
  intros Hin. unfold add_at.
  destruct (al_get k (entries n)) as [c|].
  - destruct (add_child c) as [c' [|]]; simpl; [|done]. by apply al_set_fst_keeps.
  - destruct (add_child empty_child) as [c' [|]]; simpl; [|done].
    by apply al_set_fst_keeps.
Qed.

Lemma delete_at_keeps_key {A} (is_empty : A → bool) (delete_child : A → A * bool)
    (keep : bool) (k k' : string) (n : node A) :
  keep = true ∨ k ≠ k' →
  k' ∈ (entries n).*1 →
  k' ∈ (entries (delete_at is_empty delete_child keep k n).1).*1.
Proof.
  intros Hkeep Hin. unfold delete_at.
  destruct (al_get k (entries n)) as [c|]; [|done].
  destruct (delete_child c) as [c' [|]]; simpl; [|done].
  destruct (is_empty c' && negb keep) eqn:Hrm; simpl.
  - apply andb_prop in Hrm as [_ Hnk]. destruct Hkeep as [->|Hne]; [done|].
    by apply al_del_fst_keeps.
  - by apply al_set_fst_keeps.
Qed.

Lemma run_has_default_graph (ops : list op) :
  default_graph ∈ (entries (run ops)).*1.
Proof.
  induction ops as [|x ops IH] using rev_ind.
  - unfold run. simpl. left.
  - rewrite BasicQuadTreeFacts.run_snoc. destruct x as [q|q]; simpl.
    + destruct q as [g [s [p o]]]. by apply add_at_keeps_key.
    + destruct q as [g [s [p o]]]. apply delete_at_keeps_key; [|done].
      destruct (decide (g = default_graph)) as [->|Hne].
      * left. by apply bool_decide_eq_true.
      * by right.
Qed.

(** ** Children of a stored node *)

Lemma store_node_extends {A} (store_child : A → heap → heap * loc) :
  (∀ c h, ∃ ext, (store_child c h).1 = h ++ ext) →
  ∀ (n : node A) h, ∃ ext, (store_node store_child n h).1 = h ++ ext.
Proof.
  intros Hchild n h. unfold store_node.
  assert (Hfold : ∀ es acc, ∃ ext,
            (foldl (store_entry store_child) acc es).1 = acc.1 ++ ext).
  { induction es as [|[k c] es IH]; intros acc; simpl.
    - exists []. by rewrite app_nil_r.
    - destruct (IH (store_entry store_child acc (k, c))) as [ext Hext].
      rewrite Hext. unfold store_entry. simpl.
      destruct (Hchild c acc.1) as [ext' Hext'].
      destruct (store_child c acc.1) as [h' l]. simpl in *. subst h'.
      exists (ext' ++ ext). by rewrite (assoc_L (++)). }
  destruct (Hfold (entries n) (h, [])) as [ext Hext].
  destruct (foldl (store_entry store_child) (h, []) (entries n)) as [h' ps].
  simpl in *. subst h'. exists (ext ++ [CObj
    {| props := [(PSym KEYS, VNum (keyCount n)); (PSym QUADS, VNum (quadCount n))] ++ ps;
       proto := None |}]).
  by rewrite (assoc_L (++)).
Qed.

Lemma store_node_is_node {A} (store_child : A → heap → heap * loc)
    (n : node A) (h : heap) :
  is_node (store_node store_child n h).1 (store_node store_child n h).2.
Proof.
  unfold store_node.
  destruct (foldl (store_entry store_child) (h, []) (entries n)) as [h' ps].
  unfold is_node, alloc. simpl. by rewrite obj_at_snoc.
Qed.

Lemma is_node_app (h ext : heap) l : is_node h l → is_node (h ++ ext) l.
Proof.
  intros [o Ho]. exists o. rewrite obj_at_app_l; [done|]. by eapply obj_at_lt.
Qed.

Lemma store_entries_refs {A} (store_child : A → heap → heap * loc)
    (es : list (string * A)) :
  (∀ c h, ∃ ext, (store_child c h).1 = h ++ ext) →
  (∀ c h, is_node (store_child c h).1 (store_child c h).2) →
  ∀ acc,
  (∀ kv, kv ∈ acc.2 → ∃ l, kv.2 = VRef l ∧ is_node acc.1 l) →
  ∀ kv, kv ∈ (foldl (store_entry store_child) acc es).2 →
        ∃ l, kv.2 = VRef l ∧ is_node (foldl (store_entry store_child) acc es).1 l.
Proof.
  intros Hext Hnode. induction es as [|[k c] es IH]; intros acc Hacc; [done|].
  simpl. apply IH. unfold store_entry. simpl.
  destruct (Hext c acc.1) as [ext Hh']. pose proof (Hnode c acc.1) as Hl.
  destruct (store_child c acc.1) as [h' l]. simpl in *. subst h'.
  intros kv [Hin|Hin]%elem_of_app.
  - destruct (Hacc kv Hin) as (l0 & Hv & Hn0). exists l0.
    split; [done|]. by apply is_node_app.
  - apply list_elem_of_singleton in Hin as ->. by exists l.
Qed.

(** Under every key of a stored node there is a reference to a node. *)
Lemma store_node_child {A} (store_child : A → heap → heap * loc)
    (n : node A) (h : heap) (k : string) :
  (∀ c h, ∃ ext, (store_child c h).1 = h ++ ext) →
  (∀ c h, is_node (store_child c h).1 (store_child c h).2) →
  k ∈ (entries n).*1 →
  ∃ t, lookup_chain (store_node store_child n h).1 (store_node store_child n h).2
         (PStr k) = Some (VRef t) ∧
       is_node (store_node store_child n h).1 t.
Proof.
  intros Hext Hnode Hk. unfold store_node.
  pose proof (BasicQuadTreeFacts.store_entries_keys store_child (entries n) (h, []))
    as Hkeys.
  pose proof (store_entries_refs store_child (entries n) Hext Hnode (h, [])) as Hrefs.
  destruct (foldl (store_entry store_child) (h, []) (entries n)) as [h' ps].
  simpl in *.
  assert (Hin : PStr k ∈ ps.*1).
  { rewrite Hkeys. apply list_elem_of_fmap. by exists k. }
  destruct (al_get (PStr k) ps) as [v|] eqn:Hg;
    [|by apply al_get_None_fst in Hg].
  destruct (Hrefs (λ kv Hkv, False_ind _ (proj1 (elem_of_nil kv) Hkv))
              (PStr k, v) (al_get_elem _ _ _ Hg)) as (t & Hv & Ht).
  simpl in Hv. subst v. exists t. split.
  - unfold alloc, lookup_chain. simpl. rewrite obj_at_snoc. simpl. by rewrite Hg.
  - unfold alloc. simpl. by apply is_node_app.
Qed.

(** ** What holds of every root *)

Lemma root_inv_stored (ops : list op) (h0 : heap) :
  heap_wf h0 → root_inv (store (run ops) h0).1 (store (run ops) h0).2.
Proof.
  intros Hwf0. destruct (BasicQuadTreeFacts.run_ok ops) as [Hok _].
  destruct (BasicQuadTreeFacts.store_shape (run ops) h0 Hok Hwf0)
    as (Hwf & Hn & Hforin).
  split_and!; [done|done| | |].
  - unfold keys_counted. rewrite Hforin, length_fmap.
    unfold store at 1 2. rewrite BasicQuadTreeFacts.store_node_root.
    by destruct Hok as (_ & [-> _] & _).
  - rewrite Hforin. apply run_has_default_graph.
  - apply store_node_child; [|apply store_node_is_node|apply run_has_default_graph].
    apply store_node_extends, store_node_extends.
    intros os h. by exists [CSet os].
Qed.

Lemma is_node_overlay_old h src l :
  is_node h src → is_node h l → is_node (overlay src h).1 l.
Proof.
  intros Hn [o Ho]. pose proof Hn as [osrc Hsrc].
  destruct (decide (l = src)) as [->|Hne].
  - unfold is_node. rewrite (overlay_src_cell _ _ _ Hsrc). eauto.
  - unfold is_node. rewrite overlay_obj_old; eauto using obj_at_lt.
Qed.

Lemma lookup_chain_get h l k v : lookup_chain h l k = Some v → get h l k = v.
Proof. intros Hl. unfold get. by rewrite Hl. Qed.

Lemma get_lookup_chain h l (k : string) :
  heap_wf h → k ∈ forin_keys h l → lookup_chain h l (PStr k) = Some (get h l (PStr k)).
Proof.
  intros Hwf Hk. apply forin_keys_is_Some in Hk as [v Hv]; [|done].
  unfold get. by rewrite Hv.
Qed.

Lemma root_inv_same_view h r h' r' :
  root_inv h r →
  heap_wf h' → is_node h' r' →
  forin_keys h' r' = forin_keys h r →
  get h' r' (PSym KEYS) = get h r (PSym KEYS) →
  get h' r' (PStr "*") = get h r (PStr "*") →
  (∀ t, is_node h t → is_node h' t) →
  root_inv h' r'.
Proof.
  intros (Hwf & Hn & Hc & Hstar & t & Ht & Hnt) Hwf' Hn' Hforin Hkeys Hget Hnodes.
  split_and!; [done|done| | |].
  - unfold keys_counted. by rewrite Hforin, Hkeys.
  - by rewrite Hforin.
  - exists t. split; [|by apply Hnodes].
    rewrite get_lookup_chain by (by rewrite ?Hforin).
    by rewrite Hget, (lookup_chain_get _ _ _ _ Ht).
Qed.

Lemma dataset_root_inv (h : heap) (r : loc) : dataset_root h r → root_inv h r.
Proof.
  induction 1 as [ops h0 Hwf0|h r Hr IH|h r Hr IH|h r r' Hr IH Hr' IH'|h r r' Hr IH Hr' IH'].
  - by apply root_inv_stored.
  - pose proof IH as (Hwf & Hn & _). pose proof Hn as [o Ho].
    rewrite (overlay_snd h r Hn).
    apply (root_inv_same_view h r); [done|by apply heap_wf_overlay| | | | |].
    + unfold is_node. rewrite overlay_dst_cell by done. eauto.
    + by apply overlay_forin_dst.
    + by rewrite overlay_get_dst.
    + by rewrite overlay_get_dst.
    + intros t. by apply is_node_overlay_old.
  - pose proof IH as (Hwf & Hn & _). pose proof Hn as [o Ho].
    pose proof (obj_at_lt _ _ _ Ho) as Hlt.
    apply (root_inv_same_view h r); [done|by apply heap_wf_trace| | | | |];
      rewrite trace_eq by done; simpl; unfold traced_cell.
    + unfold is_node. rewrite obj_at_snoc. eauto.
    + rewrite forin_keys_snoc_flat. apply own_keys_traced.
    + by rewrite get_snoc_flat, traced_get_sym.
    + rewrite get_snoc_flat, traced_get_str by done.
      destruct (decide ("*" ∈ forin_keys h r)) as [|Hnin]; [done|].
      simpl. symmetry. by apply get_not_enumerated.
    + intros t. apply is_node_app.
  - pose proof IH as (Hwf & Hn & _). pose proof IH' as (_ & Hn' & _).
    pose proof Hn as [o Ho]. pose proof (obj_at_lt _ _ _ Ho) as Hlt.
    apply (root_inv_same_view h r); [done|by apply heap_wf_overlay| | | | |].
    + by apply is_node_overlay_old.
    + by apply overlay_forin_old.
    + by apply overlay_get_old.
    + by apply overlay_get_old.
    + intros t. by apply is_node_overlay_old.
  - pose proof IH as (Hwf & Hn & _). pose proof IH' as (_ & Hn' & _).
    pose proof Hn as [o Ho]. pose proof (obj_at_lt _ _ _ Ho) as Hlt.
    pose proof Hn' as [o' Ho']. pose proof (obj_at_lt _ _ _ Ho') as Hlt'.
    apply (root_inv_same_view h r); [done|by apply heap_wf_trace| | | | |];
      rewrite trace_eq by done; simpl.
    + by apply is_node_app.
    + by apply forin_keys_app_l.
    + by apply get_app_l.
    + by apply get_app_l.
    + intros t. apply is_node_app.
Qed.

End DatasetFacts.

(** ** Counting graphs *)

Section counting.
Context {PrefixMap GraphTerm SubjectTerm : Type}.
Variable graphFromC1 : string → PrefixMap → GraphTerm.
Implicit Types this : GenericQuadTree PrefixMap.


(** ** The default-graph shortcut *)


End counting.


